(** * Voronoi visualizer: the geometry-processing core of [GLWidget]

    A shallow embedding of [src/voronoi_visualizer.cpp]: the bounding
    rectangle ([update_brect], [construct_brect]), the exterior flood-fill
    ([color_exterior]), the clipping of unbounded edges
    ([clip_infinite_edge]), the tolerance handed to the parabola sampler
    ([sample_curved_edge]), the render-buffer builders ([prepare_points],
    [prepare_segments], [prepare_vertices], [prepare_edges]) and [build].

    The program is written over [coordinate_type = double].  The embedding is
    written once, over a class of coordinate arithmetic, and is run at two
    instances: IEEE binary64 (Rocq's primitive floats: what the program
    computes) and the rationals (the same formulas without rounding). *)

From stdpp Require Import base option list gmap.
From Stdlib Require Import ZArith QArith Qabs Qminmax Lqa Lia.
From Stdlib Require Import Floats.
Local Close Scope Q_scope.
Local Open Scope nat_scope.

(** ** Coordinate arithmetic *)

(** The operations the widget performs on [coordinate_type] (line 173). *)
Class Coordinate (T : Type) := {
  of_int : Z -> T;            (* the conversion int -> double *)
  lit_0_5 : T;                (* the literal 0.5 *)
  lit_1_2 : T;                (* the literal 1.2 *)
  lit_1E_3 : T;               (* the literal 1E-3 *)
  cadd : T -> T -> T;
  csub : T -> T -> T;
  cmul : T -> T -> T;
  cdiv : T -> T -> T;
  copp : T -> T;
  fabs : T -> T;
  cltb : T -> T -> bool;      (* operator< *)
  ceqb : T -> T -> bool       (* operator== *)
}.

(** The operations on [float] (the fields of [GLPoint], the projection
    matrix): the narrowing conversion from [double], the promotion back and
    the division of [update_view_port]. *)
Class GLFloat (T G : Type) := {
  narrow : T -> G;            (* double -> float *)
  widen : G -> T;             (* float -> double *)
  gl_of_int : Z -> G;         (* the literals 2.f, 1.f, -1.f, 0.f *)
  gl_div : G -> G -> G
}.

Declare Scope coord_scope.
Delimit Scope coord_scope with coord.
Infix "+" := cadd : coord_scope.
Infix "-" := csub : coord_scope.
Infix "*" := cmul : coord_scope.
Infix "/" := cdiv : coord_scope.
Notation "- x" := (copp x) : coord_scope.
Infix "<?" := cltb : coord_scope.
Infix "=?" := ceqb : coord_scope.

(** ** Undefined behaviour and fuel *)

(** What running a piece of the program gives: a result, undefined behaviour
    (an index or a pointer outside its container), or no result within the
    recursion budget. *)
Inductive outcome (A : Type) : Type :=
  | Done (a : A)
  | Crash
  | Timeout.
Arguments Done {A} a.
Arguments Crash {A}.
Arguments Timeout {A}.

Definition obind {A B : Type} (m : outcome A) (k : A -> outcome B) : outcome B :=
  match m with
  | Done a => k a
  | Crash => Crash
  | Timeout => Timeout
  end.

Instance outcome_ret : MRet outcome := @Done.
Instance outcome_bind : MBind outcome := fun A B k m => obind m k.

(** Dereferencing a pointer into a container of the diagram. *)
Definition deref {A : Type} (l : list A) (i : nat) : outcome A :=
  match l !! i with
  | Some a => Done a
  | None => Crash
  end.

(** [operator[]] of a [std::vector] at a [std::size_t]. *)
Definition at_index {A : Type} (l : list A) (i : N) : outcome A :=
  if (i <? N.of_nat (length l))%N then deref l (N.to_nat i) else Crash.

(** Subtraction of [std::size_t]: modulo [2^64]. *)
Definition size_t_sub (a b : N) : N :=
  Z.to_N ((Z.of_N a - Z.of_N b) mod 2 ^ 64)%Z.

(** A loop over a container, the position of the iterator alongside. *)
Fixpoint for_each {A B : Type} (f : B -> nat -> A -> outcome B)
    (i : nat) (l : list A) (b : B) : outcome B :=
  match l with
  | [] => Done b
  | a :: l' => obind (f b i a) (for_each f (S i) l')
  end.

(** The same loop when its body cannot fail. *)
Fixpoint for_each_pure {A B : Type} (f : B -> nat -> A -> B)
    (i : nat) (l : list A) (b : B) : B :=
  match l with
  | [] => b
  | a :: l' => for_each_pure f (S i) l' (f b i a)
  end.

(** ** The diagram: an arena of cells, vertices and half-edges *)

(** [source_category_type] of a cell. *)
Inductive source_category : Type :=
  | SOURCE_CATEGORY_SINGLE_POINT
  | SOURCE_CATEGORY_SEGMENT_START_POINT
  | SOURCE_CATEGORY_SEGMENT_END_POINT
  | SOURCE_CATEGORY_INITIAL_SEGMENT
  | SOURCE_CATEGORY_REVERSE_SEGMENT.

Instance source_category_eq_dec : EqDecision source_category.
Proof. solve_decision. Defined.

Record cell_type : Type := {
  source_index : N;                    (* std::size_t *)
  cell_category : source_category
}.

Definition contains_point (c : cell_type) : bool :=
  match cell_category c with
  | SOURCE_CATEGORY_SINGLE_POINT
  | SOURCE_CATEGORY_SEGMENT_START_POINT
  | SOURCE_CATEGORY_SEGMENT_END_POINT => true
  | _ => false
  end.

Definition contains_segment (c : cell_type) : bool := negb (contains_point c).

(** Pointers between diagram entities are indices into the arena; an absent
    vertex ([NULL]) is [None]. *)
Record edge_type : Type := {
  cell : nat;
  twin : nat;
  vertex0 : option nat;
  vertex1 : option nat;
  rot_next : nat;
  is_primary : bool;
  is_curved : bool
}.

Definition is_finite (e : edge_type) : bool :=
  match vertex0 e, vertex1 e with
  | Some _, Some _ => true
  | _, _ => false
  end.

Section Geometry.
Context {T : Type} `{Coordinate T}.
Local Open Scope coord_scope.

Record vertex_type : Type := {
  vx : T;
  vy : T;
  incident_edge : nat
}.

Record diagram : Type := {
  cells : list cell_type;
  vertices : list vertex_type;
  edges : list edge_type
}.

(** [vd_.clear()] *)
Definition empty_diagram : diagram :=
  {| cells := []; vertices := []; edges := [] |}.

(** The color tags of the edges and of the vertices, as tables indexed like
    the arena. *)
Record colors : Type := {
  edge_color : list nat;
  vertex_color : list nat
}.

Definition EXTERNAL_COLOR : nat := 1.

(** A freshly constructed diagram carries color 0 everywhere. *)
Definition fresh_colors (d : diagram) : colors :=
  {| edge_color := replicate (length (edges d)) 0;
     vertex_color := replicate (length (vertices d)) 0 |}.

Definition get_edge_color (c : colors) (e : nat) : nat :=
  default 0 (edge_color c !! e).

Definition get_vertex_color (c : colors) (v : nat) : nat :=
  default 0 (vertex_color c !! v).

Definition set_edge_color (e : nat) (x : nat) (c : colors) : colors :=
  {| edge_color := <[e := x]> (edge_color c); vertex_color := vertex_color c |}.

Definition set_vertex_color (v : nat) (x : nat) (c : colors) : colors :=
  {| edge_color := edge_color c; vertex_color := <[v := x]> (vertex_color c) |}.

(** ** Points, segments, rectangles (Boost.Polygon) *)

Record point_type : Type := { px : T; py : T }.

Record segment_type : Type := { low : point_type; high : point_type }.

Record rect_type : Type := { xl : T; xh : T; yl : T; yh : T }.

(** [std::max] and [std::min] *)
Definition cmax (a b : T) : T := if a <? b then b else a.
Definition cmin (a b : T) : T := if b <? a then b else a.

(** [operator==] of [point_data] *)
Definition point_eqb (p q : point_type) : bool :=
  (px p =? px q) && (py p =? py q).

(** Modelled from the spec: Boost.Polygon's [set_points] is not under src/;
    it sets the rectangle to the box spanned by two points (the caller passes
    the same point twice: "a degenerate region at that point"). *)
Definition set_points (p q : point_type) : rect_type :=
  {| xl := cmin (px p) (px q); xh := cmax (px p) (px q);
     yl := cmin (py p) (py q); yh := cmax (py p) (py q) |}.

(** Modelled from the spec: Boost.Polygon's [encompass] is not under src/;
    it "grows the region to include [point]". *)
Definition encompass (r : rect_type) (p : point_type) : rect_type :=
  {| xl := cmin (px p) (xl r); xh := cmax (px p) (xh r);
     yl := cmin (py p) (yl r); yh := cmax (py p) (yh r) |}.

(** Modelled from the spec: Boost.Polygon's [center] is not under src/; it
    gives the centroid of the rectangle. *)
Definition center (r : rect_type) : point_type :=
  {| px := (xh r + xl r) / of_int 2; py := (yh r + yl r) / of_int 2 |}.

(** Modelled from the spec: Boost.Polygon's [bloat] is not under src/; it
    moves every side of the rectangle outwards by the given amount. *)
Definition bloat (r : rect_type) (b : T) : rect_type :=
  {| xl := xl r - b; xh := xh r + b; yl := yl r - b; yh := yh r + b |}.

(** Modelled from the spec: Boost.Polygon's [deconvolve] is not under src/;
    it translates a point (a rectangle) by minus the shift.  It takes the
    point by reference, updates it in place and returns it (as line 269 relies
    on for the rectangle): the callers below rebind the name they pass. *)
Definition deconvolve (p shift : point_type) : point_type :=
  {| px := px p - px shift; py := py p - py shift |}.

Definition deconvolve_rect (r : rect_type) (shift : point_type) : rect_type :=
  {| xl := xl r - px shift; xh := xh r - px shift;
     yl := yl r - py shift; yh := yh r - py shift |}.

End Geometry.

Arguments vertex_type T : clear implicits.
Arguments diagram T : clear implicits.
Arguments point_type T : clear implicits.
Arguments segment_type T : clear implicits.
Arguments rect_type T : clear implicits.

(** ** The OpenGL buffer store *)

Section Widget.
Context {T G : Type} `{Coordinate T} `{GLFloat T G}.
Local Open Scope coord_scope.

Record GLPoint : Type := { x_ : G; y_ : G }.

(** [GLPoint(x, y)] at the coordinates of a point: narrowed to [float]. *)
Definition gl_point (p : point_type T) : GLPoint :=
  {| x_ := narrow (px p); y_ := narrow (py p) |}.

Record VBO : Type := { id_ : nat; vertex_count_ : nat }.

(** The buffer objects of the GL context: the next unused buffer name and the
    data store of every buffer that has one. *)
Record gl_context : Type := {
  gl_next_name : nat;
  gl_buffer_data : gmap nat (list GLPoint)
}.

Definition glGenBuffers (ctx : gl_context) : nat * gl_context :=
  (gl_next_name ctx,
   {| gl_next_name := S (gl_next_name ctx); gl_buffer_data := gl_buffer_data ctx |}).

Definition glBufferData (id : nat) (data : list GLPoint) (ctx : gl_context) : gl_context :=
  {| gl_next_name := gl_next_name ctx;
     gl_buffer_data := <[id := data]> (gl_buffer_data ctx) |}.

Definition glDeleteBuffers (id : nat) (ctx : gl_context) : gl_context :=
  {| gl_next_name := gl_next_name ctx;
     gl_buffer_data := delete id (gl_buffer_data ctx) |}.

(** ** The state of [GLWidget] (lines 567-587) *)

Record widget : Type := {
  shift_ : point_type T;
  point_data_ : list (point_type T);
  segment_data_ : list (segment_type T);
  brect_ : rect_type T;
  vd_ : diagram T;
  vd_colors_ : colors;
  brect_initialized_ : bool;
  primary_edges_only_ : bool;
  internal_edges_only_ : bool;
  projection_matrix_ : list G;
  gl_points_ : list VBO;
  gl_segments_ : VBO;
  gl_vertices_ : list VBO;
  gl_edges_ : list VBO;
  gl_ : gl_context
}.

Definition with_region (r : rect_type T) (b : bool) (w : widget) : widget :=
  {| shift_ := shift_ w; point_data_ := point_data_ w;
     segment_data_ := segment_data_ w; brect_ := r; vd_ := vd_ w;
     vd_colors_ := vd_colors_ w; brect_initialized_ := b;
     primary_edges_only_ := primary_edges_only_ w;
     internal_edges_only_ := internal_edges_only_ w;
     projection_matrix_ := projection_matrix_ w; gl_points_ := gl_points_ w;
     gl_segments_ := gl_segments_ w; gl_vertices_ := gl_vertices_ w;
     gl_edges_ := gl_edges_ w; gl_ := gl_ w |}.

Definition with_shift (s : point_type T) (w : widget) : widget :=
  {| shift_ := s; point_data_ := point_data_ w;
     segment_data_ := segment_data_ w; brect_ := brect_ w; vd_ := vd_ w;
     vd_colors_ := vd_colors_ w; brect_initialized_ := brect_initialized_ w;
     primary_edges_only_ := primary_edges_only_ w;
     internal_edges_only_ := internal_edges_only_ w;
     projection_matrix_ := projection_matrix_ w; gl_points_ := gl_points_ w;
     gl_segments_ := gl_segments_ w; gl_vertices_ := gl_vertices_ w;
     gl_edges_ := gl_edges_ w; gl_ := gl_ w |}.

Definition with_sites (ps : list (point_type T)) (ss : list (segment_type T))
    (w : widget) : widget :=
  {| shift_ := shift_ w; point_data_ := ps; segment_data_ := ss;
     brect_ := brect_ w; vd_ := vd_ w; vd_colors_ := vd_colors_ w;
     brect_initialized_ := brect_initialized_ w;
     primary_edges_only_ := primary_edges_only_ w;
     internal_edges_only_ := internal_edges_only_ w;
     projection_matrix_ := projection_matrix_ w; gl_points_ := gl_points_ w;
     gl_segments_ := gl_segments_ w; gl_vertices_ := gl_vertices_ w;
     gl_edges_ := gl_edges_ w; gl_ := gl_ w |}.

Definition with_diagram (d : diagram T) (c : colors) (w : widget) : widget :=
  {| shift_ := shift_ w; point_data_ := point_data_ w;
     segment_data_ := segment_data_ w; brect_ := brect_ w; vd_ := d;
     vd_colors_ := c; brect_initialized_ := brect_initialized_ w;
     primary_edges_only_ := primary_edges_only_ w;
     internal_edges_only_ := internal_edges_only_ w;
     projection_matrix_ := projection_matrix_ w; gl_points_ := gl_points_ w;
     gl_segments_ := gl_segments_ w; gl_vertices_ := gl_vertices_ w;
     gl_edges_ := gl_edges_ w; gl_ := gl_ w |}.

Definition with_projection (m : list G) (w : widget) : widget :=
  {| shift_ := shift_ w; point_data_ := point_data_ w;
     segment_data_ := segment_data_ w; brect_ := brect_ w; vd_ := vd_ w;
     vd_colors_ := vd_colors_ w; brect_initialized_ := brect_initialized_ w;
     primary_edges_only_ := primary_edges_only_ w;
     internal_edges_only_ := internal_edges_only_ w;
     projection_matrix_ := m; gl_points_ := gl_points_ w;
     gl_segments_ := gl_segments_ w; gl_vertices_ := gl_vertices_ w;
     gl_edges_ := gl_edges_ w; gl_ := gl_ w |}.

Definition with_buffers (ps : list VBO) (sg : VBO) (vs es : list VBO)
    (ctx : gl_context) (w : widget) : widget :=
  {| shift_ := shift_ w; point_data_ := point_data_ w;
     segment_data_ := segment_data_ w; brect_ := brect_ w; vd_ := vd_ w;
     vd_colors_ := vd_colors_ w; brect_initialized_ := brect_initialized_ w;
     primary_edges_only_ := primary_edges_only_ w;
     internal_edges_only_ := internal_edges_only_ w;
     projection_matrix_ := projection_matrix_ w; gl_points_ := ps;
     gl_segments_ := sg; gl_vertices_ := vs; gl_edges_ := es; gl_ := ctx |}.

(** The widget as its constructor leaves it (lines 57-63, 577-581): the
    filters off, no buffers, a zero projection matrix.  The members the
    constructor does not initialize are given as parameters. *)
Definition new_widget (s : point_type T) (r : rect_type T) (b : bool) : widget :=
  {| shift_ := s; point_data_ := []; segment_data_ := []; brect_ := r;
     vd_ := empty_diagram; vd_colors_ := fresh_colors (@empty_diagram T);
     brect_initialized_ := b;
     primary_edges_only_ := false; internal_edges_only_ := false;
     projection_matrix_ := replicate 16 (gl_of_int 0);
     gl_points_ := []; gl_segments_ := {| id_ := 0; vertex_count_ := 0 |};
     gl_vertices_ := []; gl_edges_ := [];
     gl_ := {| gl_next_name := 1; gl_buffer_data := ∅ |} |}.

(** [show_primary_edges_only], [show_internal_edges_only] (lines 102-108) *)
Definition show_primary_edges_only (w : widget) : widget :=
  {| shift_ := shift_ w; point_data_ := point_data_ w;
     segment_data_ := segment_data_ w; brect_ := brect_ w; vd_ := vd_ w;
     vd_colors_ := vd_colors_ w; brect_initialized_ := brect_initialized_ w;
     primary_edges_only_ := xorb (primary_edges_only_ w) true;
     internal_edges_only_ := internal_edges_only_ w;
     projection_matrix_ := projection_matrix_ w; gl_points_ := gl_points_ w;
     gl_segments_ := gl_segments_ w; gl_vertices_ := gl_vertices_ w;
     gl_edges_ := gl_edges_ w; gl_ := gl_ w |}.

Definition show_internal_edges_only (w : widget) : widget :=
  {| shift_ := shift_ w; point_data_ := point_data_ w;
     segment_data_ := segment_data_ w; brect_ := brect_ w; vd_ := vd_ w;
     vd_colors_ := vd_colors_ w; brect_initialized_ := brect_initialized_ w;
     primary_edges_only_ := primary_edges_only_ w;
     internal_edges_only_ := xorb (internal_edges_only_ w) true;
     projection_matrix_ := projection_matrix_ w; gl_points_ := gl_points_ w;
     gl_segments_ := gl_segments_ w; gl_vertices_ := gl_vertices_ w;
     gl_edges_ := gl_edges_ w; gl_ := gl_ w |}.

(** ** [clear] (lines 192-202, 315-325) *)

Definition clear_vbo (vbo : VBO) (ctx : gl_context) : VBO * gl_context :=
  ({| id_ := 0; vertex_count_ := vertex_count_ vbo |}, glDeleteBuffers (id_ vbo) ctx).

Definition clear_vbo_array (vbos : list VBO) (ctx : gl_context) : list VBO * gl_context :=
  ([], foldl (fun c vbo => snd (clear_vbo vbo c)) ctx vbos).

Definition clear (w : widget) : widget :=
  let '(ps, ctx) := clear_vbo_array (gl_points_ w) (gl_ w) in
  let '(sg, ctx) := clear_vbo (gl_segments_ w) ctx in
  let '(vs, ctx) := clear_vbo_array (gl_vertices_ w) ctx in
  let '(es, ctx) := clear_vbo_array (gl_edges_ w) ctx in
  with_buffers ps sg vs es ctx
    (with_diagram empty_diagram (fresh_colors (@empty_diagram T))
       (with_sites [] [] (with_region (brect_ w) false w))).

(** ** Reading the sites (lines 204-240) *)

(** What the text stream yields: the point sites and the segment sites, as
    the [int]s read. *)
Record site_file : Type := {
  file_points : list (Z * Z);
  file_segments : list (Z * Z * Z * Z)
}.

Definition update_brect (point : point_type T) (w : widget) : widget :=
  if brect_initialized_ w
  then with_region (encompass (brect_ w) point) (brect_initialized_ w) w
  else with_region (set_points point point) true w.

Definition read_point (w : widget) (xy : Z * Z) : widget :=
  let p := {| px := of_int (fst xy); py := of_int (snd xy) |} in
  let w := update_brect p w in
  with_sites (point_data_ w ++ [p]) (segment_data_ w) w.

Definition read_segment (w : widget) (s : Z * Z * Z * Z) : widget :=
  let '(x1, y1, x2, y2) := s in
  let lp := {| px := of_int x1; py := of_int y1 |} in
  let hp := {| px := of_int x2; py := of_int y2 |} in
  let w := update_brect lp w in
  let w := update_brect hp w in
  with_sites (point_data_ w) (segment_data_ w ++ [{| low := lp; high := hp |}]) w.

Definition read_data (f : site_file) (w : widget) : widget :=
  let w := foldl read_point w (file_points f) in
  foldl read_segment w (file_segments f).

(** ** [construct_brect] (lines 242-247) *)

Definition construct_brect (w : widget) : widget :=
  let side := cmax (xh (brect_ w) - xl (brect_ w)) (yh (brect_ w) - yl (brect_ w)) in
  let shift := center (brect_ w) in
  let w := with_shift shift w in
  let w := with_region (set_points shift shift) (brect_initialized_ w) w in
  with_region (bloat (brect_ w) (side * lit_1_2)) (brect_initialized_ w) w.

(** ** [color_exterior] (lines 249-265) *)

(** [fuel] bounds the depth of the recursion and the length of the
    [do ... while] loop around a vertex. *)
Fixpoint color_exterior (fuel : nat) (d : diagram T) (c : colors) (edge : nat)
    {struct fuel} : outcome colors :=
  match fuel with
  | O => Timeout
  | S fuel' =>
    ed ← deref (edges d) edge;
    if (get_edge_color c edge =? EXTERNAL_COLOR)%nat then Done c else
    let c := set_edge_color edge EXTERNAL_COLOR c in
    _ ← deref (edges d) (twin ed);
    let c := set_edge_color (twin ed) EXTERNAL_COLOR c in
    match vertex1 ed with
    | None => Done c
    | Some v =>
      if negb (is_primary ed) then Done c else
      vd ← deref (vertices d) v;
      let c := set_vertex_color v EXTERNAL_COLOR c in
      color_around fuel' d (incident_edge vd) c (incident_edge vd)
    end
  end
with color_around (fuel : nat) (d : diagram T) (first : nat) (c : colors) (e : nat)
    {struct fuel} : outcome colors :=
  match fuel with
  | O => Timeout
  | S fuel' =>
    c ← color_exterior fuel' d c e;
    ed ← deref (edges d) e;
    let e := rot_next ed in
    if (e =? first)%nat then Done c else color_around fuel' d first c e
  end.

(** The loop of [build] over the edges (lines 91-96). *)
Definition color_step (fuel : nat) (d : diagram T)
    : colors -> nat -> edge_type -> outcome colors :=
  fun c i it => if negb (is_finite it) then color_exterior fuel d c i else Done c.

Definition color_unbounded (fuel : nat) (d : diagram T) (c : colors) : outcome colors :=
  for_each (color_step fuel d) 0 (edges d) c.

(** ** [update_view_port] (lines 267-279) *)

Definition update_view_port (w : widget) : widget :=
  let view_rect := deconvolve_rect (brect_ w) (shift_ w) in
  let width := narrow (xh view_rect - xl view_rect) in
  let height := narrow (yh view_rect - yl view_rect) in
  let m := projection_matrix_ w in
  let m := <[0 := gl_div (gl_of_int 2) width]> m in
  let m := <[5 := gl_div (gl_of_int 2) height]> m in
  let m := <[10 := gl_of_int (-1)]> m in
  let m := <[15 := gl_of_int 1]> m in
  let m := <[12 := narrow (- (xl view_rect + xh view_rect) / widen width)]> m in
  let m := <[13 := narrow (- (yl view_rect + yh view_rect) / widen height)]> m in
  let m := <[14 := gl_of_int 0]> m in
  with_projection m w.

(** ** [build] (lines 69-100) *)

(** The diagram builder of Boost.Polygon is an external collaborator: it is a
    parameter of [build]. *)
Variable construct_voronoi :
  list (point_type T) -> list (segment_type T) -> diagram T.

Definition build (fuel : nat) (f : site_file) (w : widget) : outcome widget :=
  let w := clear w in
  let w := read_data f w in
  if negb (brect_initialized_ w) then Done w else
  let w := construct_brect w in
  let d := construct_voronoi (point_data_ w) (segment_data_ w) in
  let w := with_diagram d (fresh_colors d) w in
  c ← color_unbounded fuel (vd_ w) (vd_colors_ w);
  let w := with_diagram (vd_ w) c w in
  Done (update_view_port w).

(** ** [retrieve_point], [retrieve_segment] (lines 548-565) *)

Definition retrieve_point (w : widget) (cl : cell_type) : outcome (point_type T) :=
  let index := source_index cl in
  let category := cell_category cl in
  if bool_decide (category = SOURCE_CATEGORY_SINGLE_POINT)
  then at_index (point_data_ w) index
  else
    let index := size_t_sub index (N.of_nat (length (point_data_ w))) in
    if bool_decide (category = SOURCE_CATEGORY_SEGMENT_START_POINT)
    then s ← at_index (segment_data_ w) index; Done (low s)
    else s ← at_index (segment_data_ w) index; Done (high s).

Definition retrieve_segment (w : widget) (cl : cell_type) : outcome (segment_type T) :=
  let index := size_t_sub (source_index cl) (N.of_nat (length (point_data_ w))) in
  at_index (segment_data_ w) index.

(** ** [clip_infinite_edge] (lines 483-532) *)

(** Lines 485-512: the origin and the direction of the ray. *)
Definition clip_origin_direction (w : widget) (edge : edge_type)
    : outcome (point_type T * point_type T) :=
  cell1 ← deref (cells (vd_ w)) (cell edge);
  tw ← deref (edges (vd_ w)) (twin edge);
  cell2 ← deref (cells (vd_ w)) (cell tw);
  if contains_point cell1 && contains_point cell2 then
    p1 ← retrieve_point w cell1;
    p2 ← retrieve_point w cell2;
    Done ({| px := (px p1 + px p2) * lit_0_5; py := (py p1 + py p2) * lit_0_5 |},
          {| px := py p1 - py p2; py := px p2 - px p1 |})
  else
    origin ← (if contains_segment cell1
              then retrieve_point w cell2 else retrieve_point w cell1);
    segment ← (if contains_segment cell1
               then retrieve_segment w cell1 else retrieve_segment w cell2);
    let dx := px (high segment) - px (low segment) in
    let dy := py (high segment) - py (low segment) in
    if xorb (point_eqb (low segment) origin) (contains_point cell1)
    then Done (origin, {| px := dy; py := - dx |})
    else Done (origin, {| px := - dy; py := dx |}).

(** Lines 513-531: the scale and the two points pushed to [clipped_edge]. *)
Definition clip_infinite_edge (w : widget) (edge : edge_type)
    (clipped_edge : list (point_type T)) : outcome (list (point_type T)) :=
  od ← clip_origin_direction w edge;
  let origin := fst od in
  let direction := snd od in
  let side := xh (brect_ w) - xl (brect_ w) in
  let koef := side / cmax (fabs (px direction)) (fabs (py direction)) in
  clipped_edge ←
    match vertex0 edge with
    | None =>
      Done (clipped_edge ++ [{| px := px origin - px direction * koef;
                                py := py origin - py direction * koef |}])
    | Some v0 =>
      v ← deref (vertices (vd_ w)) v0;
      Done (clipped_edge ++ [{| px := vx v; py := vy v |}])
    end;
  match vertex1 edge with
  | None =>
    Done (clipped_edge ++ [{| px := px origin + px direction * koef;
                              py := py origin + py direction * koef |}])
  | Some v1 =>
    v ← deref (vertices (vd_ w)) v1;
    Done (clipped_edge ++ [{| px := vx v; py := vy v |}])
  end.

(** ** [sample_curved_edge] (lines 534-546) *)

(** [voronoi_visual_utils<coordinate_type>::discretize] is not under src/: the
    sampler is a parameter, called with the focus, the directrix, the
    tolerance and the samples so far. *)
Variable discretize :
  point_type T -> segment_type T -> T -> list (point_type T) -> list (point_type T).

Definition sample_curved_edge (w : widget) (edge : edge_type)
    (sampled_edge : list (point_type T)) : outcome (list (point_type T)) :=
  let max_dist := lit_1E_3 * (xh (brect_ w) - xl (brect_ w)) in
  cell1 ← deref (cells (vd_ w)) (cell edge);
  tw ← deref (edges (vd_ w)) (twin edge);
  cell2 ← deref (cells (vd_ w)) (cell tw);
  point ← (if contains_point cell1
           then retrieve_point w cell1 else retrieve_point w cell2);
  segment ← (if contains_point cell1
             then retrieve_segment w cell2 else retrieve_segment w cell1);
  Done (discretize point segment max_dist sampled_edge).

(** ** The render-buffer builders (lines 294-313, 327-465) *)

(** The rim of the disk of [point_vbo] (lines 295-300, 304-307): 21 points
    computed in [float] from [std::sin], [std::cos], the radius in pixels,
    the region and the size of the window.  It is a parameter. *)
Variable boundary_rim : rect_type T -> point_type T -> Q -> list GLPoint.

Definition point_vbo (w : widget) (point : point_type T) (radius_px : Q)
    (ctx : gl_context) : VBO * gl_context :=
  let boundary :=
    {| x_ := narrow (px point); y_ := narrow (py point) |}
      :: boundary_rim (brect_ w) point radius_px in
  let '(buffer_id, ctx) := glGenBuffers ctx in
  let ctx := glBufferData buffer_id boundary ctx in
  ({| id_ := buffer_id; vertex_count_ := length boundary |}, ctx).

Definition push_point_vbo (w : widget) (radius_px : Q)
    (acc : list VBO * gl_context) (point : point_type T) : list VBO * gl_context :=
  let '(vbo, ctx) := point_vbo w point radius_px (snd acc) in
  (fst acc ++ [vbo], ctx).

(** Lines 327-346. *)
Definition prepare_points (w : widget) : widget :=
  let radius := (4.5)%Q in
  if negb (bool_decide (gl_points_ w = [])) then w else
  let acc :=
    foldl (fun acc point =>
             let point := deconvolve point (shift_ w) in
             push_point_vbo w radius acc point)
          (gl_points_ w, gl_ w) (point_data_ w) in
  let acc :=
    foldl (fun acc s =>
             let lp := low s in
             let lp := deconvolve lp (shift_ w) in
             let acc := push_point_vbo w radius acc lp in
             let hp := high s in
             let hp := deconvolve hp (shift_ w) in
             push_point_vbo w radius acc hp)
          acc (segment_data_ w) in
  with_buffers (fst acc) (gl_segments_ w) (gl_vertices_ w) (gl_edges_ w) (snd acc) w.

(** Lines 364-382. *)
Definition prepare_segments (w : widget) : widget :=
  if negb (id_ (gl_segments_ w) =? 0)%nat then w else
  let segment_points :=
    foldl (fun acc s =>
             let lp := low s in
             let lp := deconvolve lp (shift_ w) in
             let acc := acc ++ [{| x_ := narrow (px lp); y_ := narrow (py lp) |}] in
             let hp := high s in
             let hp := deconvolve hp (shift_ w) in
             acc ++ [{| x_ := narrow (px hp); y_ := narrow (py hp) |}])
          [] (segment_data_ w) in
  let '(id, ctx) := glGenBuffers (gl_ w) in
  let ctx := glBufferData id segment_points ctx in
  with_buffers (gl_points_ w)
    {| id_ := id; vertex_count_ := length segment_points |}
    (gl_vertices_ w) (gl_edges_ w) ctx w.

(** Lines 398-412. *)
Definition prepare_vertices (w : widget) : widget :=
  let radius := 3%Q in
  if negb (bool_decide (gl_vertices_ w = [])) then w else
  let acc :=
    for_each_pure
      (fun acc i it =>
         if internal_edges_only_ w
            && (get_vertex_color (vd_colors_ w) i =? EXTERNAL_COLOR)%nat
         then acc
         else
           let vertex := {| px := vx it; py := vy it |} in
           let vertex := deconvolve vertex (shift_ w) in
           push_point_vbo w radius acc vertex)
      0 (vertices (vd_ w)) (gl_vertices_ w, gl_ w) in
  with_buffers (gl_points_ w) (gl_segments_ w) (fst acc) (gl_edges_ w) (snd acc) w.

(** Lines 441-452: the samples of one edge. *)
Definition edge_samples (w : widget) (it : edge_type) : outcome (list (point_type T)) :=
  let samples := [] in
  if negb (is_finite it) then clip_infinite_edge w it samples
  else
    v0 ← from_option (deref (vertices (vd_ w))) Crash (vertex0 it);
    let vertex0 := {| px := vx v0; py := vy v0 |} in
    let samples := samples ++ [vertex0] in
    v1 ← from_option (deref (vertices (vd_ w))) Crash (vertex1 it);
    let vertex1 := {| px := vx v1; py := vy v1 |} in
    let samples := samples ++ [vertex1] in
    if is_curved it then sample_curved_edge w it samples else Done samples.

(** Lines 453-458: the samples as they are handed to [glBufferData].  The
    loop runs over references into [samples]; [deconvolve] translates
    [sample] in place, [vertex] is a copy of the result that is not used, and
    line 457 reads the translated [sample]. *)
Definition gl_samples_of (w : widget) (samples : list (point_type T)) : list GLPoint :=
  foldl (fun gl_samples sample =>
           let sample := deconvolve sample (shift_ w) in
           let vertex := sample in
           gl_samples ++ [{| x_ := narrow (px sample); y_ := narrow (py sample) |}])
        [] samples.

(** Lines 435-463: the body of the loop of [prepare_edges]. *)
Definition prepare_edge (w : widget) (acc : list VBO * gl_context)
    (i : nat) (it : edge_type) : outcome (list VBO * gl_context) :=
  if primary_edges_only_ w && negb (is_primary it) then Done acc else
  if internal_edges_only_ w
     && (get_edge_color (vd_colors_ w) i =? EXTERNAL_COLOR)%nat then Done acc else
  samples ← edge_samples w it;
  let gl_samples := gl_samples_of w samples in
  let '(vbo_id, ctx) := glGenBuffers (snd acc) in
  let ctx := glBufferData vbo_id gl_samples ctx in
  Done (fst acc ++ [{| id_ := vbo_id; vertex_count_ := length gl_samples |}], ctx).

(** Lines 429-465. *)
Definition prepare_edges (w : widget) : outcome widget :=
  if negb (bool_decide (gl_edges_ w = [])) then Done w else
  acc ← for_each (prepare_edge w) 0 (edges (vd_ w)) (gl_edges_ w, gl_ w);
  Done (with_buffers (gl_points_ w) (gl_segments_ w) (gl_vertices_ w)
          (fst acc) (snd acc) w).

End Widget.

Arguments widget T G : clear implicits.
Arguments GLPoint G : clear implicits.
Arguments gl_context G : clear implicits.

(** ** The two instances of the arithmetic *)

(** *** IEEE binary64: [double] as the program has it *)

Definition float_of_int (z : Z) : float :=
  if (z <? 0)%Z
  then PrimFloat.opp (PrimFloat.of_uint63 (Uint63.of_Z (- z)))
  else PrimFloat.of_uint63 (Uint63.of_Z z).

Instance float_coordinate : Coordinate float := {|
  of_int := float_of_int;
  lit_0_5 := 0x1p-1%float;
  lit_1_2 := 0x1.3333333333333p+0%float;       (* the binary64 nearest to 1.2 *)
  lit_1E_3 := 0x1.0624dd2f1a9fcp-10%float;     (* the binary64 nearest to 1E-3 *)
  cadd := PrimFloat.add;
  csub := PrimFloat.sub;
  cmul := PrimFloat.mul;
  cdiv := PrimFloat.div;
  copp := PrimFloat.opp;
  fabs := PrimFloat.abs;
  cltb := PrimFloat.ltb;
  ceqb := PrimFloat.eqb
|}.

(** [float] is IEEE binary32: precision 24, maximal exponent 128. *)
Definition binary32_of_double (x : float) : spec_float :=
  match Prim2SF x with
  | S754_finite s m e => binary_round 24 128 s m e
  | sf => sf
  end.

Instance float_glfloat : GLFloat float spec_float := {|
  narrow := binary32_of_double;
  widen := SF2Prim;
  gl_of_int := fun z => binary_normalize 24 128 z 0 false;
  gl_div := SFdiv 24 128
|}.

(** *** The rationals: the same formulas without rounding *)

Definition Qltb (a b : Q) : bool :=
  match Qcompare a b with
  | Lt => true
  | _ => false
  end.

Instance Q_coordinate : Coordinate Q := {|
  of_int := inject_Z;
  lit_0_5 := (1 # 2)%Q;
  lit_1_2 := (6 # 5)%Q;
  lit_1E_3 := (1 # 1000)%Q;
  cadd := Qplus;
  csub := Qminus;
  cmul := Qmult;
  cdiv := Qdiv;
  copp := Qopp;
  fabs := Qabs;
  cltb := Qltb;
  ceqb := Qeq_bool
|}.

Instance Q_glfloat : GLFloat Q Q := {|
  narrow := fun x => x;
  widen := fun x => x;
  gl_of_int := inject_Z;
  gl_div := Qdiv
|}.

(** ** The adjacency invariants of a diagram *)

Section Adjacency.
Context {T : Type}.

(** Every pointer of the edge points into the arena. *)
Definition edge_in_range (d : diagram T) (e : edge_type) : bool :=
  (twin e <? length (edges d)) && (rot_next e <? length (edges d))
  && from_option (fun v => v <? length (vertices d)) true (vertex1 e).

(** [edge.twin().twin() == edge] *)
Definition twin_paired (d : diagram T) (i : nat) : bool :=
  from_option
    (fun e => from_option (fun t => twin t =? i) false (edges d !! twin e))
    false (edges d !! i).

(** [e->rot_next()] on indices. *)
Definition rot_step (d : diagram T) (e : nat) : nat :=
  from_option rot_next e (edges d !! e).

(** The rotational list of the vertex is closed: following [rot_next] from
    its incident edge leads back to it. *)
Definition rot_closed (d : diagram T) (v : vertex_type T) : bool :=
  (incident_edge v <? length (edges d))
  && existsb (fun k => Nat.iter k (rot_step d) (incident_edge v) =? incident_edge v)
             (seq 1 (length (edges d))).

Definition adjacency_ok (d : diagram T) : bool :=
  forallb (edge_in_range d) (edges d)
  && forallb (twin_paired d) (seq 0 (length (edges d)))
  && forallb (rot_closed d) (vertices d).

(** The color table has an entry for every edge and every vertex. *)
Definition colors_fit (d : diagram T) (c : colors) : Prop :=
  length (edge_color c) = length (edges d)
  /\ length (vertex_color c) = length (vertices d).

(** The number of edges not colored [EXTERNAL_COLOR]. *)
Definition uncolored (c : colors) : nat :=
  length (filter (fun x => x ≠ EXTERNAL_COLOR) (edge_color c)).

(** Every edge carries the color of its twin. *)
Definition twins_agree (d : diagram T) (c : colors) : Prop :=
  forall i e, edges d !! i = Some e ->
    get_edge_color c i = get_edge_color c (twin e).

(** No color tag reverts: what is [EXTERNAL_COLOR] in [c] is so in [c']. *)
Definition colors_grow (c c' : colors) : Prop :=
  forall i, get_edge_color c i = EXTERNAL_COLOR -> get_edge_color c' i = EXTERNAL_COLOR.

(** Every call of [color_exterior] on a table with at most [m] edges left
    to color returns, and leaves no more of them. *)
Definition terminates_below (d : diagram T) (m : nat) : Prop :=
  forall c e, colors_fit d c -> e < length (edges d) -> uncolored c <= m ->
    exists fuel c', color_exterior fuel d c e = Done c'
      /\ colors_fit d c' /\ uncolored c' <= uncolored c.

End Adjacency.

(** ** Regions and sites *)

Section Regions.
Context {T G : Type} `{Coordinate T} `{GLFloat T G}.
Local Open Scope coord_scope.

(** Every coordinate pair read: the point sites, then the two ends of every
    segment site. *)
Definition site_points (w : widget T G) : list (point_type T) :=
  point_data_ w ++ flat_map (fun s => [low s; high s]) (segment_data_ w).

Definition inside (r : rect_type T) (p : point_type T) : bool :=
  negb (px p <? xl r) && negb (xh r <? px p)
  && negb (py p <? yl r) && negb (yh r <? py p).

Definition strictly_inside (r : rect_type T) (p : point_type T) : bool :=
  (xl r <? px p) && (px p <? xh r) && (yl r <? py p) && (py p <? yh r).

Definition strictly_outside (r : rect_type T) (p : point_type T) : bool :=
  (px p <? xl r) || (xh r <? px p) || (py p <? yl r) || (yh r <? py p).

Definition is_square (r : rect_type T) : bool :=
  (xh r - xl r) =? (yh r - yl r).

(** What [clip_infinite_edge] pushes for one end of an edge: the coordinates
    of the vertex when there is one, the substitute otherwise. *)
Definition pushed_end (vs : list (vertex_type T)) (end_ : option nat)
    (substitute : point_type T) : point_type T :=
  match end_ with
  | None => substitute
  | Some i => from_option (fun v => {| px := vx v; py := vy v |}) substitute (vs !! i)
  end.

(** The larger of the width and the height (line 243). *)
Definition larger_side (r : rect_type T) : T :=
  cmax (xh r - xl r) (yh r - yl r).

(** The widget after [clear] and [read_data]: its [brect_] is the bounding
    box before [construct_brect] inflates it. *)
Definition ingest (f : site_file) (w : widget T G) : widget T G :=
  read_data f (clear w).

(** The widget after [construct_brect] and with the diagram [d] in place. *)
Definition framed (f : site_file) (d : diagram T) (w : widget T G) : widget T G :=
  let w := construct_brect (ingest f w) in
  with_diagram d (fresh_colors d) w.

(** The statement of the region property as the specification has it:
    square, and every site strictly inside. *)
Definition region_strictly_contains_sites (f : site_file) (w : widget T G) : Prop :=
  brect_initialized_ (ingest f w) = true ->
  let r := brect_ (construct_brect (ingest f w)) in
  is_square r = true
  /\ forall p, p ∈ site_points (ingest f w) -> strictly_inside r p = true.

End Regions.

(** The statement of clipping totality as the specification has it: two
    points, both finite numbers ([fin]), both strictly outside the bounding
    box as it was before [construct_brect]. *)
Definition clipping_totality {T G : Type} `{Coordinate T} `{GLFloat T G}
    (fin : T -> bool) (f : site_file) (d : diagram T) (w : widget T G)
    (e : edge_type) : Prop :=
  is_finite e = false ->
  exists p q,
    clip_infinite_edge (framed f d w) e [] = Done [p; q]
    /\ fin (px p) && fin (py p) && fin (px q) && fin (py q) = true
    /\ strictly_outside (brect_ (ingest f w)) p = true
    /\ strictly_outside (brect_ (ingest f w)) q = true.

(** The statement about the edge buffers as the specification has it: the
    buffer of an edge holds the samples of the edge as they are, not
    translated. *)
Definition edge_buffers_raw {T G : Type} `{Coordinate T} `{GLFloat T G}
    (discretize : point_type T -> segment_type T -> T ->
                  list (point_type T) -> list (point_type T))
    (w : widget T G) : Prop :=
  forall acc i it samples vbo ctx,
    edge_samples discretize w it = Done samples ->
    prepare_edge discretize w acc i it = Done (fst acc ++ [vbo], ctx) ->
    gl_buffer_data ctx !! id_ vbo = Some (map gl_point samples).

(** ** Exact arithmetic: the closed box and the reading invariant *)

(** [p] lies in the closed box [r]. *)
Definition in_box (r : rect_type Q) (p : point_type Q) : Prop :=
  (xl r <= px p /\ px p <= xh r /\ yl r <= py p /\ py p <= yh r)%Q.

(** The invariant of the reading loops: nothing read while the region is
    uninitialized, everything read inside it afterwards. *)
Definition ingest_inv (w : widget Q Q) : Prop :=
  (brect_initialized_ w = false -> site_points w = [])
  /\ (brect_initialized_ w = true ->
      forall p, p ∈ site_points w -> in_box (brect_ w) p).

(** ** Scenarios *)

Section Scenarios.
Context {T G : Type} `{Coordinate T} `{GLFloat T G}.
Local Open Scope coord_scope.

Definition pt (x y : Z) : point_type T := {| px := of_int x; py := of_int y |}.

(** A widget before its first [build]. *)
Definition blank : widget T G :=
  new_widget (pt 0 0)
    {| xl := of_int 0; xh := of_int 0; yl := of_int 0; yh := of_int 0 |} false.

Definition site_cell (i : N) (k : source_category) : cell_type :=
  {| source_index := i; cell_category := k |}.

Definition half_edge (c t : nat) (v0 v1 : option nat) (rn : nat)
    (primary curved : bool) : edge_type :=
  {| cell := c; twin := t; vertex0 := v0; vertex1 := v1; rot_next := rn;
     is_primary := primary; is_curved := curved |}.

(** No site at all. *)
Definition no_site : site_file := {| file_points := []; file_segments := [] |}.

(** One point site [(0,0)]. *)
Definition one_site : site_file :=
  {| file_points := [(0, 0)%Z]; file_segments := [] |}.

(** Two point sites [(0,0)] and [(10,0)]: one edge pair, the bisector
    [x = 5], with both ends absent. *)
Definition two_sites : site_file :=
  {| file_points := [(0, 0)%Z; (10, 0)%Z]; file_segments := [] |}.

Definition two_sites_diagram : diagram T :=
  {| cells := [site_cell 0 SOURCE_CATEGORY_SINGLE_POINT;
               site_cell 1 SOURCE_CATEGORY_SINGLE_POINT];
     vertices := [];
     edges := [half_edge 0 1 None None 1 true false;
               half_edge 1 0 None None 0 true false] |}.

(** Three point sites [(0,0)], [(10,0)], [(0,10)]: one vertex, the
    circumcentre [(5,5)], and three rays.  The cell of a half-edge lies on
    its left; [rot_next] turns around the start of the half-edge. *)
Definition three_sites : site_file :=
  {| file_points := [(0, 0)%Z; (10, 0)%Z; (0, 10)%Z]; file_segments := [] |}.

Definition three_sites_diagram : diagram T :=
  {| cells := [site_cell 0 SOURCE_CATEGORY_SINGLE_POINT;
               site_cell 1 SOURCE_CATEGORY_SINGLE_POINT;
               site_cell 2 SOURCE_CATEGORY_SINGLE_POINT];
     vertices := [{| vx := of_int 5; vy := of_int 5; incident_edge := 1 |}];
     edges := [half_edge 0 1 None (Some 0) 2 true false;   (* up to the vertex *)
               half_edge 1 0 (Some 0) None 5 true false;   (* down, x = 5 *)
               half_edge 2 3 None (Some 0) 4 true false;
               half_edge 0 2 (Some 0) None 1 true false;   (* left, y = 5 *)
               half_edge 1 5 None (Some 0) 0 true false;
               half_edge 2 4 (Some 0) None 3 true false]   (* up and right *)
  |}.

(** One point site [(5,10)] and one segment site [(0,0)-(10,0)]: the arc of
    the parabola between [(0,6.25)] and [(10,6.25)], the two secondary edges
    through the ends of the segment, and the two bisector rays. *)
Definition point_and_segment : site_file :=
  {| file_points := [(5, 10)%Z]; file_segments := [(0, 0, 10, 0)%Z] |}.

Definition point_and_segment_diagram : diagram T :=
  {| cells := [site_cell 1 SOURCE_CATEGORY_SEGMENT_START_POINT;
               site_cell 1 SOURCE_CATEGORY_INITIAL_SEGMENT;
               site_cell 0 SOURCE_CATEGORY_SINGLE_POINT;
               site_cell 1 SOURCE_CATEGORY_SEGMENT_END_POINT];
     vertices := [{| vx := of_int 0; vy := of_int 25 / of_int 4; incident_edge := 0 |};
                  {| vx := of_int 10; vy := of_int 25 / of_int 4; incident_edge := 1 |}];
     edges := [half_edge 2 1 (Some 0) (Some 1) 4 true true;    (* the arc *)
               half_edge 1 0 (Some 1) (Some 0) 6 true true;
               half_edge 1 3 (Some 0) None 0 false false;      (* x = 0, down *)
               half_edge 0 2 None (Some 0) 5 false false;
               half_edge 0 5 (Some 0) None 2 true false;       (* up and left *)
               half_edge 2 4 None (Some 0) 9 true false;
               half_edge 3 7 (Some 1) None 8 false false;      (* x = 10, down *)
               half_edge 1 6 None (Some 1) 3 false false;
               half_edge 2 9 (Some 1) None 1 true false;       (* up and right *)
               half_edge 3 8 None (Some 1) 7 true false]
  |}.

(** A diagram builder that answers [d] whatever the sites. *)
Definition builder_of (d : diagram T)
    : list (point_type T) -> list (segment_type T) -> diagram T :=
  fun _ _ => d.

(** A sampler that adds nothing between the two ends. *)
Definition no_samples
    : point_type T -> segment_type T -> T -> list (point_type T) -> list (point_type T) :=
  fun _ _ _ sampled_edge => sampled_edge.

(** A disk without rim. *)
Definition no_rim : rect_type T -> point_type T -> Q -> list (GLPoint G) :=
  fun _ _ _ => [].

End Scenarios.

(** The Euclidean distance of two points, in binary64. *)
Definition distance (p q : point_type float) : float :=
  PrimFloat.sqrt
    (PrimFloat.add
       (PrimFloat.mul (PrimFloat.sub (px p) (px q)) (PrimFloat.sub (px p) (px q)))
       (PrimFloat.mul (PrimFloat.sub (py p) (py q)) (PrimFloat.sub (py p) (py q)))).

(** * Further definitions *)

Section Reachability.
Context {T : Type}.

(** A budget that is enough for the flood-fill of a whole diagram: every call
    that does not return at once colors one more edge, and a loop around a
    vertex has at most as many turns as there are edges. *)
Definition fuel_bound (d : diagram T) : nat :=
  S (length (edges d) * S (length (edges d))).

(** The edges the flood-fill is meant to reach: the unbounded ones, the twin
    of an edge reached, and every edge of the rotational list of the vertex
    in which a primary edge reached ends. *)
Inductive exterior_reach (d : diagram T) : nat -> Prop :=
  | reach_unbounded i e :
      edges d !! i = Some e -> is_finite e = false -> exterior_reach d i
  | reach_twin i e :
      exterior_reach d i -> edges d !! i = Some e -> exterior_reach d (twin e)
  | reach_around i e v vd k :
      exterior_reach d i -> edges d !! i = Some e ->
      is_primary e = true -> vertex1 e = Some v -> vertices d !! v = Some vd ->
      exterior_reach d (Nat.iter k (rot_step d) (incident_edge vd)).

(** Whatever is colored is accounted for: an edge by [exterior_reach], a
    vertex by a primary edge reached that ends in it. *)
Definition colors_sound (d : diagram T) (c : colors) : Prop :=
  (forall i, get_edge_color c i = EXTERNAL_COLOR -> exterior_reach d i)
  /\ (forall v, get_vertex_color c v = EXTERNAL_COLOR ->
        exists i e, exterior_reach d i /\ edges d !! i = Some e
                    /\ is_primary e = true /\ vertex1 e = Some v).

End Reachability.

Section SitesOfFile.
Context {T G : Type} `{Coordinate T} `{GLFloat T G}.

(** The point [point_type p(x1, y1)] made of a pair read (line 217). *)
Definition site_point (xy : Z * Z) : point_type T := pt (fst xy) (snd xy).

(** The segment made of a quadruple read (lines 224-228). *)
Definition site_segment (s : Z * Z * Z * Z) : segment_type T :=
  let '(x1, y1, x2, y2) := s in {| low := pt x1 y1; high := pt x2 y2 |}.

(** Each side of the rectangle goes through one of the points. *)
Definition sides_attained (r : rect_type T) (l : list (point_type T)) : Prop :=
  (exists p, p ∈ l /\ xl r = px p) /\ (exists p, p ∈ l /\ xh r = px p)
  /\ (exists p, p ∈ l /\ yl r = py p) /\ (exists p, p ∈ l /\ yh r = py p).

(** While reading: nothing read and no region, or a region whose sides go
    through points read. *)
Definition tight_inv (w : widget T G) : Prop :=
  (brect_initialized_ w = false -> site_points w = [])
  /\ (brect_initialized_ w = true -> sides_attained (brect_ w) (site_points w)).

(** Two widgets that have read the same: the same sites, the same flag, and
    the same region once there is one. *)
Definition same_reading (w1 w2 : widget T G) : Prop :=
  point_data_ w1 = point_data_ w2 /\ segment_data_ w1 = segment_data_ w2
  /\ brect_initialized_ w1 = brect_initialized_ w2
  /\ (brect_initialized_ w1 = true -> brect_ w1 = brect_ w2).

End SitesOfFile.

(** ** The vertex shader, in exact arithmetic *)

(** An entry of [projection_matrix_]. *)
Definition entry (m : list Q) (i : nat) : Q := default 0%Q (m !! i).

(** [gl_Position = mvpMatrix * vec4(position, 0.0, 1.0)] (line 40), the
    matrix held column after column, as [glUniformMatrix4fv] takes it when it
    is told not to transpose (line 352). *)
Definition gl_Position (m : list Q) (position : GLPoint Q) : Q * Q * Q * Q :=
  let x := x_ position in
  let y := y_ position in
  (entry m 0 * x + entry m 4 * y + entry m 8 * 0 + entry m 12 * 1,
   entry m 1 * x + entry m 5 * y + entry m 9 * 0 + entry m 13 * 1,
   entry m 2 * x + entry m 6 * y + entry m 10 * 0 + entry m 14 * 1,
   entry m 3 * x + entry m 7 * y + entry m 11 * 0 + entry m 15 * 1)%Q.

(** The entries [update_view_port] writes, and those it does not. *)
Definition written_entries : list nat := [0; 5; 10; 12; 13; 14; 15].
Definition untouched_entries : list nat := [1; 2; 3; 4; 6; 7; 8; 9; 11].

(** The untouched entries hold zero, as the constructor leaves them. *)
Definition untouched_zero (m : list Q) : Prop :=
  length m = 16 /\ Forall (fun i => (entry m i == 0)%Q) untouched_entries.

(** ** Painting *)

Section Painting.
Context {T G : Type} `{Coordinate T} `{GLFloat T G}.

Variable discretize :
  point_type T -> segment_type T -> T -> list (point_type T) -> list (point_type T).
Variable boundary_rim : rect_type T -> point_type T -> Q -> list (GLPoint G).

(** [paintGL] (lines 154-161), as far as the widget and the buffer store go:
    [draw_points], [draw_segments], [draw_vertices] and [draw_edges] each
    prepare their buffers first (lines 350, 385, 415, 468).  Clearing the
    frame and the draw calls themselves change neither and are left out. *)
Definition paintGL (w : widget T G) : outcome (widget T G) :=
  let w := prepare_points boundary_rim w in
  let w := prepare_segments w in
  let w := prepare_vertices boundary_rim w in
  prepare_edges discretize w.

(** The buffer objects the widget holds on to. *)
Definition cached (w : widget T G) : list VBO :=
  gl_points_ w
  ++ (if (id_ (gl_segments_ w) =? 0)%nat then [] else [gl_segments_ w])
  ++ gl_vertices_ w ++ gl_edges_ w.

(** The buffer object exists and holds as many positions as
    [glDrawArrays(mode, 0, vertex_count_)] will read. *)
Definition vbo_ok (ctx : gl_context G) (vbo : VBO) : Prop :=
  id_ vbo < gl_next_name ctx
  /\ exists data, gl_buffer_data ctx !! id_ vbo = Some data
                  /\ length data = vertex_count_ vbo.

Definition buffers_ok (w : widget T G) : Prop :=
  0 < gl_next_name (gl_ w) /\ Forall (vbo_ok (gl_ w)) (cached w).

(** The store [ctx'] has all the buffers of [ctx], unchanged. *)
Definition store_extends (ctx ctx' : gl_context G) : Prop :=
  gl_next_name ctx <= gl_next_name ctx'
  /\ forall id, id < gl_next_name ctx ->
       gl_buffer_data ctx' !! id = gl_buffer_data ctx !! id.

(** The edge passes the two filters of [prepare_edges] (lines 435-440). *)
Definition edge_shown (w : widget T G) (i : nat) (it : edge_type) : bool :=
  negb (primary_edges_only_ w && negb (is_primary it))
  && negb (internal_edges_only_ w
           && (get_edge_color (vd_colors_ w) i =? EXTERNAL_COLOR)%nat).

(** The vertex passes the filter of [prepare_vertices] (line 405). *)
Definition vertex_shown (w : widget T G) (i : nat) : bool :=
  negb (internal_edges_only_ w
        && (get_vertex_color (vd_colors_ w) i =? EXTERNAL_COLOR)%nat).

(** Nothing is left for the four [prepare_*] to do: each cache is filled, or
    there is nothing that would go into it. *)
Definition settled (w : widget T G) : Prop :=
  (gl_points_ w <> [] \/ (point_data_ w = [] /\ segment_data_ w = []))
  /\ id_ (gl_segments_ w) <> 0
  /\ (gl_vertices_ w <> []
      \/ forall i v, vertices (vd_ w) !! i = Some v -> vertex_shown w i = false)
  /\ (gl_edges_ w <> []
      \/ forall i it, edges (vd_ w) !! i = Some it -> edge_shown w i it = false).

(** [w'] differs from [w] in its buffer caches and in the buffer store only. *)
Definition same_scene (w w' : widget T G) : Prop :=
  w' = with_buffers (gl_points_ w') (gl_segments_ w') (gl_vertices_ w')
         (gl_edges_ w') (gl_ w') w.

(** The cell names a site of the widget: a single point by its position among
    the points, a segment or one of its ends by the number of points plus its
    position among the segments. *)
Definition site_ok (w : widget T G) (cl : cell_type) : bool :=
  let np := N.of_nat (length (point_data_ w)) in
  let ns := N.of_nat (length (segment_data_ w)) in
  if bool_decide (cell_category cl = SOURCE_CATEGORY_SINGLE_POINT)
  then (source_index cl <? np)%N
  else (np <=? source_index cl)%N && (source_index cl <? np + ns)%N.

(** What [prepare_edges] relies on for one half-edge: its cell, its twin, the
    twin's cell and its vertices exist, both cells name sites, and an arc that
    is asked for the segment of its twin's cell does not find a single point
    there. *)
Definition paintable_edge (w : widget T G) (e : edge_type) : bool :=
  match cells (vd_ w) !! cell e, edges (vd_ w) !! twin e with
  | Some c1, Some tw =>
    match cells (vd_ w) !! cell tw with
    | Some c2 =>
      site_ok w c1 && site_ok w c2
      && from_option (fun v => v <? length (vertices (vd_ w))) true (vertex0 e)
      && from_option (fun v => v <? length (vertices (vd_ w))) true (vertex1 e)
      && (negb (is_finite e && is_curved e && contains_point c1)
          || negb (bool_decide (cell_category c2 = SOURCE_CATEGORY_SINGLE_POINT)))
    | None => false
    end
  | _, _ => false
  end.

End Painting.

(** ** Geometry in exact arithmetic *)

(** The square of the distance of two points. *)
Definition sq_dist (p q : point_type Q) : Q :=
  ((px p - px q) * (px p - px q) + (py p - py q) * (py p - py q))%Q.

(** The same point, the coordinates compared as rationals. *)
Definition point_equiv (p q : point_type Q) : Prop :=
  (px p == px q)%Q /\ (py p == py q)%Q.

(** The scalar product of the vectors [p - o] and [b - a]. *)
Definition dot_along (o p a b : point_type Q) : Q :=
  ((px p - px o) * (px b - px a) + (py p - py o) * (py b - py a))%Q.

(** ** [resizeGL] (lines 163-166) *)

(** [qMin] of Qt: [(a < b) ? a : b]. *)
Definition qMin (a b : Z) : Z := if (a <? b)%Z then a else b.

(** A value of an [int] of 32 bits, wrapped around. *)
Definition int_wrap (z : Z) : Z := ((z + 2 ^ 31) mod 2 ^ 32 - 2 ^ 31)%Z.

(** The four arguments of [glViewport]; the division of [int] truncates. *)
Definition resizeGL (width height : Z) : Z * Z * Z * Z :=
  let side := qMin width height in
  (Z.quot (int_wrap (width - side)) 2, Z.quot (int_wrap (height - side)) 2, side, side).

(** * Properties *)

(** ** Dereferencing *)

Lemma deref_Done {A} (l : list A) i a : deref l i = Done a <-> l !! i = Some a.
Proof. unfold deref. destruct (l !! i); split; intros E; congruence. Qed.

Section Generic.
Context {T G : Type} `{Coordinate T} `{GLFloat T G}.
Local Open Scope coord_scope.
Implicit Types (w : widget T G).

(** *** Clipping *)

Lemma push_end (vs : list (vertex_type T)) (end_ : option nat)
    (substitute : point_type T) (out : list (point_type T)) :
  (forall i, end_ = Some i -> i < length vs)%nat ->
  match end_ with
  | None => Done (out ++ [substitute])
  | Some i => v ← deref vs i; Done (out ++ [{| px := vx v; py := vy v |}])
  end = Done (out ++ [pushed_end vs end_ substitute]).
Proof.
  intros Hin. destruct end_ as [i|]; simpl; [|done].
  destruct (lookup_lt_is_Some_2 _ _ (Hin i eq_refl)) as [v Hv].
  rewrite (proj2 (deref_Done _ _ _) Hv), Hv. reflexivity.
Qed.

Lemma clip_infinite_edge_pushes w e out o dir :
  clip_origin_direction w e = Done (o, dir) ->
  (forall v, vertex0 e = Some v \/ vertex1 e = Some v ->
     v < length (vertices (vd_ w)))%nat ->
  let koef := (xh (brect_ w) - xl (brect_ w)) / cmax (fabs (px dir)) (fabs (py dir)) in
  clip_infinite_edge w e out
  = Done (out ++ [pushed_end (vertices (vd_ w)) (vertex0 e)
                    {| px := px o - px dir * koef; py := py o - py dir * koef |};
                  pushed_end (vertices (vd_ w)) (vertex1 e)
                    {| px := px o + px dir * koef; py := py o + py dir * koef |}]).
Proof.
  intros Hod Hv koef. unfold clip_infinite_edge. rewrite Hod. simpl.
  rewrite push_end by (intros i E; apply Hv; by left). simpl.
  rewrite push_end by (intros i E; apply Hv; by right).
  by rewrite <- app_assoc.
Qed.

(** C5.  With [origin] and [direction] as lines 485-512 compute them,
    [clip_infinite_edge] appends exactly two points: with
    [koef = side / max(|direction.x|, |direction.y|)], [side] the width of
    [brect_], the first is [origin - direction * koef] when [vertex0] is
    absent and the coordinates of [vertex0] otherwise, the second is
    [origin + direction * koef] when [vertex1] is absent and the coordinates
    of [vertex1] otherwise. *)
Theorem clip_infinite_edge_formula w e out o dir :
  clip_origin_direction w e = Done (o, dir) ->
  (forall v, vertex0 e = Some v \/ vertex1 e = Some v ->
     v < length (vertices (vd_ w)))%nat ->
  let side := xh (brect_ w) - xl (brect_ w) in
  let koef := side / cmax (fabs (px dir)) (fabs (py dir)) in
  exists p q,
    clip_infinite_edge w e out = Done (out ++ [p; q])
    /\ (vertex0 e = None ->
        p = {| px := px o - px dir * koef; py := py o - py dir * koef |})
    /\ (forall i v, vertex0 e = Some i -> vertices (vd_ w) !! i = Some v ->
        p = {| px := vx v; py := vy v |})
    /\ (vertex1 e = None ->
        q = {| px := px o + px dir * koef; py := py o + py dir * koef |})
    /\ (forall i v, vertex1 e = Some i -> vertices (vd_ w) !! i = Some v ->
        q = {| px := vx v; py := vy v |}).
Proof.
  intros Hod Hv side koef.
  eexists _, _. split; [exact (clip_infinite_edge_pushes w e out o dir Hod Hv)|].
  fold side. fold koef. unfold pushed_end.
  split; [|split; [|split]].
  - by intros ->.
  - intros i v -> Hi. by rewrite Hi.
  - by intros ->.
  - intros i v -> Hi. by rewrite Hi.
Qed.

(** C7.  Whatever the sampler, [sample_curved_edge] calls it with the
    tolerance [1E-3 * (xh(brect_) - xl(brect_))]: a thousandth of the side of
    the region, which [construct_brect] has finalized when the edges are
    sampled. *)
Theorem sample_curved_edge_tolerance
    (discretize : point_type T -> segment_type T -> T ->
                  list (point_type T) -> list (point_type T))
    w e sampled_edge r :
  sample_curved_edge discretize w e sampled_edge = Done r ->
  exists point segment,
    r = discretize point segment
          (lit_1E_3 * (xh (brect_ w) - xl (brect_ w))) sampled_edge.
Proof.
  unfold sample_curved_edge.
  destruct (deref (cells (vd_ w)) (cell e)) as [cell1| |]; simpl; try done.
  destruct (deref (edges (vd_ w)) (twin e)) as [tw| |]; simpl; try done.
  destruct (deref (cells (vd_ w)) (cell tw)) as [cell2| |]; simpl; try done.
  destruct (if contains_point cell1 then retrieve_point w cell1 else _)
    as [point| |]; simpl; try done.
  destruct (if contains_point cell1 then retrieve_segment w cell2 else _)
    as [segment| |]; simpl; try done.
  intros [= <-]. by exists point, segment.
Qed.

(** *** An empty input *)

Lemma update_brect_initialized p w : brect_initialized_ (update_brect p w) = true.
Proof. unfold update_brect. by destruct (brect_initialized_ w) eqn:E. Qed.

Lemma read_point_initialized w xy : brect_initialized_ (read_point w xy) = true.
Proof. unfold read_point. simpl. apply update_brect_initialized. Qed.

Lemma read_segment_initialized w s : brect_initialized_ (read_segment w s) = true.
Proof.
  destruct s as [[[x1 y1] x2] y2]. unfold read_segment. simpl.
  apply update_brect_initialized.
Qed.

Lemma read_points_keep w l :
  brect_initialized_ w = true -> brect_initialized_ (foldl read_point w l) = true.
Proof.
  revert w. induction l as [|xy l IH]; intros w Hw; simpl; [done|].
  apply IH, read_point_initialized.
Qed.

Lemma read_segments_keep w l :
  brect_initialized_ w = true -> brect_initialized_ (foldl read_segment w l) = true.
Proof.
  revert w. induction l as [|s l IH]; intros w Hw; simpl; [done|].
  apply IH, read_segment_initialized.
Qed.

Lemma read_data_nothing f w :
  brect_initialized_ w = false ->
  brect_initialized_ (read_data f w) = false ->
  file_points f = [] /\ file_segments f = [] /\ read_data f w = w.
Proof.
  unfold read_data. intros Hw Hr.
  destruct (file_points f) as [|xy ps]; simpl in *.
  - destruct (file_segments f) as [|s ss]; simpl in *; [done|].
    rewrite read_segments_keep in Hr; [done|]. apply read_segment_initialized.
  - rewrite read_segments_keep in Hr; [done|].
    apply read_points_keep, read_point_initialized.
Qed.

Lemma clear_uninitialized w : brect_initialized_ (clear w) = false.
Proof. unfold clear. by repeat case_match. Qed.


Lemma deleted_stays (ctx : gl_context G) (vbos : list VBO) i :
  gl_buffer_data ctx !! i = None ->
  gl_buffer_data (foldl (fun c vbo => snd (clear_vbo vbo c)) ctx vbos) !! i = None.
Proof.
  revert ctx. induction vbos as [|vbo vbos IH]; intros ctx Hi; simpl; [done|].
  apply IH. simpl. destruct (decide (id_ vbo = i)) as [->|Hne].
  - apply lookup_delete_eq.
  - by rewrite lookup_delete_ne.
Qed.

Lemma deleted_gone (ctx : gl_context G) (vbos : list VBO) vbo :
  vbo ∈ vbos ->
  gl_buffer_data (foldl (fun c vbo => snd (clear_vbo vbo c)) ctx vbos) !! id_ vbo = None.
Proof.
  revert ctx. induction vbos as [|v vbos IH]; intros ctx Hin; simpl.
  - by apply elem_of_nil in Hin.
  - apply elem_of_cons in Hin. destruct Hin as [->|Hin]; [|by apply IH].
    apply deleted_stays. simpl. apply lookup_delete_eq.
Qed.

Lemma clear_deletes w vbo :
  vbo ∈ gl_points_ w ++ [gl_segments_ w] ++ gl_vertices_ w ++ gl_edges_ w ->
  gl_buffer_data (gl_ (clear w)) !! id_ vbo = None.
Proof.
  rewrite !elem_of_app. unfold clear, clear_vbo_array. simpl.
  intros [Hin|[Hin|[Hin|Hin]]].
  - do 2 apply deleted_stays. simpl.
    destruct (decide (id_ (gl_segments_ w) = id_ vbo)) as [->|Hne].
    + apply lookup_delete_eq.
    + rewrite lookup_delete_ne by done. by apply deleted_gone.
  - apply list_elem_of_singleton in Hin. subst vbo.
    do 2 apply deleted_stays. simpl. apply lookup_delete_eq.
  - apply deleted_stays. by apply deleted_gone.
  - by apply deleted_gone.
Qed.

(** C8.  When the region is still uninitialized after [read_data] (no site
    was read), [build] returns the widget as [clear] left it, whatever the
    diagram builder and the fuel: the flag off, no sites, an empty diagram, no
    buffers (those of before deleted), and [brect_], [shift_] and the
    projection matrix untouched. *)
Theorem build_without_sites
    (construct_voronoi : list (point_type T) -> list (segment_type T) -> diagram T)
    (fuel : nat) (f : site_file) w :
  brect_initialized_ (read_data f (clear w)) = false ->
  build construct_voronoi fuel f w = Done (clear w)
  /\ brect_initialized_ (clear w) = false
  /\ point_data_ (clear w) = [] /\ segment_data_ (clear w) = []
  /\ vd_ (clear w) = empty_diagram
  /\ gl_points_ (clear w) = [] /\ id_ (gl_segments_ (clear w)) = 0%nat
  /\ gl_vertices_ (clear w) = [] /\ gl_edges_ (clear w) = []
  /\ (forall vbo,
        vbo ∈ gl_points_ w ++ [gl_segments_ w] ++ gl_vertices_ w ++ gl_edges_ w ->
        gl_buffer_data (gl_ (clear w)) !! id_ vbo = None)
  /\ brect_ (clear w) = brect_ w /\ shift_ (clear w) = shift_ w
  /\ projection_matrix_ (clear w) = projection_matrix_ w.
Proof.
  intros Hno.
  destruct (read_data_nothing f (clear w) (clear_uninitialized w) Hno) as (_ & _ & Hsame).
  split.
  - unfold build. rewrite Hsame, clear_uninitialized. reflexivity.
  - split; [apply clear_uninitialized|].
    repeat (split; [reflexivity|]).
    split; [apply clear_deletes|]. done.
Qed.

(** *** The buffers of the edges and of the other primitives *)

Lemma gl_samples_of_shifted w samples :
  gl_samples_of w samples = map (fun s => gl_point (deconvolve s (shift_ w))) samples.
Proof.
  unfold gl_samples_of.
  enough (forall acc, foldl (fun gl_samples sample =>
             let sample := deconvolve sample (shift_ w) in
             let vertex := sample in
             gl_samples ++ [{| x_ := narrow (px sample); y_ := narrow (py sample) |}])
            acc samples
          = acc ++ map (fun s => gl_point (deconvolve s (shift_ w))) samples)
    as Hgen by apply (Hgen []).
  induction samples as [|s samples IH]; intros acc; simpl.
  - by rewrite app_nil_r.
  - rewrite IH, <- app_assoc. reflexivity.
Qed.

Lemma prepare_edge_uploads discretize w acc i it samples :
  primary_edges_only_ w && negb (is_primary it) = false ->
  internal_edges_only_ w
    && (get_edge_color (vd_colors_ w) i =? EXTERNAL_COLOR)%nat = false ->
  edge_samples discretize w it = Done samples ->
  exists vbo ctx,
    prepare_edge discretize w acc i it = Done (fst acc ++ [vbo], ctx)
    /\ gl_buffer_data ctx !! id_ vbo
       = Some (map (fun s => gl_point (deconvolve s (shift_ w))) samples)
    /\ vertex_count_ vbo = length samples.
Proof.
  intros Hp Hi Hs. unfold prepare_edge. rewrite Hp, Hi, Hs. simpl.
  eexists _, _. split; [reflexivity|]. simpl. split.
  - rewrite lookup_insert_eq. by rewrite gl_samples_of_shifted.
  - by rewrite gl_samples_of_shifted, length_map.
Qed.

Lemma prepare_segments_uploads w :
  id_ (gl_segments_ w) = 0%nat ->
  let w' := prepare_segments w in
  gl_buffer_data (gl_ w') !! id_ (gl_segments_ w')
  = Some (flat_map (fun s => [gl_point (deconvolve (low s) (shift_ w));
                               gl_point (deconvolve (high s) (shift_ w))])
                   (segment_data_ w)).
Proof.
  intros H0'. unfold prepare_segments. rewrite H0'. simpl.
  rewrite lookup_insert_eq. f_equal.
  enough (forall acc, foldl (fun acc s =>
             let lp := low s in
             let lp := deconvolve lp (shift_ w) in
             let acc := acc ++ [{| x_ := narrow (px lp); y_ := narrow (py lp) |}] in
             let hp := high s in
             let hp := deconvolve hp (shift_ w) in
             acc ++ [{| x_ := narrow (px hp); y_ := narrow (py hp) |}])
            acc (segment_data_ w)
          = acc ++ flat_map (fun s => [gl_point (deconvolve (low s) (shift_ w));
                                       gl_point (deconvolve (high s) (shift_ w))])
                            (segment_data_ w)) as Hgen by apply (Hgen []).
  induction (segment_data_ w) as [|s l IH]; intros acc; simpl.
  - by rewrite app_nil_r.
  - rewrite IH, <- !app_assoc. reflexivity.
Qed.


Section Disks.
Variable boundary_rim : rect_type T -> point_type T -> Q -> list (GLPoint G).

Lemma point_vbo_uploads w point radius_px ctx :
  gl_buffer_data (snd (point_vbo boundary_rim w point radius_px ctx))
    !! id_ (fst (point_vbo boundary_rim w point radius_px ctx))
  = Some (gl_point point :: boundary_rim (brect_ w) point radius_px).
Proof. unfold point_vbo. simpl. by rewrite lookup_insert_eq. Qed.

Lemma push_segment_ends w radius_px shift (l : list (segment_type T)) acc :
  foldl (fun acc s =>
           let lp := low s in
           let lp := deconvolve lp shift in
           let acc := push_point_vbo boundary_rim w radius_px acc lp in
           let hp := high s in
           let hp := deconvolve hp shift in
           push_point_vbo boundary_rim w radius_px acc hp) acc l
  = foldl (push_point_vbo boundary_rim w radius_px) acc
      (map (fun p => deconvolve p shift) (flat_map (fun s => [low s; high s]) l)).
Proof.
  revert acc. induction l as [|s l IH]; intros acc; simpl; [done|]. by rewrite IH.
Qed.

Lemma push_points w radius_px shift (l : list (point_type T)) acc :
  foldl (fun acc point =>
           let point := deconvolve point shift in
           push_point_vbo boundary_rim w radius_px acc point) acc l
  = foldl (push_point_vbo boundary_rim w radius_px) acc
      (map (fun p => deconvolve p shift) l).
Proof.
  revert acc. induction l as [|p l IH]; intros acc; simpl; [done|]. by rewrite IH.
Qed.

Lemma prepare_points_shifted w :
  gl_points_ w = [] ->
  let acc := foldl (push_point_vbo boundary_rim w (4.5)%Q) ([], gl_ w)
               (map (fun p => deconvolve p (shift_ w)) (site_points w)) in
  prepare_points boundary_rim w
  = with_buffers (fst acc) (gl_segments_ w) (gl_vertices_ w) (gl_edges_ w) (snd acc) w.
Proof.
  intros Hnil. unfold prepare_points. rewrite Hnil. simpl.
  rewrite push_segment_ends, push_points. unfold site_points.
  by rewrite map_app, foldl_app.
Qed.

Lemma push_vertices w radius_px (l : list (vertex_type T)) i acc :
  internal_edges_only_ w = false ->
  for_each_pure
    (fun acc i it =>
       if internal_edges_only_ w
          && (get_vertex_color (vd_colors_ w) i =? EXTERNAL_COLOR)%nat
       then acc
       else
         let vertex := {| px := vx it; py := vy it |} in
         let vertex := deconvolve vertex (shift_ w) in
         push_point_vbo boundary_rim w radius_px acc vertex)
    i l acc
  = foldl (push_point_vbo boundary_rim w radius_px) acc
      (map (fun v => deconvolve {| px := vx v; py := vy v |} (shift_ w)) l).
Proof.
  intros Hoff. rewrite Hoff. simpl.
  revert i acc. induction l as [|v l IH]; intros i acc; simpl; [done|]. apply IH.
Qed.

Lemma prepare_vertices_shifted w :
  gl_vertices_ w = [] -> internal_edges_only_ w = false ->
  let acc := foldl (push_point_vbo boundary_rim w 3%Q) ([], gl_ w)
               (map (fun v => deconvolve {| px := vx v; py := vy v |} (shift_ w))
                    (vertices (vd_ w))) in
  prepare_vertices boundary_rim w
  = with_buffers (gl_points_ w) (gl_segments_ w) (fst acc) (gl_edges_ w) (snd acc) w.
Proof.
  intros Hnil Hoff. unfold prepare_vertices. rewrite Hnil. simpl.
  by rewrite push_vertices.
Qed.

End Disks.

(** C10, as amended.  The data [prepare_edges] uploads for an edge is the
    samples translated by [- shift_], narrowed to [float]: [deconvolve]
    updates the sample in place, and what is discarded is the copy of the
    result.  The buffers of the points, of the segments and of the vertices
    hold the positions translated by [- shift_] as well: every kind of
    primitive is emitted in the same, shifted, coordinate space. *)
Theorem edge_buffers_are_shifted
    (discretize : point_type T -> segment_type T -> T ->
                  list (point_type T) -> list (point_type T))
    (boundary_rim : rect_type T -> point_type T -> Q -> list (GLPoint G)) w :
  (forall acc i it samples,
     primary_edges_only_ w && negb (is_primary it) = false ->
     internal_edges_only_ w
       && (get_edge_color (vd_colors_ w) i =? EXTERNAL_COLOR)%nat = false ->
     edge_samples discretize w it = Done samples ->
     exists vbo ctx,
       prepare_edge discretize w acc i it = Done (fst acc ++ [vbo], ctx)
       /\ gl_buffer_data ctx !! id_ vbo
          = Some (map (fun s => gl_point (deconvolve s (shift_ w))) samples))
  /\ (gl_points_ w = [] ->
      let acc := foldl (push_point_vbo boundary_rim w (4.5)%Q) ([], gl_ w)
                   (map (fun p => deconvolve p (shift_ w)) (site_points w)) in
      prepare_points boundary_rim w
      = with_buffers (fst acc) (gl_segments_ w) (gl_vertices_ w) (gl_edges_ w)
          (snd acc) w)
  /\ (id_ (gl_segments_ w) = 0%nat ->
      gl_buffer_data (gl_ (prepare_segments w))
        !! id_ (gl_segments_ (prepare_segments w))
      = Some (flat_map (fun s => [gl_point (deconvolve (low s) (shift_ w));
                                   gl_point (deconvolve (high s) (shift_ w))])
                       (segment_data_ w)))
  /\ (gl_vertices_ w = [] -> internal_edges_only_ w = false ->
      let acc := foldl (push_point_vbo boundary_rim w 3%Q) ([], gl_ w)
                   (map (fun v => deconvolve {| px := vx v; py := vy v |} (shift_ w))
                        (vertices (vd_ w))) in
      prepare_vertices boundary_rim w
      = with_buffers (gl_points_ w) (gl_segments_ w) (fst acc) (gl_edges_ w)
          (snd acc) w)
  /\ (forall point radius_px ctx,
        gl_buffer_data (snd (point_vbo boundary_rim w point radius_px ctx))
          !! id_ (fst (point_vbo boundary_rim w point radius_px ctx))
        = Some (gl_point point :: boundary_rim (brect_ w) point radius_px)).
Proof.
  split; [|split; [|split; [|split]]].
  - intros acc i it samples Hp Hi Hs.
    destruct (prepare_edge_uploads discretize w acc i it samples Hp Hi Hs)
      as (vbo & ctx & E & L & _).
    by exists vbo, ctx.
  - apply prepare_points_shifted.
  - apply prepare_segments_uploads.
  - apply prepare_vertices_shifted.
  - apply point_vbo_uploads.
Qed.

End Generic.

(** ** The exterior flood-fill *)

Section Flood.
Context {T : Type}.
Implicit Types (d : diagram T) (c : colors).

(** *** Color tables *)

Lemma get_set_edge_eq c e x :
  e < length (edge_color c) -> get_edge_color (set_edge_color e x c) e = x.
Proof.
  intros He. unfold get_edge_color, set_edge_color; simpl.
  by rewrite list_lookup_insert_eq.
Qed.

Lemma get_set_edge_ne c e i x :
  e ≠ i -> get_edge_color (set_edge_color e x c) i = get_edge_color c i.
Proof.
  intros Hne. unfold get_edge_color, set_edge_color; simpl.
  by rewrite list_lookup_insert_ne.
Qed.

Lemma colors_fit_set_edge d c e x :
  colors_fit d c -> colors_fit d (set_edge_color e x c).
Proof. intros [He Hv]. split; simpl; [by rewrite length_insert | done]. Qed.

Lemma colors_fit_set_vertex d c v x :
  colors_fit d c -> colors_fit d (set_vertex_color v x c).
Proof. intros [He Hv]. split; simpl; [done | by rewrite length_insert]. Qed.

Lemma colors_fit_fresh d : colors_fit d (fresh_colors d).
Proof. split; simpl; apply length_replicate. Qed.

Lemma filter_insert_external (l : list nat) e :
  length (filter (fun x => x ≠ EXTERNAL_COLOR) (<[e := EXTERNAL_COLOR]> l))
  <= length (filter (fun x => x ≠ EXTERNAL_COLOR) l).
Proof.
  revert e. induction l as [|a l IH]; intros [|e]; simpl; try lia.
  - rewrite !filter_cons. destruct (decide (EXTERNAL_COLOR ≠ EXTERNAL_COLOR)); [done|].
    destruct (decide (a ≠ EXTERNAL_COLOR)); simpl; lia.
  - rewrite !filter_cons. specialize (IH e).
    destruct (decide (a ≠ EXTERNAL_COLOR)); simpl; lia.
Qed.

Lemma filter_insert_external_lt (l : list nat) e a :
  l !! e = Some a -> a ≠ EXTERNAL_COLOR ->
  length (filter (fun x => x ≠ EXTERNAL_COLOR) (<[e := EXTERNAL_COLOR]> l))
  < length (filter (fun x => x ≠ EXTERNAL_COLOR) l).
Proof.
  revert e. induction l as [|b l IH]; intros [|e] Hl Ha; simpl in *; try done.
  - injection Hl as ->. rewrite !filter_cons.
    destruct (decide (EXTERNAL_COLOR ≠ EXTERNAL_COLOR)); [done|].
    destruct (decide (a ≠ EXTERNAL_COLOR)); [simpl; lia | done].
  - rewrite !filter_cons. specialize (IH e Hl Ha).
    destruct (decide (b ≠ EXTERNAL_COLOR)); simpl; lia.
Qed.

Lemma uncolored_set_le c e :
  uncolored (set_edge_color e EXTERNAL_COLOR c) <= uncolored c.
Proof. apply filter_insert_external. Qed.

Lemma uncolored_set_lt c e :
  e < length (edge_color c) -> get_edge_color c e ≠ EXTERNAL_COLOR ->
  uncolored (set_edge_color e EXTERNAL_COLOR c) < uncolored c.
Proof.
  intros He Hc. destruct (lookup_lt_is_Some_2 _ _ He) as [a Ha].
  apply (filter_insert_external_lt _ _ a Ha).
  unfold get_edge_color in Hc. by rewrite Ha in Hc.
Qed.

(** *** More fuel never changes a result *)

Lemma fuel_mono d :
  forall fuel,
    (forall c e c', color_exterior fuel d c e = Done c' ->
       forall fuel', fuel <= fuel' -> color_exterior fuel' d c e = Done c')
    /\ (forall first c e c', color_around fuel d first c e = Done c' ->
       forall fuel', fuel <= fuel' -> color_around fuel' d first c e = Done c').
Proof.
  induction fuel as [|fuel [IHe IHa]]; [split; intros; discriminate|].
  split.
  - intros c e c' Hrun [|fuel'] Hle; [lia|].
    simpl in *. destruct (deref (edges d) e) as [ed| |]; simpl in *; try done.
    destruct (get_edge_color c e =? EXTERNAL_COLOR); [done|].
    destruct (deref (edges d) (twin ed)); simpl in *; try done.
    destruct (vertex1 ed) as [v|]; [|done].
    destruct (negb (is_primary ed)); [done|].
    destruct (deref (vertices d) v) as [vd| |]; simpl in *; try done.
    apply (IHa _ _ _ _ Hrun). lia.
  - intros first c e c' Hrun [|fuel'] Hle; [lia|].
    simpl in *.
    destruct (color_exterior fuel d c e) as [c1| |] eqn:E1; simpl in *; try done.
    rewrite (IHe _ _ _ E1 fuel') by lia. simpl.
    destruct (deref (edges d) e) as [ed| |]; simpl in *; try done.
    destruct (rot_next ed =? first); [done|].
    apply (IHa _ _ _ _ Hrun). lia.
Qed.


(** *** What the invariants give *)

Lemma adjacency_edge d i e :
  adjacency_ok d = true -> edges d !! i = Some e ->
  twin e < length (edges d) /\ rot_next e < length (edges d)
  /\ (forall v, vertex1 e = Some v -> v < length (vertices d)).
Proof.
  unfold adjacency_ok. rewrite !andb_true_iff. intros [[Hr _] _] Hi.
  rewrite forallb_forall in Hr.
  assert (Hin : In e (edges d)) by (apply list_elem_of_In; eapply list_elem_of_lookup_2; eauto).
  specialize (Hr e Hin). unfold edge_in_range in Hr.
  rewrite !andb_true_iff, !Nat.ltb_lt in Hr. destruct Hr as [[Ht Hn] Hv].
  repeat split; try done. intros v Ev. rewrite Ev in Hv. simpl in Hv.
  by apply Nat.ltb_lt.
Qed.

Lemma adjacency_twin d i e :
  adjacency_ok d = true -> edges d !! i = Some e ->
  exists t, edges d !! twin e = Some t /\ twin t = i.
Proof.
  unfold adjacency_ok. rewrite !andb_true_iff. intros [[_ Hp] _] Hi.
  rewrite forallb_forall in Hp.
  assert (Hin : In i (seq 0 (length (edges d)))).
  { apply in_seq. split; [lia|]. simpl. eapply lookup_lt_Some; eauto. }
  specialize (Hp i Hin). unfold twin_paired in Hp. rewrite Hi in Hp. simpl in Hp.
  destruct (edges d !! twin e) as [t|]; [|done]. simpl in Hp.
  exists t. split; [done|]. by apply Nat.eqb_eq.
Qed.

Lemma adjacency_vertex d v vd :
  adjacency_ok d = true -> vertices d !! v = Some vd ->
  incident_edge vd < length (edges d)
  /\ exists k, Nat.iter (S k) (rot_step d) (incident_edge vd) = incident_edge vd.
Proof.
  unfold adjacency_ok. rewrite !andb_true_iff. intros [_ Hc] Hv.
  rewrite forallb_forall in Hc.
  assert (Hin : In vd (vertices d)) by (apply list_elem_of_In; eapply list_elem_of_lookup_2; eauto).
  specialize (Hc vd Hin). unfold rot_closed in Hc.
  rewrite andb_true_iff, Nat.ltb_lt, existsb_exists in Hc.
  destruct Hc as [Hi [k [Hk Hit]]]. split; [done|].
  apply in_seq in Hk. apply Nat.eqb_eq in Hit.
  exists (k - 1). replace (S (k - 1)) with k by lia. done.
Qed.

Lemma rot_step_lookup d e ed : edges d !! e = Some ed -> rot_step d e = rot_next ed.
Proof. intros E. unfold rot_step. by rewrite E. Qed.

(** *** Termination *)


Lemma around_terminates d m :
  adjacency_ok d = true -> terminates_below d m ->
  forall k first c e,
    colors_fit d c -> e < length (edges d) -> uncolored c <= m ->
    Nat.iter (S k) (rot_step d) e = first ->
    exists fuel c', color_around fuel d first c e = Done c'
      /\ colors_fit d c' /\ uncolored c' <= uncolored c.
Proof.
  intros Hok IH. induction k as [|k IHk]; intros first c e Hfit He Hm Hit.
  - destruct (IH c e Hfit He Hm) as (fuel & c1 & Hrun & Hfit1 & Hm1).
    destruct (lookup_lt_is_Some_2 _ _ He) as [ed Hed].
    exists (S fuel), c1. split; [|done]. simpl. rewrite Hrun. simpl.
    rewrite (proj2 (deref_Done _ _ _) Hed). simpl.
    simpl in Hit. rewrite (rot_step_lookup _ _ _ Hed) in Hit.
    rewrite Hit, Nat.eqb_refl. done.
  - destruct (IH c e Hfit He Hm) as (fuel1 & c1 & Hrun & Hfit1 & Hm1).
    destruct (lookup_lt_is_Some_2 _ _ He) as [ed Hed].
    destruct (adjacency_edge d e ed Hok Hed) as (_ & Hn & _).
    rewrite Nat.iter_succ_r, (rot_step_lookup _ _ _ Hed) in Hit.
    destruct (decide (rot_next ed = first)) as [Heq|Hne].
    + exists (S fuel1), c1. split; [|done]. simpl. rewrite Hrun. simpl.
      rewrite (proj2 (deref_Done _ _ _) Hed). simpl.
      rewrite Heq, Nat.eqb_refl. done.
    + destruct (IHk first c1 (rot_next ed) Hfit1 Hn ltac:(lia) Hit)
        as (fuel2 & c2 & Hrun2 & Hfit2 & Hm2).
      exists (S (Nat.max fuel1 fuel2)), c2. split; [|split; [done|lia]].
      simpl.
      rewrite (proj1 (fuel_mono d fuel1) _ _ _ Hrun (Nat.max fuel1 fuel2)) by lia.
      simpl. rewrite (proj2 (deref_Done _ _ _) Hed). simpl.
      apply Nat.eqb_neq in Hne. rewrite Hne.
      apply (proj2 (fuel_mono d fuel2) _ _ _ _ Hrun2). lia.
Qed.

Lemma exterior_terminates d :
  adjacency_ok d = true -> forall m, terminates_below d m.
Proof.
  intros Hok m. induction m as [m IH] using lt_wf_ind.
  intros c e Hfit He Hm.
  destruct (lookup_lt_is_Some_2 _ _ He) as [ed Hed].
  destruct (adjacency_edge d e ed Hok Hed) as (Htw & Hn & Hv1).
  destruct (decide (get_edge_color c e = EXTERNAL_COLOR)) as [Hc|Hc].
  { exists 1, c. split; [|done]. simpl.
    rewrite (proj2 (deref_Done _ _ _) Hed). simpl.
    apply Nat.eqb_eq in Hc. by rewrite Hc. }
  set (c1 := set_edge_color e EXTERNAL_COLOR c).
  set (c2 := set_edge_color (twin ed) EXTERNAL_COLOR c1).
  assert (Hlt : uncolored c2 < uncolored c).
  { pose proof (uncolored_set_le c1 (twin ed)).
    pose proof (uncolored_set_lt c e ltac:(destruct Hfit; lia) Hc).
    subst c1 c2. lia. }
  assert (Hfit2 : colors_fit d c2) by (by do 2 apply colors_fit_set_edge).
  destruct (lookup_lt_is_Some_2 _ _ Htw) as [tw Htwd].
  assert (Hhead : forall fuel r,
    match vertex1 ed with
    | None => Done c2
    | Some v =>
      if negb (is_primary ed) then Done c2 else
      vd ← deref (vertices d) v;
      color_around fuel d (incident_edge vd)
        (set_vertex_color v EXTERNAL_COLOR c2) (incident_edge vd)
    end = r -> color_exterior (S fuel) d c e = r).
  { intros fuel r <-. simpl.
    rewrite (proj2 (deref_Done _ _ _) Hed). simpl.
    apply Nat.eqb_neq in Hc. rewrite Hc.
    rewrite (proj2 (deref_Done _ _ _) Htwd). simpl. done. }
  destruct (vertex1 ed) as [v|] eqn:Ev.
  2:{ exists 1, c2. split; [by apply Hhead|]. split; [done|lia]. }
  destruct (is_primary ed) eqn:Ep.
  2:{ exists 1, c2. split; [by apply Hhead|]. split; [done|lia]. }
  specialize (Hv1 v eq_refl).
  destruct (lookup_lt_is_Some_2 _ _ Hv1) as [vd Hvd].
  destruct (adjacency_vertex d v vd Hok Hvd) as (Hinc & k & Hk).
  set (c3 := set_vertex_color v EXTERNAL_COLOR c2).
  assert (Hfit3 : colors_fit d c3) by (by apply colors_fit_set_vertex).
  destruct (around_terminates d (uncolored c2) Hok (IH (uncolored c2) ltac:(lia)) k
              (incident_edge vd) c3 (incident_edge vd) Hfit3 Hinc
              ltac:(done) Hk) as (fuel & c' & Hrun & Hfit' & Hm').
  exists (S fuel), c'. split.
  - apply Hhead. simpl. rewrite (proj2 (deref_Done _ _ _) Hvd). simpl. exact Hrun.
  - split; [done|]. change (uncolored c3) with (uncolored c2) in Hm'. lia.
Qed.


(** *** What a call leaves behind *)

Lemma colors_grow_refl c : colors_grow c c.
Proof. by intros i. Qed.

Lemma colors_grow_trans c1 c2 c3 :
  colors_grow c1 c2 -> colors_grow c2 c3 -> colors_grow c1 c3.
Proof. intros H1 H2 i Hi. auto. Qed.

Lemma colors_grow_set_edge c e : colors_grow c (set_edge_color e EXTERNAL_COLOR c).
Proof.
  intros i Hi. destruct (decide (e = i)) as [->|Hne].
  - destruct (decide (i < length (edge_color c))).
    + by apply get_set_edge_eq.
    + unfold get_edge_color, set_edge_color in *; simpl.
      rewrite list_insert_ge by lia. done.
  - by rewrite get_set_edge_ne.
Qed.

Lemma exterior_effect d :
  forall fuel,
    (forall c e c', colors_fit d c -> color_exterior fuel d c e = Done c' ->
       colors_fit d c' /\ colors_grow c c' /\ get_edge_color c' e = EXTERNAL_COLOR)
    /\ (forall first c e c', colors_fit d c -> color_around fuel d first c e = Done c' ->
       colors_fit d c' /\ colors_grow c c').
Proof.
  induction fuel as [|fuel [IHe IHa]]; [split; intros; discriminate|].
  split.
  - intros c e c' Hfit Hrun. simpl in Hrun.
    destruct (deref (edges d) e) as [ed| |] eqn:Hed; simpl in Hrun; try done.
    apply deref_Done in Hed.
    destruct (get_edge_color c e =? EXTERNAL_COLOR) eqn:Hc.
    { injection Hrun as <-. apply Nat.eqb_eq in Hc.
      split; [done|]. split; [apply colors_grow_refl | done]. }
    destruct (deref (edges d) (twin ed)) as [tw| |]; simpl in Hrun; try done.
    set (c1 := set_edge_color e EXTERNAL_COLOR c) in *.
    set (c2 := set_edge_color (twin ed) EXTERNAL_COLOR c1) in *.
    assert (He : e < length (edge_color c)).
    { destruct Hfit as [-> _]. eapply lookup_lt_Some; eauto. }
    assert (Hfit2 : colors_fit d c2) by (by do 2 apply colors_fit_set_edge).
    assert (Hg2 : colors_grow c c2).
    { eapply colors_grow_trans; apply colors_grow_set_edge. }
    assert (He2 : get_edge_color c2 e = EXTERNAL_COLOR).
    { apply colors_grow_set_edge. by apply get_set_edge_eq. }
    destruct (vertex1 ed) as [v|]; [|by injection Hrun as <-].
    destruct (negb (is_primary ed)); [by injection Hrun as <-|].
    destruct (deref (vertices d) v) as [vd| |]; simpl in Hrun; try done.
    apply IHa in Hrun; [|by apply colors_fit_set_vertex].
    destruct Hrun as [Hfit' Hg']. split; [done|]. split.
    + eapply colors_grow_trans; [exact Hg2|]. intros i Hi. by apply Hg'.
    + by apply Hg'.
  - intros first c e c' Hfit Hrun. simpl in Hrun.
    destruct (color_exterior fuel d c e) as [c1| |] eqn:E1; simpl in Hrun; try done.
    destruct (IHe _ _ _ Hfit E1) as (Hfit1 & Hg1 & _).
    destruct (deref (edges d) e) as [ed| |]; simpl in Hrun; try done.
    destruct (rot_next ed =? first).
    + by injection Hrun as <-.
    + destruct (IHa _ _ _ _ Hfit1 Hrun) as [Hfit' Hg'].
      split; [done|]. by eapply colors_grow_trans.
Qed.

(** *** Twins keep the same color *)

Lemma twins_agree_fresh d : twins_agree d (fresh_colors d).
Proof.
  intros i e Hi. unfold get_edge_color, fresh_colors; simpl.
  assert (Hz : forall j, default 0 (replicate (length (edges d)) 0 !! j) = 0).
  { intros j. destruct (replicate _ _ !! j) as [x|] eqn:E; [|done].
    apply lookup_replicate in E. by destruct E as [-> _]. }
  by rewrite !Hz.
Qed.

Lemma twins_agree_pair d c e ed :
  adjacency_ok d = true -> colors_fit d c -> twins_agree d c ->
  edges d !! e = Some ed ->
  twins_agree d (set_edge_color (twin ed) EXTERNAL_COLOR
                   (set_edge_color e EXTERNAL_COLOR c)).
Proof.
  intros Hok Hfit Hsym Hed.
  destruct (adjacency_twin d e ed Hok Hed) as (tw & Htw & Hback).
  assert (He : e < length (edge_color c)).
  { destruct Hfit as [-> _]. eapply lookup_lt_Some; eauto. }
  assert (Ht : twin ed < length (edge_color c)).
  { destruct Hfit as [-> _]. eapply lookup_lt_Some; eauto. }
  set (c1 := set_edge_color e EXTERNAL_COLOR c).
  set (c2 := set_edge_color (twin ed) EXTERNAL_COLOR c1).
  assert (Hin : forall j, j = e \/ j = twin ed -> get_edge_color c2 j = EXTERNAL_COLOR).
  { intros j [->| ->].
    - apply colors_grow_set_edge. by apply get_set_edge_eq.
    - apply get_set_edge_eq. subst c1; simpl. by rewrite length_insert. }
  assert (Hout : forall j, j ≠ e -> j ≠ twin ed -> get_edge_color c2 j = get_edge_color c j).
  { intros j H1 H2. subst c2 c1. rewrite !get_set_edge_ne by done. done. }
  intros i ei Hi.
  destruct (adjacency_twin d i ei Hok Hi) as (ti & Hti & Hbacki).
  destruct (decide (i = e)) as [->|Hie].
  { assert (ei = ed) by congruence. subst ei. rewrite !Hin by auto. done. }
  destruct (decide (i = twin ed)) as [->|Hit].
  { assert (ei = tw) by congruence. subst ei. rewrite Hback, !Hin by auto. done. }
  rewrite !Hout; try done.
  - by apply Hsym.
  - intros Heq. rewrite Heq in Hti. congruence.
  - intros Heq. rewrite Heq in Hti. congruence.
Qed.

Lemma twins_agree_set_vertex d c v x :
  twins_agree d c -> twins_agree d (set_vertex_color v x c).
Proof. intros Hs i e Hi. by apply Hs. Qed.

Lemma exterior_twins d :
  adjacency_ok d = true ->
  forall fuel,
    (forall c e c', colors_fit d c -> twins_agree d c ->
       color_exterior fuel d c e = Done c' -> twins_agree d c')
    /\ (forall first c e c', colors_fit d c -> twins_agree d c ->
       color_around fuel d first c e = Done c' -> twins_agree d c').
Proof.
  intros Hok. induction fuel as [|fuel [IHe IHa]]; [split; intros; discriminate|].
  split.
  - intros c e c' Hfit Hsym Hrun. simpl in Hrun.
    destruct (deref (edges d) e) as [ed| |] eqn:Hed; simpl in Hrun; try done.
    apply deref_Done in Hed.
    destruct (get_edge_color c e =? EXTERNAL_COLOR); [by injection Hrun as <-|].
    destruct (deref (edges d) (twin ed)) as [tw| |]; simpl in Hrun; try done.
    pose proof (twins_agree_pair d c e ed Hok Hfit Hsym Hed) as Hsym2.
    destruct (vertex1 ed) as [v|]; [|by injection Hrun as <-].
    destruct (negb (is_primary ed)); [by injection Hrun as <-|].
    destruct (deref (vertices d) v) as [vd| |]; simpl in Hrun; try done.
    eapply IHa; [| |exact Hrun].
    + apply colors_fit_set_vertex. by do 2 apply colors_fit_set_edge.
    + by apply twins_agree_set_vertex.
  - intros first c e c' Hfit Hsym Hrun. simpl in Hrun.
    destruct (color_exterior fuel d c e) as [c1| |] eqn:E1; simpl in Hrun; try done.
    pose proof (IHe _ _ _ Hfit Hsym E1) as Hsym1.
    destruct (proj1 (exterior_effect d fuel) _ _ _ Hfit E1) as (Hfit1 & _).
    destruct (deref (edges d) e) as [ed| |]; simpl in Hrun; try done.
    destruct (rot_next ed =? first).
    + by injection Hrun as <-.
    + by eapply IHa.
Qed.


(** *** The loop of [build] over the edges *)

Lemma color_unbounded_unfold fuel d c :
  color_unbounded fuel d c = for_each (color_step fuel d) 0 (edges d) c.
Proof. reflexivity. Qed.

Lemma pass_mono d fuel fuel' :
  fuel <= fuel' ->
  forall l i c c', for_each (color_step fuel d) i l c = Done c' ->
    for_each (color_step fuel' d) i l c = Done c'.
Proof.
  intros Hle. induction l as [|it l IH]; intros i c c' Hrun; simpl in *; [done|].
  unfold color_step at 1 in Hrun. unfold color_step at 1.
  destruct (negb (is_finite it)); simpl in *.
  - destruct (color_exterior fuel d c i) as [c1| |] eqn:E1; simpl in Hrun; try done.
    rewrite (proj1 (fuel_mono d fuel) _ _ _ E1 fuel' Hle). simpl. by apply IH.
  - by apply IH.
Qed.

Lemma pass_terminates d :
  adjacency_ok d = true ->
  forall l i c, i + length l <= length (edges d) -> colors_fit d c ->
    exists fuel c', for_each (color_step fuel d) i l c = Done c' /\ colors_fit d c'.
Proof.
  intros Hok. induction l as [|it l IH]; intros i c Hlen Hfit; simpl in *.
  { exists 0, c. done. }
  destruct (is_finite it) eqn:Efin.
  - destruct (IH (S i) c ltac:(lia) Hfit) as (fuel & c' & Hrun & Hfit').
    exists fuel, c'. split; [|done]. unfold color_step at 1. by rewrite Efin.
  - destruct (exterior_terminates d Hok (uncolored c) c i Hfit ltac:(lia) ltac:(done))
      as (fuel1 & c1 & Hrun1 & Hfit1 & _).
    destruct (IH (S i) c1 ltac:(lia) Hfit1) as (fuel2 & c' & Hrun2 & Hfit').
    exists (Nat.max fuel1 fuel2), c'. split; [|done].
    unfold color_step at 1. rewrite Efin. simpl.
    rewrite (proj1 (fuel_mono d fuel1) _ _ _ Hrun1 (Nat.max fuel1 fuel2)) by lia.
    simpl. apply (pass_mono d fuel2); [lia | done].
Qed.

Lemma pass_invariant d fuel (P : colors -> Prop) :
  (forall c e c', P c -> color_exterior fuel d c e = Done c' -> P c') ->
  forall l i c c', P c -> for_each (color_step fuel d) i l c = Done c' -> P c'.
Proof.
  intros Hstep. induction l as [|it l IH]; intros i c c' Hc Hrun; simpl in *.
  { by injection Hrun as <-. }
  unfold color_step at 1 in Hrun. destruct (negb (is_finite it)); simpl in *.
  - destruct (color_exterior fuel d c i) as [c1| |] eqn:E1; simpl in Hrun; try done.
    eapply IH; [|exact Hrun]. eapply Hstep; eauto.
  - eapply IH; eauto.
Qed.

Lemma pass_colors_unbounded d fuel :
  forall l i c c',
    colors_fit d c -> for_each (color_step fuel d) i l c = Done c' ->
    colors_fit d c' /\ colors_grow c c'
    /\ forall j it, l !! j = Some it -> is_finite it = false ->
         get_edge_color c' (i + j) = EXTERNAL_COLOR.
Proof.
  induction l as [|it l IH]; intros i c c' Hfit Hrun; simpl in *.
  { injection Hrun as <-. split; [done|]. split; [apply colors_grow_refl|]. done. }
  unfold color_step at 1 in Hrun. destruct (is_finite it) eqn:Efin; simpl in *.
  - destruct (IH _ _ _ Hfit Hrun) as (Hfit' & Hg & Hall).
    split; [done|]. split; [done|]. intros [|j] it' Hj Hinf; simpl in Hj.
    + congruence.
    + replace (i + S j) with (S i + j) by lia. eauto.
  - destruct (color_exterior fuel d c i) as [c1| |] eqn:E1; simpl in Hrun; try done.
    destruct (proj1 (exterior_effect d fuel) _ _ _ Hfit E1) as (Hfit1 & Hg1 & Hi).
    destruct (IH _ _ _ Hfit1 Hrun) as (Hfit' & Hg & Hall).
    split; [done|]. split; [by eapply colors_grow_trans|].
    intros [|j] it' Hj Hinf; simpl in Hj.
    + rewrite Nat.add_0_r. by apply Hg.
    + replace (i + S j) with (S i + j) by lia. eauto.
Qed.

Lemma pass_noop d fuel :
  forall l i c,
    (forall j it, l !! j = Some it -> edges d !! (i + j) = Some it) ->
    (forall j it, l !! j = Some it -> is_finite it = false ->
       get_edge_color c (i + j) = EXTERNAL_COLOR) ->
    for_each (color_step (S fuel) d) i l c = Done c.
Proof.
  induction l as [|it l IH]; intros i c Hl Hc; simpl; [done|].
  assert (Hrest : for_each (color_step (S fuel) d) (S i) l c = Done c).
  { apply IH.
    - intros j it' Hj. replace (S i + j) with (i + S j) by lia. by apply Hl.
    - intros j it' Hj Hinf. replace (S i + j) with (i + S j) by lia. by eapply Hc. }
  unfold color_step at 1. destruct (is_finite it) eqn:Efin; simpl; [done|].
  specialize (Hl 0 it eq_refl). specialize (Hc 0 it eq_refl Efin).
  rewrite Nat.add_0_r in Hl, Hc.
  rewrite (proj2 (deref_Done _ _ _) Hl). simpl.
  apply Nat.eqb_eq in Hc. rewrite Hc. simpl. exact Hrest.
Qed.

Lemma color_unbounded_again d fuel fuel' c c' :
  colors_fit d c -> color_unbounded fuel d c = Done c' ->
  color_unbounded (S fuel') d c' = Done c'.
Proof.
  intros Hfit Hrun. rewrite color_unbounded_unfold in *.
  destruct (pass_colors_unbounded d fuel _ _ _ _ Hfit Hrun) as (_ & _ & Hall).
  apply pass_noop; [done|]. intros j it Hj. by apply Hall.
Qed.

(** C9.  On a diagram that satisfies the adjacency invariants (pointers in
    range, twins paired, rotational lists closed), with a color table that
    covers it: every call of [color_exterior] returns, given enough fuel, and
    leaves its edge colored [EXTERNAL_COLOR]; so does the whole loop of
    [build] over the edges. *)
Theorem color_exterior_terminates d c e :
  adjacency_ok d = true -> colors_fit d c -> e < length (edges d) ->
  (exists fuel c', color_exterior fuel d c e = Done c' /\ colors_fit d c'
     /\ get_edge_color c' e = EXTERNAL_COLOR)
  /\ (exists fuel c', color_unbounded fuel d c = Done c').
Proof.
  intros Hok Hfit He. split.
  - destruct (exterior_terminates d Hok (uncolored c) c e Hfit He ltac:(done))
      as (fuel & c' & Hrun & Hfit' & _).
    exists fuel, c'. split; [done|]. split; [done|].
    by destruct (proj1 (exterior_effect d fuel) _ _ _ Hfit Hrun) as (_ & _ & ?).
  - destruct (pass_terminates d Hok (edges d) 0 c ltac:(simpl; lia) Hfit)
      as (fuel & c' & Hrun & _).
    exists fuel, c'. done.
Qed.

(** C3.  On a diagram that satisfies the adjacency invariants, the loop of
    [build] over the edges, started on the fresh diagram, returns; and in the
    coloring it returns every edge has the color of its twin. *)
Theorem classification_twins_agree d :
  adjacency_ok d = true ->
  (exists fuel c', color_unbounded fuel d (fresh_colors d) = Done c')
  /\ forall fuel c', color_unbounded fuel d (fresh_colors d) = Done c' ->
       forall i e, edges d !! i = Some e ->
         get_edge_color c' i = get_edge_color c' (twin e).
Proof.
  intros Hok. split.
  - destruct (pass_terminates d Hok (edges d) 0 (fresh_colors d)
                ltac:(simpl; lia) (colors_fit_fresh d)) as (fuel & c' & Hrun & _).
    by exists fuel, c'.
  - intros fuel c' Hrun i e Hi.
    rewrite color_unbounded_unfold in Hrun.
    assert (Hinv : colors_fit d c' /\ twins_agree d c').
    { eapply (pass_invariant d fuel (fun c => colors_fit d c /\ twins_agree d c));
        [| |exact Hrun].
      - intros c e0 c1 [Hf Hs] E. split.
        + by destruct (proj1 (exterior_effect d fuel) _ _ _ Hf E).
        + eapply (proj1 (exterior_twins d Hok fuel)); eauto.
      - split; [apply colors_fit_fresh | apply twins_agree_fresh]. }
    by apply Hinv.
Qed.

(** C4.  On a diagram that satisfies the adjacency invariants, the loop of
    [build] over the edges returns a coloring of the fresh diagram, and run
    once more on that coloring it returns the very same coloring, edges and
    vertices: every unbounded edge is already [EXTERNAL_COLOR], so every call
    of [color_exterior] returns at its first test. *)
Theorem classification_idempotent d :
  adjacency_ok d = true ->
  (exists fuel c', color_unbounded fuel d (fresh_colors d) = Done c'
     /\ color_unbounded fuel d c' = Done c')
  /\ forall fuel fuel' c', color_unbounded fuel d (fresh_colors d) = Done c' ->
       color_unbounded (S fuel') d c' = Done c'.
Proof.
  intros Hok. split.
  - destruct (pass_terminates d Hok (edges d) 0 (fresh_colors d)
                ltac:(simpl; lia) (colors_fit_fresh d)) as (fuel & c' & Hrun & _).
    exists (S fuel), c'. split.
    + rewrite color_unbounded_unfold. apply (pass_mono d fuel); [lia | done].
    + eapply color_unbounded_again; [apply colors_fit_fresh | exact Hrun].
  - intros fuel fuel' c' Hrun.
    eapply color_unbounded_again; [apply colors_fit_fresh | exact Hrun].
Qed.

End Flood.

(** ** Exact arithmetic *)

Section Exact.
Local Open Scope Q_scope.
Implicit Types (w : widget Q Q) (r : rect_type Q) (p : point_type Q).

Ltac exact_arith :=
  cbv [cadd csub cmul cdiv copp fabs cltb ceqb lit_1_2 lit_0_5 lit_1E_3 of_int Q_coordinate] in *.

Lemma Qltb_lt (a b : Q) : Qltb a b = true <-> a < b.
Proof.
  unfold Qltb. rewrite Qlt_alt. destruct (a ?= b); split; intros E; congruence.
Qed.

Lemma Qltb_ge (a b : Q) : Qltb a b = false <-> b <= a.
Proof.
  rewrite <- not_true_iff_false, Qltb_lt. split; [apply Qnot_lt_le | apply Qle_not_lt].
Qed.

Lemma cmax_Q (a b : Q) : a <= cmax a b /\ b <= cmax a b /\ (cmax a b = a \/ cmax a b = b).
Proof.
  unfold cmax; simpl. destruct (Qltb a b) eqn:E.
  - apply Qltb_lt in E. repeat split; [lra | lra | by right].
  - apply Qltb_ge in E. repeat split; [lra | lra | by left].
Qed.

Lemma cmin_Q (a b : Q) : cmin a b <= a /\ cmin a b <= b /\ (cmin a b = a \/ cmin a b = b).
Proof.
  unfold cmin; simpl. destruct (Qltb b a) eqn:E.
  - apply Qltb_lt in E. repeat split; [lra | lra | by right].
  - apply Qltb_ge in E. repeat split; [lra | lra | by left].
Qed.

Lemma cmax_same (a : Q) : cmax a a = a.
Proof. unfold cmax. by destruct (a <? a)%coord. Qed.

Lemma cmin_same (a : Q) : cmin a a = a.
Proof. unfold cmin. by destruct (a <? a)%coord. Qed.

Lemma inside_in_box r p : inside r p = true <-> in_box r p.
Proof.
  unfold inside, in_box; simpl. rewrite !andb_true_iff, !negb_true_iff, !Qltb_ge.
  tauto.
Qed.

Lemma strictly_inside_Q r p :
  strictly_inside r p = true <->
  xl r < px p /\ px p < xh r /\ yl r < py p /\ py p < yh r.
Proof.
  unfold strictly_inside; simpl. rewrite !andb_true_iff, !Qltb_lt. tauto.
Qed.

Lemma strictly_outside_Q r p :
  strictly_outside r p = true <->
  px p < xl r \/ xh r < px p \/ py p < yl r \/ yh r < py p.
Proof.
  unfold strictly_outside; simpl. rewrite !orb_true_iff, !Qltb_lt. tauto.
Qed.

Lemma in_box_set_points p : in_box (set_points p p) p.
Proof.
  unfold in_box, set_points; simpl. rewrite !cmin_same, !cmax_same. lra.
Qed.

Lemma in_box_encompass_new r p : in_box (encompass r p) p.
Proof.
  unfold in_box, encompass; simpl.
  pose proof (cmin_Q (px p) (xl r)). pose proof (cmax_Q (px p) (xh r)).
  pose proof (cmin_Q (py p) (yl r)). pose proof (cmax_Q (py p) (yh r)).
  intuition.
Qed.

Lemma in_box_encompass_old r p q : in_box r q -> in_box (encompass r p) q.
Proof.
  unfold in_box, encompass; simpl. intros (H1 & H2 & H3 & H4).
  pose proof (cmin_Q (px p) (xl r)). pose proof (cmax_Q (px p) (xh r)).
  pose proof (cmin_Q (py p) (yl r)). pose proof (cmax_Q (py p) (yh r)).
  repeat split; lra.
Qed.

Lemma update_brect_spec w p :
  ingest_inv w ->
  let w' := update_brect p w in
  brect_initialized_ w' = true /\ in_box (brect_ w') p
  /\ (forall q, q ∈ site_points w -> in_box (brect_ w') q)
  /\ point_data_ w' = point_data_ w /\ segment_data_ w' = segment_data_ w.
Proof.
  intros [Hf Ht]. unfold update_brect. destruct (brect_initialized_ w) eqn:E; simpl.
  - refine (conj eq_refl (conj _ (conj _ (conj eq_refl eq_refl)))).
    + apply in_box_encompass_new.
    + intros q Hq. apply in_box_encompass_old. by apply Ht.
  - refine (conj eq_refl (conj _ (conj _ (conj eq_refl eq_refl)))).
    + apply in_box_set_points.
    + intros q Hq. rewrite Hf in Hq by done. by apply elem_of_nil in Hq.
Qed.

Lemma read_point_inv w xy : ingest_inv w -> ingest_inv (read_point w xy).
Proof.
  intros Hinv. unfold read_point.
  set (p := {| px := of_int (fst xy); py := of_int (snd xy) |}).
  destruct (update_brect_spec w p Hinv) as (Hi & Hp & Hold & Hpd & Hsd).
  split; simpl; [congruence|]. intros _ q Hq.
  unfold site_points in Hq; simpl in Hq. rewrite Hpd, Hsd in Hq.
  rewrite !elem_of_app in Hq. destruct Hq as [[Hq|Hq]|Hq].
  - apply Hold. unfold site_points. rewrite elem_of_app. by left.
  - apply list_elem_of_singleton in Hq. by subst q.
  - apply Hold. unfold site_points. rewrite elem_of_app. by right.
Qed.


Lemma read_segment_inv w s : ingest_inv w -> ingest_inv (read_segment w s).
Proof.
  intros Hinv. destruct s as [[[x1 y1] x2] y2]. unfold read_segment.
  set (lp := {| px := of_int x1; py := of_int y1 |}).
  set (hp := {| px := of_int x2; py := of_int y2 |}).
  destruct (update_brect_spec w lp Hinv) as (Hi & Hp & Hold & Hpd & Hsd).
  assert (Hinv1 : ingest_inv (update_brect lp w)).
  { split; [congruence|]. intros _ q Hq. apply Hold.
    unfold site_points in *. by rewrite <- Hpd, <- Hsd. }
  destruct (update_brect_spec _ hp Hinv1) as (Hi2 & Hp2 & Hold2 & Hpd2 & Hsd2).
  split; simpl; [congruence|]. intros _ q Hq.
  unfold site_points in Hq; simpl in Hq. rewrite Hpd2, Hsd2, Hpd, Hsd in Hq.
  rewrite flat_map_app, !elem_of_app in Hq. simpl in Hq.
  assert (Hold' : forall q, q ∈ site_points w -> in_box (brect_ (update_brect hp (update_brect lp w))) q).
  { intros q' Hq'. apply Hold2. unfold site_points. by rewrite Hpd, Hsd. }
  destruct Hq as [Hq|[Hq|Hq]].
  - apply Hold'. unfold site_points. rewrite elem_of_app. by left.
  - apply Hold'. unfold site_points. rewrite elem_of_app. by right.
  - rewrite !elem_of_cons in Hq. destruct Hq as [->|[->|Hq]].
    + destruct (update_brect_spec _ hp Hinv1) as (_ & _ & _ & _ & _).
      unfold update_brect at 1. rewrite Hi. simpl. by apply in_box_encompass_old.
    + done.
    + by apply elem_of_nil in Hq.
Qed.

Lemma foldl_inv {A B} (P : B -> Prop) (f : B -> A -> B) :
  (forall b a, P b -> P (f b a)) -> forall l b, P b -> P (foldl f b l).
Proof. intros Hf. induction l; simpl; auto. Qed.

Lemma clear_inv w : ingest_inv (clear w).
Proof.
  split.
  - intros _. unfold clear. by repeat case_match.
  - unfold clear. repeat case_match. simpl. done.
Qed.

Lemma ingest_ok f w : ingest_inv (ingest f w).
Proof.
  unfold ingest, read_data. apply foldl_inv; [apply read_segment_inv|].
  apply foldl_inv; [apply read_point_inv|]. apply clear_inv.
Qed.

(** *** [construct_brect] *)

Lemma construct_brect_rect w :
  let s := larger_side (brect_ w) in
  let c := center (brect_ w) in
  brect_ (construct_brect w)
  = {| xl := px c - s * lit_1_2; xh := px c + s * lit_1_2;
       yl := py c - s * lit_1_2; yh := py c + s * lit_1_2 |}%coord.
Proof.
  unfold construct_brect, bloat, set_points; simpl.
  rewrite !cmin_same, !cmax_same. reflexivity.
Qed.

(** C2, as amended.  In exact arithmetic, once a site has been read the
    finalized region is a square that contains every coordinate pair read,
    and contains them strictly when the bounding box of the sites has a
    positive side (the sites are not all the same point). *)
Theorem finalized_region_contains_sites f w :
  brect_initialized_ (ingest f w) = true ->
  let r := brect_ (construct_brect (ingest f w)) in
  is_square r = true
  /\ (forall p, p ∈ site_points (ingest f w) -> inside r p = true)
  /\ ((0 <? larger_side (brect_ (ingest f w)))%coord = true ->
      forall p, p ∈ site_points (ingest f w) -> strictly_inside r p = true).
Proof.
  intros Hinit r. subst r. rewrite construct_brect_rect.
  destruct (ingest_ok f w) as [_ Hbox]. specialize (Hbox Hinit).
  set (b := brect_ (ingest f w)) in *.
  assert (Hw : xh b - xl b <= larger_side b) by apply cmax_Q.
  assert (Hh : yh b - yl b <= larger_side b) by apply cmax_Q.
  set (s := larger_side b) in *. clearbody s.
  split; [|split].
  - unfold is_square; simpl. apply Qeq_bool_iff. ring.
  - intros p Hp. apply inside_in_box. destruct (Hbox p Hp) as (H1 & H2 & H3 & H4).
    unfold in_box; simpl. exact_arith. unfold Qdiv. change (/ inject_Z 2) with (1 # 2).
    repeat split; lra.
  - intros Hpos p Hp. apply Qltb_lt in Hpos.
    apply strictly_inside_Q. destruct (Hbox p Hp) as (H1 & H2 & H3 & H4).
    simpl. exact_arith. unfold Qdiv. change (/ inject_Z 2) with (1 # 2).
    repeat split; lra.
Qed.


(** *** Where the sites retrieved for a cell come from *)

Lemma at_index_elem {A} (l : list A) i a : at_index l i = Done a -> a ∈ l.
Proof.
  unfold at_index. destruct (i <? N.of_nat (length l))%N; [|done].
  intros E. apply deref_Done in E. eapply list_elem_of_lookup_2; eauto.
Qed.

Lemma retrieve_segment_elem w cl s :
  retrieve_segment w cl = Done s -> s ∈ segment_data_ w.
Proof. apply at_index_elem. Qed.

Lemma segment_ends_sites w s :
  s ∈ segment_data_ w -> low s ∈ site_points w /\ high s ∈ site_points w.
Proof.
  intros Hs. unfold site_points. rewrite !elem_of_app.
  split; right; apply list_elem_of_In, in_flat_map; exists s;
    (split; [by apply list_elem_of_In | simpl; auto]).
Qed.

Lemma retrieve_point_elem w cl p :
  retrieve_point w cl = Done p -> p ∈ site_points w.
Proof.
  unfold retrieve_point. case_bool_decide.
  - intros E. apply at_index_elem in E. unfold site_points.
    rewrite elem_of_app. by left.
  - case_bool_decide;
      (destruct (at_index (segment_data_ w) _) as [s| |] eqn:E; simpl; try done;
       intros [= <-]; apply at_index_elem in E; by apply segment_ends_sites).
Qed.


(** *** The ray of [clip_infinite_edge] *)

Lemma Qabs_diff_le (a b lo hi : Q) :
  lo <= a -> a <= hi -> lo <= b -> b <= hi -> Qabs (a - b) <= hi - lo.
Proof. intros. apply Qabs_Qle_condition. split; lra. Qed.

Lemma Qabs_opp_diff_le (a b lo hi : Q) :
  lo <= a -> a <= hi -> lo <= b -> b <= hi -> Qabs (- (a - b)) <= hi - lo.
Proof. intros. rewrite Qabs_opp. by apply Qabs_diff_le. Qed.

Lemma origin_direction_bounds w b e o dir :
  (forall p, p ∈ site_points w -> in_box b p) ->
  clip_origin_direction w e = Done (o, dir) ->
  in_box b o /\ Qabs (px dir) <= larger_side b /\ Qabs (py dir) <= larger_side b.
Proof.
  intros Hbox. unfold clip_origin_direction.
  assert (Hw : xh b - xl b <= larger_side b) by apply cmax_Q.
  assert (Hh : yh b - yl b <= larger_side b) by apply cmax_Q.
  destruct (deref (cells (vd_ w)) (cell e)) as [cell1| |]; simpl; try done.
  destruct (deref (edges (vd_ w)) (twin e)) as [tw| |]; simpl; try done.
  destruct (deref (cells (vd_ w)) (cell tw)) as [cell2| |]; simpl; try done.
  destruct (contains_point cell1 && contains_point cell2).
  - destruct (retrieve_point w cell1) as [p1| |] eqn:E1; simpl; try done.
    destruct (retrieve_point w cell2) as [p2| |] eqn:E2; simpl; try done.
    intros [= <- <-]. simpl.
    destruct (Hbox p1 (retrieve_point_elem _ _ _ E1)) as (A1 & A2 & A3 & A4).
    destruct (Hbox p2 (retrieve_point_elem _ _ _ E2)) as (B1 & B2 & B3 & B4).
    split; [|split].
    + unfold in_box; simpl. exact_arith. repeat split; lra.
    + eapply Qle_trans; [|exact Hh]. by apply Qabs_diff_le.
    + eapply Qle_trans; [|exact Hw]. by apply Qabs_diff_le.
  - set (ro := if contains_segment cell1 then retrieve_point w cell2
               else retrieve_point w cell1).
    set (rs := if contains_segment cell1 then retrieve_segment w cell1
               else retrieve_segment w cell2).
    destruct ro as [origin| |] eqn:Eo; simpl; try done.
    destruct rs as [s| |] eqn:Es; simpl; try done.
    assert (Ho : in_box b origin).
    { apply Hbox. subst ro. destruct (contains_segment cell1);
        eapply retrieve_point_elem; eauto. }
    assert (Hs : s ∈ segment_data_ w).
    { subst rs. destruct (contains_segment cell1);
        eapply retrieve_segment_elem; eauto. }
    destruct (segment_ends_sites w s Hs) as [Hlo Hhi].
    destruct (Hbox _ Hlo) as (A1 & A2 & A3 & A4).
    destruct (Hbox _ Hhi) as (B1 & B2 & B3 & B4).
    destruct (xorb _ _); intros [= <- <-]; simpl; (split; [done|]); split.
    + eapply Qle_trans; [|exact Hh]. by apply Qabs_diff_le.
    + eapply Qle_trans; [|exact Hw]. by apply Qabs_opp_diff_le.
    + eapply Qle_trans; [|exact Hh]. by apply Qabs_opp_diff_le.
    + eapply Qle_trans; [|exact Hw]. by apply Qabs_diff_le.
Qed.

(** A step of [S] along one axis, from [x], passes both [lo] and [hi]. *)
Lemma step_leaves (lo hi x dx k S : Q) :
  x - S < lo -> hi < x + S -> Qabs dx * k == S ->
  (x - dx * k < lo \/ hi < x - dx * k) /\ (x + dx * k < lo \/ hi < x + dx * k).
Proof.
  intros Hlo Hhi Hk.
  destruct (Qlt_le_dec dx 0) as [Hneg|Hpos].
  - rewrite (Qabs_neg dx) in Hk by lra.
    assert (dx * k == - S) by lra. split; [right|left]; lra.
  - rewrite (Qabs_pos dx) in Hk by lra. split; [left|right]; lra.
Qed.

Lemma ingest_sites_in_box f w p :
  p ∈ site_points (ingest f w) -> in_box (brect_ (ingest f w)) p.
Proof.
  intros Hp. destruct (ingest_ok f w) as [Hf Ht].
  destruct (brect_initialized_ (ingest f w)); [by apply Ht|].
  rewrite Hf in Hp by done. by apply elem_of_nil in Hp.
Qed.

Lemma nonzero_direction_scale (dx dy : Q) :
  point_eqb {| px := dx; py := dy |} (pt 0 0) = false ->
  0 < cmax (Qabs dx) (Qabs dy).
Proof.
  unfold point_eqb; simpl. intros Hz.
  destruct (cmax_Q (Qabs dx) (Qabs dy)) as (Hx & Hy & _).
  pose proof (Qabs_nonneg dx). pose proof (Qabs_nonneg dy).
  apply andb_false_iff in Hz. destruct Hz as [Hz|Hz];
    apply not_true_iff_false in Hz; rewrite Qeq_bool_iff in Hz.
  - destruct (Qlt_le_dec 0 (Qabs dx)); [lra|].
    exfalso. apply Hz. apply Qabs_Qle_condition in q. change (inject_Z 0) with 0. lra.
  - destruct (Qlt_le_dec 0 (Qabs dy)); [lra|].
    exfalso. apply Hz. apply Qabs_Qle_condition in q. change (inject_Z 0) with 0. lra.
Qed.

(** The two points a ray is clipped to, one for each sign. *)
Lemma ray_ends_outside (b : rect_type Q) (o dir : point_type Q) :
  in_box b o ->
  Qabs (px dir) <= larger_side b -> Qabs (py dir) <= larger_side b ->
  point_eqb dir (pt 0 0) = false ->
  let s := larger_side b in
  let c := center b in
  let r := {| xl := px c - s * lit_1_2; xh := px c + s * lit_1_2;
              yl := py c - s * lit_1_2; yh := py c + s * lit_1_2 |}%coord in
  let koef := ((xh r - xl r) / cmax (fabs (px dir)) (fabs (py dir)))%coord in
  let p := {| px := px o - px dir * koef; py := py o - py dir * koef |}%coord in
  let q := {| px := px o + px dir * koef; py := py o + py dir * koef |}%coord in
  (strictly_outside b p = true /\ strictly_outside r p = true)
  /\ (strictly_outside b q = true /\ strictly_outside r q = true).
Proof.
  intros (O1 & O2 & O3 & O4) Hdx Hdy Hnz s c r koef p q.
  destruct dir as [dx dy]. simpl in *.
  assert (Hdx' : Qabs dx <= s) by exact Hdx.
  assert (Hdy' : Qabs dy <= s) by exact Hdy.
  pose proof (nonzero_direction_scale dx dy Hnz) as HM.
  assert (Hw : xh b - xl b <= s) by apply cmax_Q.
  assert (Hh : yh b - yl b <= s) by apply cmax_Q.
  destruct (cmax_Q (Qabs dx) (Qabs dy)) as (Mx & My & Mcase).
  set (M := cmax (Qabs dx) (Qabs dy)) in *.
  set (S := (xh r - xl r)%coord).
  assert (HS : S == (12 # 5) * s).
  { subst S r c. simpl. exact_arith. ring. }
  assert (HMk : M * koef == S).
  { subst koef. exact_arith. apply Qmult_div_r. lra. }
  rewrite !strictly_outside_Q. subst p q r c. simpl.
  clearbody s M S. exact_arith. unfold Qdiv. change (/ inject_Z 2) with (1 # 2).
  assert (Hs : 0 < s).
  { eapply Qlt_le_trans; [exact HM|]. by destruct Mcase as [-> | ->]. }
  destruct Mcase as [E|E]; rewrite E in HMk.
  - destruct (step_leaves (xl b) (xh b) (px o) dx koef S) as [A1 A2]; [lra | lra | done |].
    destruct (step_leaves ((xh b + xl b) * (1 # 2) - s * (6 # 5))
                ((xh b + xl b) * (1 # 2) + s * (6 # 5)) (px o) dx koef S)
      as [B1 B2]; [lra | lra | done |].
    tauto.
  - destruct (step_leaves (yl b) (yh b) (py o) dy koef S) as [A1 A2]; [lra | lra | done |].
    destruct (step_leaves ((yh b + yl b) * (1 # 2) - s * (6 # 5))
                ((yh b + yl b) * (1 # 2) + s * (6 # 5)) (py o) dy koef S)
      as [B1 B2]; [lra | lra | done |].
    tauto.
Qed.

End Exact.

(** ** Clipping in exact arithmetic *)

Section ExactClipping.
Local Open Scope Q_scope.

(** C1, as amended.  In exact arithmetic, for an edge of the diagram in
    place after [construct_brect], whose ray has a direction that is not the
    zero vector: [clip_infinite_edge] appends exactly two points, and a point
    put in for an absent end lies strictly outside the bounding box of the
    sites as it was before [construct_brect], and strictly outside the
    inflated region as well.  A present end is pushed as the coordinates of
    the vertex, wherever it lies. *)
Theorem clipped_absent_ends_outside
    (f : site_file) (d : diagram Q) (w : widget Q Q) (e : edge_type)
    (out : list (point_type Q)) (o dir : point_type Q) :
  clip_origin_direction (framed f d w) e = Done (o, dir) ->
  point_eqb dir (pt 0 0) = false ->
  (forall v, vertex0 e = Some v \/ vertex1 e = Some v ->
     (v < length (vertices d))%nat) ->
  exists p q,
    clip_infinite_edge (framed f d w) e out = Done (out ++ [p; q])
    /\ (vertex0 e = None ->
        strictly_outside (brect_ (ingest f w)) p = true
        /\ strictly_outside (brect_ (framed f d w)) p = true)
    /\ (vertex1 e = None ->
        strictly_outside (brect_ (ingest f w)) q = true
        /\ strictly_outside (brect_ (framed f d w)) q = true)
    /\ (forall i v, vertex0 e = Some i -> vertices d !! i = Some v ->
        p = {| px := vx v; py := vy v |})
    /\ (forall i v, vertex1 e = Some i -> vertices d !! i = Some v ->
        q = {| px := vx v; py := vy v |}).
Proof.
  intros Hod Hnz Hv.
  eexists _, _. split; [exact (clip_infinite_edge_pushes _ e out o dir Hod Hv)|].
  destruct (origin_direction_bounds (framed f d w) (brect_ (ingest f w)) e o dir
              (ingest_sites_in_box f w) Hod) as (Ho & Hdx & Hdy).
  pose proof (ray_ends_outside (brect_ (ingest f w)) o dir Ho Hdx Hdy Hnz)
    as [Hminus Hplus].
  assert (Hrect : brect_ (framed f d w) = brect_ (construct_brect (ingest f w)))
    by reflexivity.
  rewrite Hrect, construct_brect_rect in *.
  split; [|split; [|split]].
  - intros E0. rewrite E0. exact Hminus.
  - intros E1. rewrite E1. exact Hplus.
  - intros i v E0 Hi. rewrite E0. unfold pushed_end.
    change (vertices (vd_ (framed f d w))) with (vertices d). by rewrite Hi.
  - intros i v E1 Hi. rewrite E1. unfold pushed_end.
    change (vertices (vd_ (framed f d w))) with (vertices d). by rewrite Hi.
Qed.

End ExactClipping.

(** ** The scenarios, run in binary64 *)

Section Binary64.

(** C6.  The two point sites [(0,0)] and [(10,0)]: [build] succeeds and
    leaves the two sites, the finalized region [-7,17] x [-12,12] of side 24
    and the two half-edges of the bisector, both ends absent.  The one is
    clipped to [(5,-24)] and [(5,24)], its twin to the same two points in the
    opposite order: two points on the line [x = 5], whose midpoint is [(5,0)]
    and whose distance from [(5,0)] is 24, the side of the finalized
    region. *)
Theorem two_sites_bisector_clipped :
  exists w : widget float spec_float,
    build (builder_of two_sites_diagram) 1 two_sites blank = Done w
    /\ point_data_ w = [pt 0 0; pt 10 0] /\ segment_data_ w = []
    /\ brect_ w = {| xl := -7; xh := 17; yl := -12; yh := 12 |}%float
    /\ (xh (brect_ w) - xl (brect_ w))%float = 24%float
    /\ edges (vd_ w) = [half_edge 0 1 None None 1 true false;
                         half_edge 1 0 None None 0 true false]
    /\ clip_infinite_edge w (half_edge 0 1 None None 1 true false) []
       = Done [{| px := 5; py := -24 |}; {| px := 5; py := 24 |}]%float
    /\ clip_infinite_edge w (half_edge 1 0 None None 0 true false) []
       = Done [{| px := 5; py := 24 |}; {| px := 5; py := -24 |}]%float
    /\ Forall (fun e =>
         vertex0 e = None /\ vertex1 e = None
         /\ exists p q,
              clip_infinite_edge w e [] = Done [p; q]
              /\ px p = 5%float /\ px q = 5%float
              /\ ((px p + px q) * 0.5 = 5 /\ (py p + py q) * 0.5 = 0)%float
              /\ distance p (pt 5 0) = 24%float
              /\ distance q (pt 5 0) = 24%float
              /\ distance p (pt 5 0) = (xh (brect_ w) - xl (brect_ w))%float
              /\ distance q (pt 5 0) = (xh (brect_ w) - xl (brect_ w))%float
              /\ PrimFloat.eqb (py p) (py q) = false)
         (edges (vd_ w)).
Proof.
  eexists. split; [vm_compute; reflexivity|].
  do 7 (split; [vm_compute; reflexivity|]).
  repeat constructor; eexists _, _;
    (split; [vm_compute; reflexivity|]); vm_compute; repeat split.
Qed.

(** C10, the statement of the specification refuted.  The bisector of the
    two sites [(0,0)] and [(10,0)] is clipped to [(5,-24)] and [(5,24)], and
    [shift_] is [(5,0)]: the buffer of the edge holds [(0,-24)] and [(0,24)],
    not the samples as they are. *)
Lemma edge_buffers_raw_fails :
  ~ edge_buffers_raw no_samples
      (framed two_sites two_sites_diagram (blank : widget float spec_float)).
Proof.
  intros Hclaim.
  set (w := framed two_sites two_sites_diagram (blank : widget float spec_float)) in *.
  eassert (Hs : edge_samples no_samples w (half_edge 0 1 None None 1 true false)
                = Done _) by (vm_compute; reflexivity).
  eassert (Hp : prepare_edge no_samples w ([], gl_ w) 0
                  (half_edge 0 1 None None 1 true false)
                = Done (fst ([], gl_ w) ++ [_], _)) by (vm_compute; reflexivity).
  pose proof (Hclaim _ _ _ _ _ _ Hs Hp) as Hraw.
  vm_compute in Hraw. discriminate Hraw.
Qed.

(** The region of the two sites is [-7,17] x [-12,12]: its side is 24. *)
Example two_sites_region :
  brect_ (framed two_sites two_sites_diagram (blank : widget float spec_float))
  = {| xl := -7; xh := 17; yl := -12; yh := 12 |}%float.
Proof. vm_compute. reflexivity. Qed.

(** C1, the statement of the specification refuted.  Three point sites
    [(0,0)], [(10,0)], [(0,10)]; the ray from the vertex [(5,5)] down the line
    [x = 5] is clipped to [(5,5)] and [(5,-24)]: the first point is the vertex
    itself, inside the box [0,10] x [0,10] of the sites. *)
Lemma clipping_totality_fails :
  ~ clipping_totality PrimFloat.is_finite three_sites three_sites_diagram
      (blank : widget float spec_float) (half_edge 1 0 (Some 0) None 5 true false).
Proof.
  intros Hclaim. destruct (Hclaim eq_refl) as (p & q & Hclip & _ & Hp & _).
  vm_compute in Hclip. injection Hclip as <- <-.
  vm_compute in Hp. discriminate.
Qed.

(** The same ray: the point put in for the absent end, [(5,-24)], is outside
    the inflated region [-7,17] x [-7,17] too. *)
Example three_sites_ray_clipped :
  let w : widget float spec_float := framed three_sites three_sites_diagram blank in
  clip_infinite_edge w (half_edge 1 0 (Some 0) None 5 true false) []
  = Done [{| px := 5; py := 5 |}; {| px := 5; py := -24 |}]%float
  /\ brect_ w = {| xl := -7; xh := 17; yl := -7; yh := 17 |}%float
  /\ strictly_outside (brect_ w) {| px := 5; py := -24 |}%float = true.
Proof. vm_compute. repeat split. Qed.

(** Given a diagram with a segment cell whose segment has coinciding ends,
    the direction of the ray is the zero vector and the points it is clipped
    to are not numbers. *)
Example zero_direction_gives_nan :
  let f := {| file_points := [(0, 1)%Z]; file_segments := [(0, 0, 0, 0)%Z] |} in
  let d : diagram float :=
    {| cells := [site_cell 1 SOURCE_CATEGORY_INITIAL_SEGMENT;
                 site_cell 0 SOURCE_CATEGORY_SINGLE_POINT];
       vertices := [];
       edges := [half_edge 0 1 None None 1 true false;
                 half_edge 1 0 None None 0 true false] |} in
  exists p q,
    clip_infinite_edge (framed f d (blank : widget float spec_float)) (half_edge 0 1 None None 1 true false) []
    = Done [p; q]
    /\ PrimFloat.is_nan (px p) = true /\ PrimFloat.is_nan (py q) = true.
Proof. eexists _, _. vm_compute. repeat split. Qed.

(** C2, the statement of the specification refuted.  The single site
    [(0,0)]: the finalized region is [0,0] x [0,0], which does not contain
    the site strictly; in binary64 and in exact arithmetic alike. *)
Lemma region_not_strict_for_one_site :
  ~ region_strictly_contains_sites one_site (blank : widget float spec_float)
  /\ ~ region_strictly_contains_sites one_site (blank : widget Q Q).
Proof.
  split; intros Hclaim; destruct (Hclaim eq_refl) as [_ Hin];
    specialize (Hin (pt 0 0)); vm_compute in Hin;
    (assert (false = true) as Hf; [apply Hin; left | discriminate Hf]).
Qed.

(** In binary64 the two sides of the finalized region can differ by a
    rounding error: the sites [(0,1)] and [(0,2)] give a region 2.4 wide and
    2.4000000000000004 high. *)
Example region_square_up_to_rounding :
  let f := {| file_points := [(0, 1)%Z; (0, 2)%Z]; file_segments := [] |} in
  let r := brect_ (construct_brect (ingest f (blank : widget float spec_float))) in
  (xh r - xl r = 0x1.3333333333333p+1 /\ yh r - yl r = 0x1.3333333333334p+1)%float
  /\ is_square r = false.
Proof. vm_compute. repeat split. Qed.

Example one_site_region :
  brect_ (construct_brect (ingest one_site (blank : widget float spec_float)))
  = {| xl := 0; xh := 0; yl := 0; yh := 0 |}%float.
Proof. vm_compute. reflexivity. Qed.

End Binary64.

(** ** The theorems at the scenarios *)

(** The ray of the three sites that runs down the line [x = 5], in exact
    arithmetic: the point put in for its absent end is outside both boxes. *)
Lemma clipped_absent_ends_outside_three_sites :
  let w : widget Q Q := blank in
  let e := half_edge 1 0 (Some 0) None 5 true false in
  exists p q,
    clip_infinite_edge (framed three_sites three_sites_diagram w) e []
    = Done ([] ++ [p; q])
    /\ (vertex0 e = None ->
        strictly_outside (brect_ (ingest three_sites w)) p = true
        /\ strictly_outside (brect_ (framed three_sites three_sites_diagram w)) p = true)
    /\ (vertex1 e = None ->
        strictly_outside (brect_ (ingest three_sites w)) q = true
        /\ strictly_outside (brect_ (framed three_sites three_sites_diagram w)) q = true)
    /\ (forall i v, vertex0 e = Some i ->
        vertices (three_sites_diagram : diagram Q) !! i = Some v ->
        p = {| px := vx v; py := vy v |})
    /\ (forall i v, vertex1 e = Some i ->
        vertices (three_sites_diagram : diagram Q) !! i = Some v ->
        q = {| px := vx v; py := vy v |}).
Proof.
  intros w e.
  eapply (clipped_absent_ends_outside three_sites three_sites_diagram w e [] _ _).
  - vm_compute. reflexivity.
  - reflexivity.
  - intros v [E|E]; [injection E as <-; simpl; lia | discriminate E].
Defined.

(** The two sites, in exact arithmetic: the region is a square that holds
    both sites strictly. *)
Lemma finalized_region_contains_two_sites :
  let w : widget Q Q := blank in
  let r := brect_ (construct_brect (ingest two_sites w)) in
  is_square r = true
  /\ (forall p, p ∈ site_points (ingest two_sites w) -> inside r p = true)
  /\ ((of_int 0 <? larger_side (brect_ (ingest two_sites w)))%coord = true ->
      forall p, p ∈ site_points (ingest two_sites w) -> strictly_inside r p = true).
Proof. exact (finalized_region_contains_sites two_sites blank eq_refl). Defined.

(** The three sites: the classification returns and twins agree. *)
Lemma classification_twins_agree_three_sites :
  let d : diagram float := three_sites_diagram in
  (exists fuel c', color_unbounded fuel d (fresh_colors d) = Done c')
  /\ forall fuel c', color_unbounded fuel d (fresh_colors d) = Done c' ->
       forall i e, edges d !! i = Some e ->
         get_edge_color c' i = get_edge_color c' (twin e).
Proof. exact (classification_twins_agree three_sites_diagram eq_refl). Defined.

(** The point and the segment: the classification is idempotent. *)
Lemma classification_idempotent_point_and_segment :
  let d : diagram float := point_and_segment_diagram in
  (exists fuel c', color_unbounded fuel d (fresh_colors d) = Done c'
     /\ color_unbounded fuel d c' = Done c')
  /\ forall fuel fuel' c', color_unbounded fuel d (fresh_colors d) = Done c' ->
       color_unbounded (S fuel') d c' = Done c'.
Proof. exact (classification_idempotent point_and_segment_diagram eq_refl). Defined.

(** The three sites: the call on the half-edge that runs up to the vertex
    returns. *)
Lemma color_exterior_terminates_three_sites :
  let d : diagram float := three_sites_diagram in
  (exists fuel c', color_exterior fuel d (fresh_colors d) 0 = Done c'
     /\ colors_fit d c' /\ get_edge_color c' 0 = EXTERNAL_COLOR)
  /\ (exists fuel c', color_unbounded fuel d (fresh_colors d) = Done c').
Proof.
  intros d.
  apply (color_exterior_terminates d (fresh_colors d) 0);
    [reflexivity | split; reflexivity | simpl; lia].
Defined.

(** The ray of the three sites that runs down the line [x = 5], in binary64. *)
Lemma clip_infinite_edge_formula_three_sites :
  let w : widget float spec_float := framed three_sites three_sites_diagram blank in
  let e := half_edge 1 0 (Some 0) None 5 true false in
  let o := {| px := 5; py := 0 |}%float in
  let dir := {| px := 0; py := -10 |}%float in
  let koef := ((xh (brect_ w) - xl (brect_ w))
               / cmax (fabs (px dir)) (fabs (py dir)))%coord in
  exists p q,
    clip_infinite_edge w e [] = Done ([] ++ [p; q])
    /\ (vertex0 e = None ->
        p = {| px := px o - px dir * koef; py := py o - py dir * koef |}%coord)
    /\ (forall i v, vertex0 e = Some i -> vertices (vd_ w) !! i = Some v ->
        p = {| px := vx v; py := vy v |})
    /\ (vertex1 e = None ->
        q = {| px := px o + px dir * koef; py := py o + py dir * koef |}%coord)
    /\ (forall i v, vertex1 e = Some i -> vertices (vd_ w) !! i = Some v ->
        q = {| px := vx v; py := vy v |}).
Proof.
  intros w e o dir koef.
  apply (clip_infinite_edge_formula w e [] o dir).
  - vm_compute. reflexivity.
  - intros v [E|E]; [injection E as <-; simpl; lia | discriminate E].
Defined.

(** The arc of the point and the segment: the sampler is handed
    [1E-3 * 24]. *)
Lemma sample_curved_edge_tolerance_arc :
  let w : widget float spec_float :=
    framed point_and_segment point_and_segment_diagram blank in
  let e := half_edge 2 1 (Some 0) (Some 1) 4 true true in
  let ends := [{| px := 0; py := 6.25 |}; {| px := 10; py := 6.25 |}]%float in
  exists point segment,
    ends = no_samples point segment
             (lit_1E_3 * (xh (brect_ w) - xl (brect_ w)))%coord ends.
Proof.
  intros w e ends.
  apply (sample_curved_edge_tolerance no_samples w e ends).
  vm_compute. reflexivity.
Defined.

(** A file without sites. *)
Lemma build_without_sites_no_site :
  let w : widget float spec_float := blank in
  build (builder_of two_sites_diagram) 0 no_site w = Done (clear w)
  /\ brect_initialized_ (clear w) = false
  /\ point_data_ (clear w) = [] /\ segment_data_ (clear w) = []
  /\ vd_ (clear w) = empty_diagram
  /\ gl_points_ (clear w) = [] /\ id_ (gl_segments_ (clear w)) = 0
  /\ gl_vertices_ (clear w) = [] /\ gl_edges_ (clear w) = []
  /\ (forall vbo,
        vbo ∈ gl_points_ w ++ [gl_segments_ w] ++ gl_vertices_ w ++ gl_edges_ w ->
        gl_buffer_data (gl_ (clear w)) !! id_ vbo = None)
  /\ brect_ (clear w) = brect_ w /\ shift_ (clear w) = shift_ w
  /\ projection_matrix_ (clear w) = projection_matrix_ w.
Proof.
  exact (build_without_sites (builder_of two_sites_diagram) 0 no_site blank eq_refl).
Defined.

(** The bisector of the two sites: it is clipped to [(5,-24)] and [(5,24)],
    [shift_] is [(5,0)], and its buffer holds [(0,-24)] and [(0,24)]. *)
Lemma edge_buffers_are_shifted_two_sites :
  let w : widget float spec_float := framed two_sites two_sites_diagram blank in
  let e := half_edge 0 1 None None 1 true false in
  shift_ w = {| px := 5; py := 0 |}%float
  /\ edge_samples no_samples w e
     = Done [{| px := 5; py := -24 |}; {| px := 5; py := 24 |}]%float
  /\ exists vbo ctx,
       prepare_edge no_samples w (gl_edges_ w, gl_ w) 0 e
       = Done (fst (gl_edges_ w, gl_ w) ++ [vbo], ctx)
       /\ gl_buffer_data ctx !! id_ vbo
          = Some (map (fun s => gl_point (deconvolve s (shift_ w)))
                    [{| px := 5; py := -24 |}; {| px := 5; py := 24 |}]%float)
       /\ gl_buffer_data ctx !! id_ vbo
          = Some (map gl_point [{| px := 0; py := -24 |}; {| px := 0; py := 24 |}]%float).
Proof.
  intros w e. split; [vm_compute; reflexivity|]. split; [vm_compute; reflexivity|].
  destruct (proj1 (edge_buffers_are_shifted no_samples no_rim w)
              (gl_edges_ w, gl_ w) 0%nat e
              [{| px := 5; py := -24 |}; {| px := 5; py := 24 |}]%float)
    as (vbo & ctx & Hrun & Hdata).
  - reflexivity.
  - reflexivity.
  - vm_compute. reflexivity.
  - exists vbo, ctx. split; [exact Hrun|]. split; [exact Hdata|].
    rewrite Hdata. vm_compute. reflexivity.
Defined.

(** * Further properties *)

Ltac exact_ops :=
  cbv [cadd csub cmul cdiv copp fabs cltb ceqb lit_1_2 lit_0_5 lit_1E_3 of_int
       narrow widen gl_of_int gl_div Q_coordinate Q_glfloat] in *.

(** ** The flood-fill: a budget, what it colors, what it leaves alone *)

Section FloodMore.
Context {T : Type}.
Implicit Types (d : diagram T) (c : colors).

Lemma adjacency_vertex_turns d v vd :
  adjacency_ok d = true -> vertices d !! v = Some vd ->
  exists k, S k <= length (edges d)
            /\ Nat.iter (S k) (rot_step d) (incident_edge vd) = incident_edge vd.
Proof.
  unfold adjacency_ok. rewrite !andb_true_iff. intros [_ Hc] Hv.
  rewrite forallb_forall in Hc.
  assert (Hin : In vd (vertices d))
    by (apply list_elem_of_In; eapply list_elem_of_lookup_2; eauto).
  specialize (Hc vd Hin). unfold rot_closed in Hc.
  rewrite andb_true_iff, existsb_exists in Hc.
  destruct Hc as [_ [k [Hk Hit]]].
  apply in_seq in Hk. apply Nat.eqb_eq in Hit.
  exists (k - 1). replace (S (k - 1)) with k by lia. split; [lia | done].
Qed.

Lemma uncolored_le_length c : uncolored c <= length (edge_color c).
Proof. unfold uncolored. apply length_filter. Qed.

(** The fuel that is enough with at most [m] edges left to color. *)
Lemma around_within d m fuel :
  adjacency_ok d = true ->
  (forall c e, colors_fit d c -> e < length (edges d) -> uncolored c <= m ->
     exists c', color_exterior fuel d c e = Done c'
       /\ colors_fit d c' /\ uncolored c' <= uncolored c) ->
  forall k first c e,
    colors_fit d c -> e < length (edges d) -> uncolored c <= m ->
    Nat.iter (S k) (rot_step d) e = first ->
    exists c', color_around (S k + fuel) d first c e = Done c'
      /\ colors_fit d c' /\ uncolored c' <= uncolored c.
Proof.
  intros Hok IH. induction k as [|k IHk]; intros first c e Hfit He Hm Hit.
  - destruct (IH c e Hfit He Hm) as (c1 & Hrun & Hfit1 & Hm1).
    destruct (lookup_lt_is_Some_2 _ _ He) as [ed Hed].
    exists c1. split; [|done]. simpl. rewrite Hrun. simpl.
    rewrite (proj2 (deref_Done _ _ _) Hed). simpl.
    simpl in Hit. rewrite (rot_step_lookup _ _ _ Hed) in Hit.
    rewrite Hit, Nat.eqb_refl. done.
  - destruct (IH c e Hfit He Hm) as (c1 & Hrun & Hfit1 & Hm1).
    destruct (lookup_lt_is_Some_2 _ _ He) as [ed Hed].
    destruct (adjacency_edge d e ed Hok Hed) as (_ & Hn & _).
    rewrite Nat.iter_succ_r, (rot_step_lookup _ _ _ Hed) in Hit.
    change (S (S k) + fuel) with (S (S k + fuel)).
    cbn [color_around].
    rewrite (proj1 (fuel_mono d fuel) _ _ _ Hrun (S k + fuel)) by lia.
    simpl. rewrite (proj2 (deref_Done _ _ _) Hed). simpl.
    destruct (rot_next ed =? first) eqn:Heq.
    + exists c1. done.
    + destruct (IHk first c1 (rot_next ed) Hfit1 Hn ltac:(lia) Hit)
        as (c2 & Hrun2 & Hfit2 & Hm2).
      exists c2. split; [exact Hrun2|]. split; [done|lia].
Qed.

Lemma exterior_within d :
  adjacency_ok d = true ->
  forall m c e, colors_fit d c -> e < length (edges d) -> uncolored c <= m ->
    exists c', color_exterior (S (m * S (length (edges d)))) d c e = Done c'
      /\ colors_fit d c' /\ uncolored c' <= uncolored c.
Proof.
  intros Hok. induction m as [|m IH]; intros c e Hfit He Hm;
    destruct (lookup_lt_is_Some_2 _ _ He) as [ed Hed];
    destruct (adjacency_edge d e ed Hok Hed) as (Htw & Hn & Hv1);
    destruct (decide (get_edge_color c e = EXTERNAL_COLOR)) as [Hc|Hc].
  - exists c. split; [|done]. simpl.
    rewrite (proj2 (deref_Done _ _ _) Hed). simpl.
    apply Nat.eqb_eq in Hc. by rewrite Hc.
  - pose proof (uncolored_set_lt c e ltac:(destruct Hfit; lia) Hc). lia.
  - exists c. split; [|done]. cbn [color_exterior].
    rewrite (proj2 (deref_Done _ _ _) Hed). simpl.
    apply Nat.eqb_eq in Hc. by rewrite Hc.
  - set (c1 := set_edge_color e EXTERNAL_COLOR c).
    set (c2 := set_edge_color (twin ed) EXTERNAL_COLOR c1).
    assert (Hlt : uncolored c2 < uncolored c).
    { pose proof (uncolored_set_le c1 (twin ed)).
      pose proof (uncolored_set_lt c e ltac:(destruct Hfit; lia) Hc).
      subst c1 c2. lia. }
    assert (Hfit2 : colors_fit d c2) by (by do 2 apply colors_fit_set_edge).
    destruct (lookup_lt_is_Some_2 _ _ Htw) as [tw Htwd].
    remember (S m * S (length (edges d))) as F eqn:HF.
    cbn [color_exterior].
    rewrite (proj2 (deref_Done _ _ _) Hed). simpl.
    apply Nat.eqb_neq in Hc. rewrite Hc.
    rewrite (proj2 (deref_Done _ _ _) Htwd). simpl.
    fold c1. fold c2.
    destruct (vertex1 ed) as [v|] eqn:Ev; [|exists c2; split; [done|split; [done|lia]]].
    destruct (is_primary ed) eqn:Ep; simpl;
      [|exists c2; split; [done|split; [done|lia]]].
    specialize (Hv1 v eq_refl).
    destruct (lookup_lt_is_Some_2 _ _ Hv1) as [vd Hvd].
    destruct (adjacency_vertex_turns d v vd Hok Hvd) as (k & Hk & Hturn).
    assert (Hinc : incident_edge vd < length (edges d)).
    { by destruct (adjacency_vertex d v vd Hok Hvd). }
    rewrite (proj2 (deref_Done _ _ _) Hvd). simpl.
    set (c3 := set_vertex_color v EXTERNAL_COLOR c2).
    assert (Hfit3 : colors_fit d c3) by (by apply colors_fit_set_vertex).
    destruct (around_within d m (S (m * S (length (edges d)))) Hok IH k
                (incident_edge vd) c3 (incident_edge vd) Hfit3 Hinc
                ltac:(change (uncolored c3) with (uncolored c2); lia) Hturn)
      as (c' & Hrun & Hfit' & Hm').
    exists c'. split.
    + apply (proj2 (fuel_mono d _) _ _ _ _ Hrun). subst F. simpl. lia.
    + split; [done|]. change (uncolored c3) with (uncolored c2) in Hm'. lia.
Qed.

Lemma pass_within d fuel :
  (forall c e, colors_fit d c -> e < length (edges d) ->
     exists c', color_exterior fuel d c e = Done c' /\ colors_fit d c') ->
  forall l i c, i + length l <= length (edges d) -> colors_fit d c ->
    exists c', for_each (color_step fuel d) i l c = Done c' /\ colors_fit d c'.
Proof.
  intros Hcall. induction l as [|it l IH]; intros i c Hlen Hfit; simpl in *.
  { by exists c. }
  unfold color_step at 1. destruct (is_finite it); simpl.
  - apply IH; [lia | done].
  - destruct (Hcall c i Hfit ltac:(lia)) as (c1 & Hrun & Hfit1).
    rewrite Hrun. simpl. apply IH; [lia | done].
Qed.

(** X1.  The flood-fill of a diagram of [n] half-edges that satisfies the
    adjacency invariants needs no more than [n * (n + 1) + 1] units of fuel:
    with that budget the loop of [build] over the edges returns, from any
    color table that covers the diagram. *)
Theorem color_unbounded_within_bound d c :
  adjacency_ok d = true -> colors_fit d c ->
  exists c', color_unbounded (fuel_bound d) d c = Done c' /\ colors_fit d c'.
Proof.
  intros Hok Hfit. unfold color_unbounded.
  apply (pass_within d (fuel_bound d)); [|simpl; lia|done].
  intros c0 e Hfit0 He.
  destruct (exterior_within d Hok (length (edges d)) c0 e Hfit0 He) as (c' & Hrun & Hfit' & _).
  { destruct Hfit0 as [<- _]. apply uncolored_le_length. }
  exists c'. split; [exact Hrun | done].
Qed.


(** X2.  When the loop of [build] over the edges of a fresh diagram that
    satisfies the adjacency invariants has returned, every unbounded
    half-edge is [EXTERNAL_COLOR], and so is its twin. *)
Theorem unbounded_edges_and_twins_colored d fuel c' :
  adjacency_ok d = true ->
  color_unbounded fuel d (fresh_colors d) = Done c' ->
  forall i e, edges d !! i = Some e -> is_finite e = false ->
    get_edge_color c' i = EXTERNAL_COLOR
    /\ get_edge_color c' (twin e) = EXTERNAL_COLOR.
Proof.
  intros Hok Hrun i e Hi Hinf. rewrite color_unbounded_unfold in Hrun.
  destruct (pass_colors_unbounded d fuel _ _ _ _ (colors_fit_fresh d) Hrun)
    as (_ & _ & Hall).
  assert (Hcol : get_edge_color c' i = EXTERNAL_COLOR) by (by apply (Hall i e)).
  split; [exact Hcol|].
  assert (Hinv : colors_fit d c' /\ twins_agree d c').
  { eapply (pass_invariant d fuel (fun c => colors_fit d c /\ twins_agree d c));
      [| |exact Hrun].
    - intros c e0 c1 [Hf Hs] E. split.
      + by destruct (proj1 (exterior_effect d fuel) _ _ _ Hf E).
      + eapply (proj1 (exterior_twins d Hok fuel)); eauto.
    - split; [apply colors_fit_fresh | apply twins_agree_fresh]. }
  destruct Hinv as [_ Hsym]. by rewrite <- (Hsym i e Hi).
Qed.

(** *** Nothing but the exterior is colored *)

Lemma get_edge_after_set c e i :
  get_edge_color (set_edge_color e EXTERNAL_COLOR c) i = EXTERNAL_COLOR ->
  i = e \/ get_edge_color c i = EXTERNAL_COLOR.
Proof.
  intros Hi. destruct (decide (e = i)) as [->|Hne]; [by left|].
  right. by rewrite get_set_edge_ne in Hi.
Qed.

Lemma get_vertex_after_set c v i :
  get_vertex_color (set_vertex_color v EXTERNAL_COLOR c) i = EXTERNAL_COLOR ->
  i = v \/ get_vertex_color c i = EXTERNAL_COLOR.
Proof.
  intros Hi. destruct (decide (v = i)) as [->|Hne]; [by left|].
  right. unfold get_vertex_color, set_vertex_color in *; simpl in *.
  by rewrite list_lookup_insert_ne in Hi.
Qed.

Lemma colors_sound_fresh d : colors_sound d (fresh_colors d).
Proof.
  assert (Hz : forall n j, default 0 (replicate n 0 !! j) = 0).
  { intros n j. destruct (replicate _ _ !! j) as [x|] eqn:E; [|done].
    apply lookup_replicate in E. by destruct E as [-> _]. }
  split.
  - intros i Hi. unfold get_edge_color, fresh_colors in Hi; simpl in Hi.
    rewrite Hz in Hi. discriminate.
  - intros v Hv. unfold get_vertex_color, fresh_colors in Hv; simpl in Hv.
    rewrite Hz in Hv. discriminate.
Qed.

Lemma exterior_sound d :
  forall fuel,
    (forall c e c', colors_sound d c -> exterior_reach d e ->
       color_exterior fuel d c e = Done c' -> colors_sound d c')
    /\ (forall first c e c', colors_sound d c ->
          (forall k, exterior_reach d (Nat.iter k (rot_step d) e)) ->
          color_around fuel d first c e = Done c' -> colors_sound d c').
Proof.
  induction fuel as [|fuel [IHe IHa]]; [split; intros; discriminate|].
  split.
  - intros c e c' [Hse Hsv] Hreach Hrun. simpl in Hrun.
    destruct (deref (edges d) e) as [ed| |] eqn:Hed; simpl in Hrun; try done.
    apply deref_Done in Hed.
    destruct (get_edge_color c e =? EXTERNAL_COLOR); [by injection Hrun as <-|].
    destruct (deref (edges d) (twin ed)) as [tw| |]; simpl in Hrun; try done.
    set (c2 := set_edge_color (twin ed) EXTERNAL_COLOR
                 (set_edge_color e EXTERNAL_COLOR c)) in *.
    assert (Hs2 : colors_sound d c2).
    { split; [|exact Hsv]. intros i Hi.
      apply get_edge_after_set in Hi. destruct Hi as [->|Hi].
      - by apply (reach_twin d e ed).
      - apply get_edge_after_set in Hi. destruct Hi as [->|Hi]; auto. }
    destruct (vertex1 ed) as [v|] eqn:Ev; [|by injection Hrun as <-].
    destruct (is_primary ed) eqn:Ep; simpl in Hrun; [|by injection Hrun as <-].
    destruct (deref (vertices d) v) as [vd| |] eqn:Hvd; simpl in Hrun; try done.
    apply deref_Done in Hvd.
    eapply IHa; [| |exact Hrun].
    + destruct Hs2 as [Hse2 Hsv2]. split; [exact Hse2|].
      intros v' Hv'. apply get_vertex_after_set in Hv'.
      destruct Hv' as [->|Hv']; [|by apply Hsv2].
      by exists e, ed.
    + intros k. by apply (reach_around d e ed v vd k).
  - intros first c e c' Hs Hreach Hrun. simpl in Hrun.
    destruct (color_exterior fuel d c e) as [c1| |] eqn:E1; simpl in Hrun; try done.
    pose proof (IHe _ _ _ Hs (Hreach 0) E1) as Hs1.
    destruct (deref (edges d) e) as [ed| |] eqn:Hed; simpl in Hrun; try done.
    apply deref_Done in Hed.
    destruct (rot_next ed =? first); [by injection Hrun as <-|].
    eapply IHa; [exact Hs1| |exact Hrun].
    intros k. rewrite <- (rot_step_lookup d e ed Hed), <- Nat.iter_succ_r.
    apply Hreach.
Qed.

Lemma pass_sound d fuel :
  forall l i c c',
    (forall j it, l !! j = Some it -> edges d !! (i + j) = Some it) ->
    colors_sound d c -> for_each (color_step fuel d) i l c = Done c' ->
    colors_sound d c'.
Proof.
  induction l as [|it l IH]; intros i c c' Hl Hs Hrun; simpl in *.
  { by injection Hrun as <-. }
  assert (Hl' : forall j it', l !! j = Some it' -> edges d !! (S i + j) = Some it').
  { intros j it' Hj. replace (S i + j) with (i + S j) by lia. by apply Hl. }
  unfold color_step at 1 in Hrun. destruct (is_finite it) eqn:Efin; simpl in *.
  - eapply (IH (S i)); [exact Hl'|exact Hs|exact Hrun].
  - destruct (color_exterior fuel d c i) as [c1| |] eqn:E1; simpl in Hrun; try done.
    eapply (IH (S i)); [exact Hl'| |exact Hrun].
    eapply (proj1 (exterior_sound d fuel)); [exact Hs| |exact E1].
    apply (reach_unbounded d i it); [|done].
    specialize (Hl 0 it eq_refl). by rewrite Nat.add_0_r in Hl.
Qed.

(** X3.  The flood-fill colors nothing but the exterior: after the loop of
    [build] over the edges of a fresh diagram, an [EXTERNAL_COLOR] edge is
    an unbounded edge, or the twin of an edge reached, or lies in the
    rotational list of the vertex where a primary edge reached ends; an
    [EXTERNAL_COLOR] vertex is the end of such a primary edge. *)
Theorem only_the_exterior_is_colored d fuel c' :
  color_unbounded fuel d (fresh_colors d) = Done c' ->
  (forall i, get_edge_color c' i = EXTERNAL_COLOR -> exterior_reach d i)
  /\ (forall v, get_vertex_color c' v = EXTERNAL_COLOR ->
        exists i e, exterior_reach d i /\ edges d !! i = Some e
                    /\ is_primary e = true /\ vertex1 e = Some v).
Proof.
  intros Hrun. rewrite color_unbounded_unfold in Hrun.
  apply (pass_sound d fuel (edges d) 0 (fresh_colors d) c'); [done| |done].
  apply colors_sound_fresh.
Qed.

End FloodMore.

(** ** Reading the sites and finding them again *)

Section IngestMore.
Context {T G : Type} `{Coordinate T} `{GLFloat T G}.
Implicit Types (w : widget T G).

Lemma update_brect_sites p w :
  point_data_ (update_brect p w) = point_data_ w
  /\ segment_data_ (update_brect p w) = segment_data_ w.
Proof. unfold update_brect. by destruct (brect_initialized_ w). Qed.

Lemma read_points_sites l w :
  point_data_ (foldl read_point w l) = point_data_ w ++ map site_point l
  /\ segment_data_ (foldl read_point w l) = segment_data_ w.
Proof.
  revert w. induction l as [|xy l IH]; intros w; simpl.
  - by rewrite app_nil_r.
  - destruct (IH (read_point w xy)) as [-> ->]. unfold read_point; simpl.
    rewrite (proj1 (update_brect_sites _ w)), (proj2 (update_brect_sites _ w)).
    by rewrite <- app_assoc.
Qed.

Lemma read_segments_sites l w :
  point_data_ (foldl read_segment w l) = point_data_ w
  /\ segment_data_ (foldl read_segment w l) = segment_data_ w ++ map site_segment l.
Proof.
  revert w. induction l as [|s l IH]; intros w; simpl.
  - by rewrite app_nil_r.
  - destruct (IH (read_segment w s)) as [-> ->].
    destruct s as [[[x1 y1] x2] y2]. unfold read_segment; simpl.
    rewrite !(proj1 (update_brect_sites _ _)), !(proj2 (update_brect_sites _ _)).
    by rewrite <- app_assoc.
Qed.

Lemma ingest_sites f w :
  point_data_ (ingest f w) = map site_point (file_points f)
  /\ segment_data_ (ingest f w) = map site_segment (file_segments f).
Proof.
  unfold ingest, read_data.
  destruct (read_segments_sites (file_segments f)
              (foldl read_point (clear w) (file_points f))) as [-> ->].
  destruct (read_points_sites (file_points f) (clear w)) as [-> ->].
  unfold clear. by repeat case_match.
Qed.

(** X4.  [build] starts from the sites of the file alone: after [clear] and
    [read_data] the point sites are the pairs of the file, in the order of the
    file, and the segment sites its quadruples; nothing of the sites loaded
    before is left, whatever the widget was. *)
Theorem sites_are_those_of_the_file f w :
  point_data_ (read_data f (clear w)) = map site_point (file_points f)
  /\ segment_data_ (read_data f (clear w)) = map site_segment (file_segments f)
  /\ length (site_points (read_data f (clear w)))
     = length (file_points f) + 2 * length (file_segments f).
Proof.
  destruct (ingest_sites f w) as [Hp Hs]. unfold ingest in *.
  split; [exact Hp|]. split; [exact Hs|].
  unfold site_points. rewrite Hp, Hs, length_app, length_map.
  f_equal. clear Hs. induction (file_segments f) as [|s l IH]; simpl; [done|].
  rewrite IH. lia.
Qed.


(** *** From a cell back to its site *)

Lemma at_index_lookup {A} (l : list A) (i : nat) (a : A) :
  l !! i = Some a -> at_index l (N.of_nat i) = Done a.
Proof.
  intros Hi. unfold at_index.
  assert (Hlt : (N.of_nat i <? N.of_nat (length l))%N = true).
  { apply N.ltb_lt. apply lookup_lt_Some in Hi. lia. }
  rewrite Hlt, Nat2N.id. by apply deref_Done.
Qed.

Lemma at_index_beyond {A} (l : list A) (i : N) :
  (N.of_nat (length l) <= i)%N -> at_index l i = Crash.
Proof.
  intros Hi. unfold at_index.
  assert (Hge : (i <? N.of_nat (length l))%N = false) by (apply N.ltb_ge; lia).
  by rewrite Hge.
Qed.

Lemma size_t_sub_exact (a b : nat) :
  (Z.of_nat (a + b) < 2 ^ 64)%Z ->
  size_t_sub (N.of_nat (a + b)) (N.of_nat a) = N.of_nat b.
Proof.
  intros Hlt. unfold size_t_sub.
  replace (Z.of_N (N.of_nat (a + b)) - Z.of_N (N.of_nat a))%Z with (Z.of_nat b) by lia.
  rewrite Z.mod_small by lia. lia.
Qed.

Lemma size_t_sub_wraps (a b : N) :
  (a < b)%N -> (Z.of_N b <= 2 ^ 64)%Z ->
  Z.of_N (size_t_sub a b) = (2 ^ 64 + Z.of_N a - Z.of_N b)%Z.
Proof.
  intros Hlt Hb. unfold size_t_sub.
  rewrite Z2N.id by (apply Z.mod_pos_bound; lia).
  replace (Z.of_N a - Z.of_N b)%Z with ((2 ^ 64 + Z.of_N a - Z.of_N b) + (-1) * 2 ^ 64)%Z
    by lia.
  rewrite Z.mod_add by lia. apply Z.mod_small. lia.
Qed.

(** X5.  The sites are found again under the indices the diagram builder is
    given them with: after [clear] and [read_data], a cell of a single point
    with source index [i] retrieves the [i]-th pair of the file; a cell with
    source index (number of points) + [j] retrieves the [j]-th segment, its
    low end when the cell is that of the start point and its high end when it
    is that of the end point. *)
Theorem sites_found_by_source_index f w :
  let w' := read_data f (clear w) in
  let np := length (file_points f) in
  (forall i xy, file_points f !! i = Some xy ->
     retrieve_point w' (site_cell (N.of_nat i) SOURCE_CATEGORY_SINGLE_POINT)
     = Done (site_point xy))
  /\ (forall j s k, file_segments f !! j = Some s ->
        (Z.of_nat (np + j) < 2 ^ 64)%Z ->
        retrieve_segment w' (site_cell (N.of_nat (np + j)) k) = Done (site_segment s)
        /\ retrieve_point w' (site_cell (N.of_nat (np + j))
                                SOURCE_CATEGORY_SEGMENT_START_POINT)
           = Done (low (site_segment s))
        /\ retrieve_point w' (site_cell (N.of_nat (np + j))
                                SOURCE_CATEGORY_SEGMENT_END_POINT)
           = Done (high (site_segment s))).
Proof.
  intros w' np. destruct (ingest_sites f w) as [Hp Hs].
  fold w' in Hp. unfold ingest in Hp, Hs. fold w' in Hp, Hs.
  assert (Hnp : length (point_data_ w') = np) by (by rewrite Hp, length_map).
  split.
  - intros i xy Hi. unfold retrieve_point; simpl.
    apply at_index_lookup. rewrite Hp, list_lookup_fmap, Hi. done.
  - intros j s k Hj Hlt.
    assert (Hseg : at_index (segment_data_ w')
                     (size_t_sub (N.of_nat (np + j)) (N.of_nat (length (point_data_ w'))))
                   = Done (site_segment s)).
    { rewrite Hnp, size_t_sub_exact by done.
      apply at_index_lookup. rewrite Hs, list_lookup_fmap, Hj. done. }
    split; [exact Hseg|].
    split; unfold retrieve_point; simpl; rewrite Hseg; reflexivity.
Qed.

(** X6.  A cell whose source index is that of a point site has no segment:
    with fewer than [2^64] sites in all, the subtraction of [retrieve_segment]
    wraps around and [segment_data_] is indexed out of its range; so it is for
    [retrieve_point] when such a cell is not that of a single point. *)
Theorem segment_of_a_point_index_is_out_of_range w (cl : cell_type) :
  (source_index cl < N.of_nat (length (point_data_ w)))%N ->
  (Z.of_nat (length (point_data_ w) + length (segment_data_ w)) <= 2 ^ 64)%Z ->
  retrieve_segment w cl = Crash
  /\ (cell_category cl <> SOURCE_CATEGORY_SINGLE_POINT -> retrieve_point w cl = Crash).
Proof.
  intros Hidx Hsize.
  pose proof (size_t_sub_wraps (source_index cl) (N.of_nat (length (point_data_ w)))
                Hidx ltac:(lia)) as Hwrap.
  assert (Hout : at_index (segment_data_ w)
                   (size_t_sub (source_index cl) (N.of_nat (length (point_data_ w))))
                 = Crash).
  { apply at_index_beyond. lia. }
  split; [exact Hout|].
  intros Hcat. unfold retrieve_point.
  rewrite bool_decide_eq_false_2 by done.
  rewrite Hout. by case_bool_decide.
Qed.

(** *** The bounding box is tight *)

Lemma cmin_either (a b : T) : cmin a b = a \/ cmin a b = b.
Proof. unfold cmin. destruct (cltb b a); auto. Qed.

Lemma cmax_either (a b : T) : cmax a b = a \/ cmax a b = b.
Proof. unfold cmax. destruct (cltb a b); auto. Qed.

Lemma sides_attained_more (r : rect_type T) (l l' : list (point_type T)) :
  l ⊆ l' -> sides_attained r l -> sides_attained r l'.
Proof.
  intros Hsub (A & B & C & D).
  repeat split; [destruct A as (p & ? & ?) | destruct B as (p & ? & ?)
                | destruct C as (p & ? & ?) | destruct D as (p & ? & ?)];
    exists p; split; auto.
Qed.

Lemma sides_attained_encompass (r : rect_type T) (l : list (point_type T)) p :
  sides_attained r l -> sides_attained (encompass r p) (p :: l).
Proof.
  intros (A & B & C & D). unfold encompass, sides_attained; simpl.
  repeat split.
  - destruct (cmin_either (px p) (xl r)) as [-> | ->].
    + exists p. split; [left|done].
    + destruct A as (q & ? & ?). exists q. split; [by right|done].
  - destruct (cmax_either (px p) (xh r)) as [-> | ->].
    + exists p. split; [left|done].
    + destruct B as (q & ? & ?). exists q. split; [by right|done].
  - destruct (cmin_either (py p) (yl r)) as [-> | ->].
    + exists p. split; [left|done].
    + destruct C as (q & ? & ?). exists q. split; [by right|done].
  - destruct (cmax_either (py p) (yh r)) as [-> | ->].
    + exists p. split; [left|done].
    + destruct D as (q & ? & ?). exists q. split; [by right|done].
Qed.

Lemma sides_attained_set_points p : sides_attained (set_points p p) [p].
Proof.
  unfold set_points, sides_attained; simpl.
  repeat split; exists p; (split; [left|]);
    first [by destruct (cmin_either (px p) (px p)) as [-> | ->]
          | by destruct (cmax_either (px p) (px p)) as [-> | ->]
          | by destruct (cmin_either (py p) (py p)) as [-> | ->]
          | by destruct (cmax_either (py p) (py p)) as [-> | ->]].
Qed.

Lemma update_brect_tight w p (l : list (point_type T)) :
  (brect_initialized_ w = true -> sides_attained (brect_ w) l) ->
  sides_attained (brect_ (update_brect p w)) (p :: l).
Proof.
  intros Hl. unfold update_brect. destruct (brect_initialized_ w); simpl.
  - apply sides_attained_encompass. by apply Hl.
  - apply (sides_attained_more _ [p]); [|apply sides_attained_set_points].
    intros q Hq. apply list_elem_of_singleton in Hq. subst q. left.
Qed.

Lemma read_point_tight w xy : tight_inv w -> tight_inv (read_point w xy).
Proof.
  intros [Hf Ht]. unfold read_point.
  set (p := {| px := of_int (fst xy); py := of_int (snd xy) |}).
  split; simpl; [by rewrite update_brect_initialized|]. intros _.
  apply (sides_attained_more _ (p :: site_points w));
    [|by apply update_brect_tight].
  unfold site_points; simpl.
  rewrite (proj1 (update_brect_sites _ w)), (proj2 (update_brect_sites _ w)).
  intros q Hq. rewrite !elem_of_app. apply elem_of_cons in Hq.
  destruct Hq as [->|Hq].
  - left. right. left.
  - apply elem_of_app in Hq. destruct Hq; [left; by left | by right].
Qed.

Lemma read_segment_tight w s : tight_inv w -> tight_inv (read_segment w s).
Proof.
  intros [Hf Ht]. destruct s as [[[x1 y1] x2] y2]. unfold read_segment.
  set (lp := {| px := of_int x1; py := of_int y1 |}).
  set (hp := {| px := of_int x2; py := of_int y2 |}).
  split; simpl; [by rewrite update_brect_initialized|]. intros _.
  apply (sides_attained_more _ (hp :: lp :: site_points w)).
  - unfold site_points; simpl.
    rewrite !(proj1 (update_brect_sites _ _)), !(proj2 (update_brect_sites _ _)).
    rewrite flat_map_app. simpl.
    intros q Hq. rewrite !elem_of_app. rewrite !elem_of_cons in *.
    rewrite elem_of_app in Hq. tauto.
  - apply update_brect_tight. intros _. by apply update_brect_tight.
Qed.

Lemma clear_tight w : tight_inv (clear w).
Proof.
  split.
  - intros _. unfold clear. by repeat case_match.
  - rewrite clear_uninitialized. done.
Qed.

(** X7.  Every side of the bounding box is attained: once a site has been
    read, each of the four sides of [brect_] after [read_data] goes through a
    coordinate pair read (in binary64 as in any arithmetic: [encompass] only
    ever picks one of two coordinates). *)
Theorem bounding_box_sides_attained f w :
  brect_initialized_ (read_data f (clear w)) = true ->
  sides_attained (brect_ (read_data f (clear w))) (site_points (read_data f (clear w))).
Proof.
  intros Hinit.
  assert (Hinv : tight_inv (read_data f (clear w))).
  { unfold read_data. apply foldl_inv; [apply read_segment_tight|].
    apply foldl_inv; [apply read_point_tight|]. apply clear_tight. }
  by apply Hinv.
Qed.

End IngestMore.

(** ** [build] *)

Section BuildMore.
Context {T G : Type} `{Coordinate T} `{GLFloat T G}.
Implicit Types (w : widget T G).

Lemma update_brect_same p w1 w2 :
  same_reading w1 w2 -> same_reading (update_brect p w1) (update_brect p w2).
Proof.
  intros (Hp & Hs & Hi & Hr). unfold update_brect. rewrite <- Hi.
  destruct (brect_initialized_ w1) eqn:E; simpl.
  - rewrite <- (Hr eq_refl). by repeat split.
  - by repeat split.
Qed.

Lemma read_point_same xy w1 w2 :
  same_reading w1 w2 -> same_reading (read_point w1 xy) (read_point w2 xy).
Proof.
  intros Hsame. unfold read_point.
  destruct (update_brect_same (pt (fst xy) (snd xy)) w1 w2 Hsame) as (Hp & Hs & Hi & Hr).
  unfold pt in *. repeat split; simpl; [by rewrite Hp | done | done | done].
Qed.

Lemma read_segment_same s w1 w2 :
  same_reading w1 w2 -> same_reading (read_segment w1 s) (read_segment w2 s).
Proof.
  intros Hsame. destruct s as [[[x1 y1] x2] y2]. unfold read_segment.
  pose proof (update_brect_same (pt x1 y1) w1 w2 Hsame) as Hsame1.
  destruct (update_brect_same (pt x2 y2) _ _ Hsame1) as (Hp & Hs & Hi & Hr).
  unfold pt in *. repeat split; simpl; [done | by rewrite Hs | done | done].
Qed.

Lemma foldl_same {A} (f : widget T G -> A -> widget T G) :
  (forall a w1 w2, same_reading w1 w2 -> same_reading (f w1 a) (f w2 a)) ->
  forall l w1 w2, same_reading w1 w2 -> same_reading (foldl f w1 l) (foldl f w2 l).
Proof. intros Hf. induction l; simpl; auto. Qed.

Lemma ingest_same f w1 w2 : same_reading (ingest f w1) (ingest f w2).
Proof.
  unfold ingest, read_data.
  apply foldl_same; [intros; by apply read_segment_same|].
  apply foldl_same; [intros; by apply read_point_same|].
  unfold clear. repeat case_match. by repeat split.
Qed.

(** [read_data] writes the sites and the region, nothing else. *)
Lemma read_data_keeps {A} (g : widget T G -> A) :
  (forall r b w, g (with_region r b w) = g w) ->
  (forall ps ss w, g (with_sites ps ss w) = g w) ->
  forall f w, g (read_data f w) = g w.
Proof.
  intros Hr Hs f w. unfold read_data.
  assert (Hu : forall p w0, g (update_brect p w0) = g w0).
  { intros p w0. unfold update_brect. destruct (brect_initialized_ w0); apply Hr. }
  assert (Hpt : forall l w0, g (foldl read_point w0 l) = g w0).
  { induction l as [|xy l IH]; intros w0; simpl; [done|].
    rewrite IH. unfold read_point. by rewrite Hs, Hu. }
  assert (Hsg : forall l w0, g (foldl read_segment w0 l) = g w0).
  { induction l as [|sg l IH]; intros w0; simpl; [done|].
    rewrite IH. destruct sg as [[[x1 y1] x2] y2]. unfold read_segment.
    by rewrite Hs, !Hu. }
  by rewrite Hsg, Hpt.
Qed.

(** X8.  For a file with a site, if [build] returns on one widget it returns
    on any other, with the same sites, the same region and shift, the same
    diagram and the same colors; both end with empty caches of points, of
    vertices and of edges. *)
Theorem build_forgets_history
    (construct_voronoi : list (point_type T) -> list (segment_type T) -> diagram T)
    (fuel : nat) (f : site_file) w1 w2 r1 :
  brect_initialized_ (read_data f (clear w1)) = true ->
  build construct_voronoi fuel f w1 = Done r1 ->
  exists r2,
    build construct_voronoi fuel f w2 = Done r2
    /\ point_data_ r2 = point_data_ r1 /\ segment_data_ r2 = segment_data_ r1
    /\ brect_ r2 = brect_ r1 /\ shift_ r2 = shift_ r1
    /\ brect_initialized_ r2 = true /\ brect_initialized_ r1 = true
    /\ vd_ r2 = vd_ r1 /\ vd_colors_ r2 = vd_colors_ r1
    /\ gl_points_ r1 = [] /\ gl_vertices_ r1 = [] /\ gl_edges_ r1 = []
    /\ gl_points_ r2 = [] /\ gl_vertices_ r2 = [] /\ gl_edges_ r2 = [].
Proof.
  intros Hinit Hrun.
  destruct (ingest_same f w1 w2) as (Hp & Hs & Hi & Hr).
  unfold ingest in *. specialize (Hr Hinit).
  unfold build in *. rewrite <- Hi. rewrite Hinit in *. simpl in *.
  rewrite <- Hp, <- Hs.
  set (d := construct_voronoi (point_data_ (read_data f (clear w1)))
              (segment_data_ (read_data f (clear w1)))) in *.
  destruct (color_unbounded fuel d (fresh_colors d)) as [c| |]; simpl in *; try done.
  injection Hrun as <-.
  eexists. split; [reflexivity|]. simpl.
  rewrite <- Hr, <- Hp, <- Hs, <- Hi.
  rewrite !(read_data_keeps gl_points_), !(read_data_keeps gl_vertices_),
    !(read_data_keeps gl_edges_) by done.
  repeat split; try done; unfold clear; by repeat case_match.
Qed.


Lemma read_data_initialized f w :
  file_points f <> [] \/ file_segments f <> [] ->
  brect_initialized_ (read_data f w) = true.
Proof.
  unfold read_data. intros [Hp|Hs].
  - destruct (file_points f) as [|xy ps]; [done|]. simpl.
    apply read_segments_keep, read_points_keep, read_point_initialized.
  - destruct (file_segments f) as [|s ss]; [done|]. simpl.
    apply read_segments_keep, read_segment_initialized.
Qed.

(** X9.  With a file that lists a site and a builder whose diagram for those
    sites satisfies the adjacency invariants, [build] returns within the
    budget [fuel_bound]: the flag is on, the sites are those of the file, the
    diagram is the builder's answer for them, its color table covers it,
    [shift_] is the centre of the bounding box of the sites, and the two
    filters are as they were. *)
Theorem build_returns_within_bound
    (construct_voronoi : list (point_type T) -> list (segment_type T) -> diagram T)
    (f : site_file) w :
  let pts := map site_point (file_points f) in
  let segs := map site_segment (file_segments f) in
  let d := construct_voronoi pts segs in
  file_points f <> [] \/ file_segments f <> [] ->
  adjacency_ok d = true ->
  exists w',
    build construct_voronoi (fuel_bound d) f w = Done w'
    /\ brect_initialized_ w' = true
    /\ point_data_ w' = pts /\ segment_data_ w' = segs
    /\ vd_ w' = d /\ colors_fit d (vd_colors_ w')
    /\ shift_ w' = center (brect_ (read_data f (clear w)))
    /\ primary_edges_only_ w' = primary_edges_only_ w
    /\ internal_edges_only_ w' = internal_edges_only_ w.
Proof.
  intros pts segs d Hsite Hok.
  pose proof (read_data_initialized f (clear w) Hsite) as Hinit.
  destruct (ingest_sites f w) as [Hp Hs]. unfold ingest in Hp, Hs.
  assert (Hcall : forall c e, colors_fit d c -> e < length (edges d) ->
            exists c', color_exterior (fuel_bound d) d c e = Done c' /\ colors_fit d c').
  { intros c e Hfit He.
    destruct (exterior_within d Hok (length (edges d)) c e Hfit He) as (c' & Hrun & Hfit' & _).
    { destruct Hfit as [<- _]. apply uncolored_le_length. }
    by exists c'. }
  destruct (pass_within d (fuel_bound d) Hcall (edges d) 0 (fresh_colors d)
              ltac:(simpl; lia) (colors_fit_fresh d)) as (c' & Hrun & Hfit').
  unfold build. rewrite Hinit. simpl. rewrite Hp, Hs.
  fold pts segs d. unfold color_unbounded. rewrite Hrun. simpl.
  eexists. split; [reflexivity|]. simpl.
  rewrite Hinit, Hp, Hs.
  rewrite (read_data_keeps primary_edges_only_), (read_data_keeps internal_edges_only_)
    by done.
  repeat split; try done; try (by destruct Hfit');
    unfold clear; by repeat case_match.
Qed.

End BuildMore.

(** ** The projection *)

Section ViewPort.
Context {T G : Type} `{Coordinate T} `{GLFloat T G}.
Implicit Types (w : widget T G).

Lemma update_view_port_untouched w i :
  i ∉ written_entries ->
  projection_matrix_ (update_view_port w) !! i = projection_matrix_ w !! i.
Proof.
  intros Hi. unfold update_view_port; simpl.
  unfold written_entries in Hi. rewrite !not_elem_of_cons in Hi.
  destruct Hi as (? & ? & ? & ? & ? & ? & ? & _).
  by rewrite !list_lookup_insert_ne by done.
Qed.

(** X10.  [build] writes seven entries of the projection matrix at most, those
    of the two scales, of the translation and the constants [-1], [0], [1];
    the nine others, among them the three that would make the fourth
    component of [gl_Position] differ from 1, are as they were (zero since
    the constructor), and the matrix keeps its length. *)
Theorem build_keeps_untouched_entries
    (construct_voronoi : list (point_type T) -> list (segment_type T) -> diagram T)
    (fuel : nat) (f : site_file) w w' :
  build construct_voronoi fuel f w = Done w' ->
  length (projection_matrix_ w') = length (projection_matrix_ w)
  /\ forall i, i ∉ written_entries ->
       projection_matrix_ w' !! i = projection_matrix_ w !! i.
Proof.
  unfold build. intros Hrun.
  assert (Hclear : projection_matrix_ (read_data f (clear w)) = projection_matrix_ w).
  { rewrite (read_data_keeps projection_matrix_) by done.
    unfold clear. by repeat case_match. }
  destruct (negb (brect_initialized_ (read_data f (clear w)))).
  - injection Hrun as <-. rewrite Hclear. done.
  - destruct (color_unbounded _ _ _) as [c| |]; simpl in Hrun; try done.
    injection Hrun as <-. split.
    + unfold update_view_port; simpl. rewrite !length_insert. by rewrite Hclear.
    + intros i Hi. rewrite update_view_port_untouched by done. simpl.
      by rewrite Hclear.
Qed.

End ViewPort.

Section ViewPortExact.
Local Open Scope Q_scope.
Implicit Types (w : widget Q Q).

Lemma sixteen_entries {A} (m : list A) :
  length m = 16%nat ->
  exists a0 a1 a2 a3 a4 a5 a6 a7 a8 a9 a10 a11 a12 a13 a14 a15,
    m = [a0; a1; a2; a3; a4; a5; a6; a7; a8; a9; a10; a11; a12; a13; a14; a15].
Proof.
  intros Hlen.
  do 16 (destruct m as [|? m]; [discriminate Hlen|]).
  destruct m; [|discriminate Hlen]. by repeat eexists.
Qed.

(** The shader after [update_view_port]: the affine map that sends [xl] to
    [-1] and [xh] to [1], whatever the shift. *)
Lemma projection_affine w (p : point_type Q) :
  untouched_zero (projection_matrix_ w) ->
  ~ xh (brect_ w) - xl (brect_ w) == 0 -> ~ yh (brect_ w) - yl (brect_ w) == 0 ->
  exists x y z t,
    gl_Position (projection_matrix_ (update_view_port w))
      (gl_point (deconvolve p (shift_ w))) = (x, y, z, t)
    /\ x == (2 * px p - (xl (brect_ w) + xh (brect_ w))) / (xh (brect_ w) - xl (brect_ w))
    /\ y == (2 * py p - (yl (brect_ w) + yh (brect_ w))) / (yh (brect_ w) - yl (brect_ w))
    /\ z == 0 /\ t == 1.
Proof.
  intros [Hlen Hzero] Hw Hh.
  destruct (sixteen_entries _ Hlen)
    as (a0 & a1 & a2 & a3 & a4 & a5 & a6 & a7 & a8 & a9 & a10 & a11 & a12
        & a13 & a14 & a15 & Hm).
  unfold untouched_entries in Hzero. rewrite Hm in Hzero.
  apply Forall_cons in Hzero as [Z1 Hzero]. apply Forall_cons in Hzero as [Z2 Hzero].
  apply Forall_cons in Hzero as [Z3 Hzero]. apply Forall_cons in Hzero as [Z4 Hzero].
  apply Forall_cons in Hzero as [Z6 Hzero]. apply Forall_cons in Hzero as [Z7 Hzero].
  apply Forall_cons in Hzero as [Z8 Hzero]. apply Forall_cons in Hzero as [Z9 Hzero].
  apply Forall_cons in Hzero as [Z11 _].
  unfold entry in *; simpl in *.
  unfold gl_Position, update_view_port, entry. rewrite Hm. simpl.
  eexists _, _, _, _. split; [reflexivity|].
  unfold gl_point, deconvolve; simpl. exact_ops.
  destruct (brect_ w) as [bxl bxh byl byh], (shift_ w) as [sx sy], p as [x y].
  simpl in *. change (inject_Z 2) with 2. change (inject_Z (-1)) with (-1).
  change (inject_Z 0) with 0. change (inject_Z 1) with 1.
  repeat split.
  - rewrite Z4. field. intros E. apply Hw. lra.
  - rewrite Z1. field. intros E. apply Hh. lra.
  - rewrite Z2, Z6. ring.
  - rewrite Z3, Z7. ring.
Qed.


(** X11.  In exact arithmetic, with the untouched entries of the matrix zero
    and a region of positive width and height, the projection of
    [update_view_port] sends the region onto the square of the clip space:
    the corner [(xl, yl)] to [(-1, -1, 0, 1)], the corner [(xh, yh)] to
    [(1, 1, 0, 1)], and a point strictly inside [brect_] strictly between;
    the shift cancels out. *)
Theorem projection_maps_region w :
  untouched_zero (projection_matrix_ w) ->
  xl (brect_ w) < xh (brect_ w) -> yl (brect_ w) < yh (brect_ w) ->
  let shade (p : point_type Q) :=
    gl_Position (projection_matrix_ (update_view_port w))
      (gl_point (deconvolve p (shift_ w))) in
  (exists x y z t, shade {| px := xl (brect_ w); py := yl (brect_ w) |} = (x, y, z, t)
     /\ x == -1 /\ y == -1 /\ z == 0 /\ t == 1)
  /\ (exists x y z t, shade {| px := xh (brect_ w); py := yh (brect_ w) |} = (x, y, z, t)
     /\ x == 1 /\ y == 1 /\ z == 0 /\ t == 1)
  /\ (forall p, strictly_inside (brect_ w) p = true ->
        exists x y z t, shade p = (x, y, z, t)
          /\ -1 < x /\ x < 1 /\ -1 < y /\ y < 1 /\ z == 0 /\ t == 1).
Proof.
  intros Hm Hw Hh shade.
  assert (Hw' : ~ xh (brect_ w) - xl (brect_ w) == 0) by (intros E; lra).
  assert (Hh' : ~ yh (brect_ w) - yl (brect_ w) == 0) by (intros E; lra).
  split; [|split].
  - destruct (projection_affine w {| px := xl (brect_ w); py := yl (brect_ w) |}
                Hm Hw' Hh') as (x & y & z & t & E & Hx & Hy & Hz & Ht).
    exists x, y, z, t. split; [exact E|]. simpl in Hx, Hy.
    repeat split; [rewrite Hx | rewrite Hy | done | done]; field; done.
  - destruct (projection_affine w {| px := xh (brect_ w); py := yh (brect_ w) |}
                Hm Hw' Hh') as (x & y & z & t & E & Hx & Hy & Hz & Ht).
    exists x, y, z, t. split; [exact E|]. simpl in Hx, Hy.
    repeat split; [rewrite Hx | rewrite Hy | done | done]; field; done.
  - intros p Hp. apply strictly_inside_Q in Hp. destruct Hp as (P1 & P2 & P3 & P4).
    destruct (projection_affine w p Hm Hw' Hh') as (x & y & z & t & E & Hx & Hy & Hz & Ht).
    exists x, y, z, t. split; [exact E|].
    repeat split; try done.
    + rewrite Hx. apply Qlt_shift_div_l; lra.
    + rewrite Hx. apply Qlt_shift_div_r; lra.
    + rewrite Hy. apply Qlt_shift_div_l; lra.
    + rewrite Hy. apply Qlt_shift_div_r; lra.
Qed.

(** X12.  In exact arithmetic, after a [build] of a file whose sites are not
    all the same point, on a widget whose untouched matrix entries are zero,
    every site is drawn well inside the view: the shader puts the shifted
    site at clip coordinates between [-5/12] and [5/12], with third component
    0 and fourth 1. *)
Theorem sites_are_drawn_inside_the_view
    (construct_voronoi : list (point_type Q) -> list (segment_type Q) -> diagram Q)
    (fuel : nat) (f : site_file) w w' :
  build construct_voronoi fuel f w = Done w' ->
  untouched_zero (projection_matrix_ w) ->
  (of_int 0 <? larger_side (brect_ (read_data f (clear w))))%coord = true ->
  forall p, p ∈ site_points w' ->
    exists x y z t,
      gl_Position (projection_matrix_ w') (gl_point (deconvolve p (shift_ w')))
      = (x, y, z, t)
      /\ - (5 # 12) <= x /\ x <= 5 # 12 /\ - (5 # 12) <= y /\ y <= 5 # 12
      /\ z == 0 /\ t == 1.
Proof.
  intros Hrun Hm Hpos p Hp. apply Qltb_lt in Hpos.
  unfold build in Hrun.
  assert (Hproj : projection_matrix_ (read_data f (clear w)) = projection_matrix_ w).
  { rewrite (read_data_keeps projection_matrix_) by done.
    unfold clear. by repeat case_match. }
  destruct (brect_initialized_ (read_data f (clear w))) eqn:Hinit; simpl in Hrun.
  2:{ injection Hrun as <-.
      destruct (ingest_ok f w) as [Hnone _]. unfold ingest in Hnone.
      rewrite (Hnone Hinit) in Hp. by apply elem_of_nil in Hp. }
  destruct (color_unbounded _ _ _) as [c| |]; simpl in Hrun; try done.
  injection Hrun as <-.
  set (w1 := with_diagram _ c _) in *.
  assert (Hsites : site_points (update_view_port w1) = site_points (ingest f w))
    by reflexivity.
  rewrite Hsites in Hp. pose proof (ingest_sites_in_box f w p Hp) as (B1 & B2 & B3 & B4).
  set (b := brect_ (ingest f w)) in *.
  assert (Hs1 : xh b - xl b <= larger_side b) by apply cmax_Q.
  assert (Hs2 : yh b - yl b <= larger_side b) by apply cmax_Q.
  assert (Hrect : brect_ w1 = brect_ (construct_brect (ingest f w))) by reflexivity.
  rewrite construct_brect_rect in Hrect. fold b in Hrect.
  change (larger_side (brect_ (read_data f (clear w)))) with (larger_side b) in Hpos.
  set (s := larger_side b) in *. clearbody s.
  assert (Hm1 : untouched_zero (projection_matrix_ w1)).
  { change (projection_matrix_ w1) with (projection_matrix_ (read_data f (clear w))).
    by rewrite Hproj. }
  destruct (projection_affine w1 p Hm1) as (x & y & z & t & E & Hx & Hy & Hz & Ht).
  { rewrite Hrect. simpl. exact_ops. intros E. change (inject_Z 0) with 0 in Hpos. lra. }
  { rewrite Hrect. simpl. exact_ops. intros E. change (inject_Z 0) with 0 in Hpos. lra. }
  exists x, y, z, t. split; [exact E|].
  rewrite Hrect in Hx, Hy. simpl in Hx, Hy. exact_ops.
  change (inject_Z 0) with 0 in Hpos.
  unfold Qdiv in Hx at 2 3. unfold Qdiv in Hy at 2 3.
  change (/ inject_Z 2) with (1 # 2) in Hx, Hy.
  repeat split; try done.
  - rewrite Hx. apply Qle_shift_div_l; lra.
  - rewrite Hx. apply Qle_shift_div_r; lra.
  - rewrite Hy. apply Qle_shift_div_l; lra.
  - rewrite Hy. apply Qle_shift_div_r; lra.
Qed.

End ViewPortExact.

(** ** The buffers *)

Section PaintMore.
Context {T G : Type} `{Coordinate T} `{GLFloat T G}.
Implicit Types (w : widget T G) (ctx : gl_context G).

Variable discretize :
  point_type T -> segment_type T -> T -> list (point_type T) -> list (point_type T).
Variable boundary_rim : rect_type T -> point_type T -> Q -> list (GLPoint G).

(** *** A new buffer never disturbs an old one *)

Lemma store_extends_refl ctx : store_extends ctx ctx.
Proof. split; [lia | done]. Qed.

Lemma store_extends_trans ctx1 ctx2 ctx3 :
  store_extends ctx1 ctx2 -> store_extends ctx2 ctx3 -> store_extends ctx1 ctx3.
Proof.
  intros [H1 H2] [H3 H4]. split; [lia|].
  intros id Hid. rewrite H4 by lia. by apply H2.
Qed.

Lemma vbo_ok_extends ctx ctx' vbo :
  store_extends ctx ctx' -> vbo_ok ctx vbo -> vbo_ok ctx' vbo.
Proof.
  intros [Hn Hd] [Hid (data & Hdata & Hlen)]. split; [lia|].
  exists data. split; [|done]. by rewrite Hd.
Qed.

Lemma upload_extends ctx (data : list (GLPoint G)) :
  store_extends ctx (glBufferData (fst (glGenBuffers ctx)) data (snd (glGenBuffers ctx))).
Proof.
  split; simpl; [lia|]. intros id Hid. apply lookup_insert_ne. lia.
Qed.

Lemma upload_ok ctx (data : list (GLPoint G)) :
  vbo_ok (glBufferData (fst (glGenBuffers ctx)) data (snd (glGenBuffers ctx)))
    {| id_ := fst (glGenBuffers ctx); vertex_count_ := length data |}.
Proof.
  split; simpl; [lia|]. exists data. split; [apply lookup_insert_eq | done].
Qed.

Lemma push_point_vbo_ok w radius_px (acc : list VBO * gl_context G) point :
  let acc' := push_point_vbo boundary_rim w radius_px acc point in
  store_extends (snd acc) (snd acc')
  /\ (Forall (vbo_ok (snd acc)) (fst acc) -> Forall (vbo_ok (snd acc')) (fst acc'))
  /\ length (fst acc') = S (length (fst acc)).
Proof.
  unfold push_point_vbo, point_vbo. simpl. split; [|split].
  - apply (upload_extends (snd acc)).
  - intros Hold. apply Forall_app. split.
    + eapply Forall_impl; [exact Hold|]. intros vbo. apply vbo_ok_extends.
      apply (upload_extends (snd acc)).
    + apply Forall_singleton.
      apply (upload_ok (snd acc)
               ({| x_ := narrow (px point); y_ := narrow (py point) |}
                  :: boundary_rim (brect_ w) point radius_px)).
  - rewrite length_app. simpl. lia.
Qed.

Lemma push_fold_ok w radius_px (l : list (point_type T)) :
  forall acc : list VBO * gl_context G,
    let acc' := foldl (push_point_vbo boundary_rim w radius_px) acc l in
    store_extends (snd acc) (snd acc')
    /\ (Forall (vbo_ok (snd acc)) (fst acc) -> Forall (vbo_ok (snd acc')) (fst acc'))
    /\ length (fst acc') = length (fst acc) + length l.
Proof.
  induction l as [|p l IH]; intros acc; simpl.
  - split; [apply store_extends_refl|]. split; [done | lia].
  - destruct (push_point_vbo_ok w radius_px acc p) as (E1 & F1 & L1).
    destruct (IH (push_point_vbo boundary_rim w radius_px acc p)) as (E2 & F2 & L2).
    split; [by eapply store_extends_trans|]. split; [auto|]. rewrite L2, L1. lia.
Qed.


(** *** What each [prepare_*] does to the caches *)

Lemma with_buffers_same w :
  with_buffers (gl_points_ w) (gl_segments_ w) (gl_vertices_ w) (gl_edges_ w) (gl_ w) w = w.
Proof. by destruct w. Qed.

Lemma prepare_points_settled w :
  gl_points_ w <> [] \/ (point_data_ w = [] /\ segment_data_ w = []) ->
  prepare_points boundary_rim w = w.
Proof.
  intros [Hne|[Hp Hs]]; unfold prepare_points.
  - by rewrite bool_decide_eq_false_2.
  - case_bool_decide as Hnil; [|done]. simpl.
    rewrite Hp, Hs. simpl. apply with_buffers_same.
Qed.

Lemma prepare_points_result w :
  let w' := prepare_points boundary_rim w in
  store_extends (gl_ w) (gl_ w')
  /\ (Forall (vbo_ok (gl_ w)) (gl_points_ w) -> Forall (vbo_ok (gl_ w')) (gl_points_ w'))
  /\ (gl_points_ w' <> [] \/ (point_data_ w = [] /\ segment_data_ w = []))
  /\ (gl_points_ w = [] ->
      length (gl_points_ w') = length (point_data_ w) + 2 * length (segment_data_ w)).
Proof.
  destruct (decide (gl_points_ w = [])) as [Hnil|Hne].
  2:{ rewrite prepare_points_settled by auto.
      split; [apply store_extends_refl|]. split; [done|]. split; [by left|done]. }
  simpl. rewrite (prepare_points_shifted boundary_rim w Hnil). simpl.
  destruct (push_fold_ok w (4.5)%Q
              (map (fun p => deconvolve p (shift_ w)) (site_points w)) ([], gl_ w))
    as (Hext & Hall & Hlen).
  simpl in *. rewrite length_map in Hlen.
  assert (Hsites : length (site_points w)
                   = length (point_data_ w) + 2 * length (segment_data_ w)).
  { unfold site_points. rewrite length_app. f_equal.
    induction (segment_data_ w) as [|sg l IH]; simpl; [done|]. rewrite IH. lia. }
  split; [exact Hext|]. split; [intros _; by apply Hall|]. split.
  - destruct (point_data_ w) as [|p ps] eqn:Ep, (segment_data_ w) as [|sg ss] eqn:Es;
      [by right| | |]; left; intros E; rewrite E in Hlen; simpl in *; lia.
  - intros _. lia.
Qed.

Lemma prepare_segments_settled w :
  id_ (gl_segments_ w) <> 0 -> prepare_segments w = w.
Proof.
  intros Hne. unfold prepare_segments.
  apply Nat.eqb_neq in Hne. by rewrite Hne.
Qed.

Lemma segment_points_length (shift : point_type T) (l : list (segment_type T)) :
  forall acc : list (GLPoint G),
    length (foldl (fun acc s =>
             let lp := low s in
             let lp := deconvolve lp shift in
             let acc := acc ++ [{| x_ := narrow (px lp); y_ := narrow (py lp) |}] in
             let hp := high s in
             let hp := deconvolve hp shift in
             acc ++ [{| x_ := narrow (px hp); y_ := narrow (py hp) |}]) acc l)
    = length acc + 2 * length l.
Proof.
  induction l as [|sg l IH]; intros acc; simpl; [lia|].
  rewrite IH, !length_app. simpl. lia.
Qed.

Lemma prepare_segments_result w :
  0 < gl_next_name (gl_ w) ->
  let w' := prepare_segments w in
  store_extends (gl_ w) (gl_ w')
  /\ id_ (gl_segments_ w') <> 0
  /\ ((id_ (gl_segments_ w) <> 0 -> vbo_ok (gl_ w) (gl_segments_ w)) ->
      vbo_ok (gl_ w') (gl_segments_ w'))
  /\ (id_ (gl_segments_ w) = 0 ->
      vertex_count_ (gl_segments_ w') = 2 * length (segment_data_ w)).
Proof.
  intros Hpos. destruct (decide (id_ (gl_segments_ w) = 0)) as [Hz|Hne].
  2:{ rewrite prepare_segments_settled by done.
      split; [apply store_extends_refl|]. split; [done|]. split; [auto|done]. }
  simpl. unfold prepare_segments. rewrite Hz. simpl.
  split; [apply (upload_extends (gl_ w))|]. split; [lia|].
  split; [intros _; apply (upload_ok (gl_ w))|].
  intros _. exact (segment_points_length (shift_ w) (segment_data_ w) []).
Qed.


Lemma vertex_fold_ok w radius_px (l : list (vertex_type T)) :
  forall i acc,
    let step := fun acc i (it : vertex_type T) =>
      if internal_edges_only_ w
         && (get_vertex_color (vd_colors_ w) i =? EXTERNAL_COLOR)%nat
      then acc
      else push_point_vbo boundary_rim w radius_px acc
             (deconvolve {| px := vx it; py := vy it |} (shift_ w)) in
    let acc' := for_each_pure step i l acc in
    store_extends (snd acc) (snd acc')
    /\ (Forall (vbo_ok (snd acc)) (fst acc) -> Forall (vbo_ok (snd acc')) (fst acc'))
    /\ ((forall j v, l !! j = Some v -> vertex_shown w (i + j) = false)
        \/ length (fst acc) < length (fst acc'))
    /\ ((forall j v, l !! j = Some v -> vertex_shown w (i + j) = false) -> acc' = acc)
    /\ ((forall j v, l !! j = Some v -> vertex_shown w (i + j) = true) ->
        length (fst acc') = length (fst acc) + length l)
    /\ length (fst acc) <= length (fst acc').
Proof.
  induction l as [|v l IH]; intros i acc; simpl.
  { split; [apply store_extends_refl|]. split; [done|].
    split; [left; intros j v' Hj; by rewrite lookup_nil in Hj|].
    split; [done|]. split; [intros _; lia|done]. }
  destruct (internal_edges_only_ w
            && (get_vertex_color (vd_colors_ w) i =? EXTERNAL_COLOR)%nat) eqn:Eskip.
  - destruct (IH (S i) acc) as (Hext & Hall & Hnew & Hid & Hlen & Hle).
    cbv zeta in *.
    assert (Hhere : vertex_shown w (i + 0) = false).
    { unfold vertex_shown. by rewrite Nat.add_0_r, Eskip. }
    split; [exact Hext|]. split; [exact Hall|]. split; [|split; [|split; [|exact Hle]]].
    + destruct Hnew as [Hhid|Hlt]; [left|by right].
      intros [|j] v' Hj; [done|]. rewrite Nat.add_succ_r. by eapply (Hhid j).
    + intros Hhid. apply Hid. intros j v' Hj.
      specialize (Hhid (S j) v' Hj). by rewrite Nat.add_succ_r in Hhid.
    + intros Hshown. specialize (Hshown 0 v eq_refl). congruence.
  - destruct (push_point_vbo_ok w radius_px acc
                (deconvolve {| px := vx v; py := vy v |} (shift_ w)))
      as (Hext1 & Hall1 & Hlen1).
    destruct (IH (S i) (push_point_vbo boundary_rim w radius_px acc
                (deconvolve {| px := vx v; py := vy v |} (shift_ w))))
      as (Hext & Hall & Hnew & Hid & Hlen & Hle).
    cbv zeta in *.
    assert (Hhere : vertex_shown w (i + 0) = true).
    { unfold vertex_shown. by rewrite Nat.add_0_r, Eskip. }
    split; [by eapply store_extends_trans|]. split; [auto|].
    split; [right; lia|]. split; [|split; [|lia]].
    + intros Hhid. specialize (Hhid 0 v eq_refl). congruence.
    + intros Hshown. rewrite Hlen; [rewrite Hlen1; simpl; lia|].
      intros j v' Hj. specialize (Hshown (S j) v' Hj).
      by rewrite Nat.add_succ_r in Hshown.
Qed.

Lemma prepare_vertices_settled w :
  gl_vertices_ w <> []
  \/ (forall i v, vertices (vd_ w) !! i = Some v -> vertex_shown w i = false) ->
  prepare_vertices boundary_rim w = w.
Proof.
  intros [Hne|Hhid]; unfold prepare_vertices.
  - by rewrite bool_decide_eq_false_2.
  - case_bool_decide as Hnil; [|done]. simpl.
    destruct (vertex_fold_ok w 3%Q (vertices (vd_ w)) 0 (gl_vertices_ w, gl_ w))
      as (_ & _ & _ & Hid & _). cbv zeta in Hid.
    rewrite Hid by exact Hhid. apply with_buffers_same.
Qed.

Lemma prepare_vertices_result w :
  let w' := prepare_vertices boundary_rim w in
  store_extends (gl_ w) (gl_ w')
  /\ (Forall (vbo_ok (gl_ w)) (gl_vertices_ w) ->
      Forall (vbo_ok (gl_ w')) (gl_vertices_ w'))
  /\ (gl_vertices_ w' <> []
      \/ forall i v, vertices (vd_ w) !! i = Some v -> vertex_shown w i = false)
  /\ (gl_vertices_ w = [] ->
      (forall i v, vertices (vd_ w) !! i = Some v -> vertex_shown w i = true) ->
      length (gl_vertices_ w') = length (vertices (vd_ w))).
Proof.
  destruct (decide (gl_vertices_ w = [])) as [Hnil|Hne].
  2:{ rewrite prepare_vertices_settled by auto.
      split; [apply store_extends_refl|]. split; [done|]. split; [by left|done]. }
  destruct (vertex_fold_ok w 3%Q (vertices (vd_ w)) 0 (gl_vertices_ w, gl_ w))
    as (Hext & Hall & Hnew & _ & Hlen & _). cbv zeta in *.
  simpl. unfold prepare_vertices. rewrite bool_decide_eq_true_2 by done. simpl.
  split; [exact Hext|]. split; [exact Hall|]. split.
  - destruct Hnew as [Hhid|Hlt]; [by right|left].
    intros E. simpl in Hlt. rewrite E, Hnil in Hlt. simpl in Hlt. lia.
  - intros _ Hshown. rewrite Hlen by exact Hshown. simpl. by rewrite Hnil.
Qed.


Lemma edge_shown_false w i it :
  edge_shown w i it = false <->
  primary_edges_only_ w && negb (is_primary it) = true
  \/ internal_edges_only_ w
     && (get_edge_color (vd_colors_ w) i =? EXTERNAL_COLOR)%nat = true.
Proof.
  unfold edge_shown.
  destruct (primary_edges_only_ w && negb (is_primary it)),
    (internal_edges_only_ w
     && (get_edge_color (vd_colors_ w) i =? EXTERNAL_COLOR)%nat); simpl; intuition.
Qed.

Lemma prepare_edge_hidden w acc i it :
  edge_shown w i it = false -> prepare_edge discretize w acc i it = Done acc.
Proof.
  intros Hhid. apply edge_shown_false in Hhid. unfold prepare_edge.
  destruct (primary_edges_only_ w && negb (is_primary it)); [done|].
  destruct Hhid as [?|Hint]; [done|by rewrite Hint].
Qed.

Lemma prepare_edge_shown w acc i it acc' :
  edge_shown w i it = true ->
  prepare_edge discretize w acc i it = Done acc' ->
  store_extends (snd acc) (snd acc')
  /\ (Forall (vbo_ok (snd acc)) (fst acc) -> Forall (vbo_ok (snd acc')) (fst acc'))
  /\ length (fst acc') = S (length (fst acc)).
Proof.
  intros Hshown. unfold prepare_edge.
  destruct (primary_edges_only_ w && negb (is_primary it)) eqn:E1.
  { apply not_false_iff_true in Hshown. destruct Hshown.
    apply edge_shown_false. by left. }
  destruct (internal_edges_only_ w
            && (get_edge_color (vd_colors_ w) i =? EXTERNAL_COLOR)%nat) eqn:E2.
  { apply not_false_iff_true in Hshown. destruct Hshown.
    apply edge_shown_false. by right. }
  destruct (edge_samples discretize w it) as [samples| |]; simpl; [|done|done].
  intros [= <-]. simpl. split; [|split].
  - apply (upload_extends (snd acc)).
  - intros Hold. apply Forall_app. split.
    + eapply Forall_impl; [exact Hold|]. intros vbo. apply vbo_ok_extends.
      apply (upload_extends (snd acc)).
    + apply Forall_singleton. apply (upload_ok (snd acc) (gl_samples_of w samples)).
  - rewrite length_app. simpl. lia.
Qed.

Lemma edge_fold_hidden w (l : list edge_type) :
  forall i acc,
    (forall j it, l !! j = Some it -> edge_shown w (i + j) it = false) ->
    for_each (prepare_edge discretize w) i l acc = Done acc.
Proof.
  induction l as [|it l IH]; intros i acc Hhid; simpl; [done|].
  rewrite prepare_edge_hidden.
  - simpl. apply IH. intros j it' Hj.
    specialize (Hhid (S j) it' Hj). by rewrite Nat.add_succ_r in Hhid.
  - specialize (Hhid 0 it eq_refl). by rewrite Nat.add_0_r in Hhid.
Qed.

Lemma edge_fold_ok w (l : list edge_type) :
  forall i acc acc',
    for_each (prepare_edge discretize w) i l acc = Done acc' ->
    store_extends (snd acc) (snd acc')
    /\ (Forall (vbo_ok (snd acc)) (fst acc) -> Forall (vbo_ok (snd acc')) (fst acc'))
    /\ ((forall j it, l !! j = Some it -> edge_shown w (i + j) it = false)
        \/ length (fst acc) < length (fst acc'))
    /\ ((forall j it, l !! j = Some it -> edge_shown w (i + j) it = true) ->
        length (fst acc') = length (fst acc) + length l)
    /\ length (fst acc) <= length (fst acc').
Proof.
  induction l as [|it l IH]; intros i acc acc'; simpl.
  { intros [= <-]. split; [apply store_extends_refl|]. split; [done|].
    split; [left; intros j it' Hj; by rewrite lookup_nil in Hj|].
    split; [intros _; lia|done]. }
  destruct (edge_shown w i it) eqn:Eshown.
  - destruct (prepare_edge discretize w acc i it) as [acc1| |] eqn:E1;
      simpl; [|done|done].
    intros Hrun.
    destruct (prepare_edge_shown w acc i it acc1 Eshown E1) as (Hext1 & Hall1 & Hlen1).
    destruct (IH (S i) acc1 acc' Hrun) as (Hext & Hall & Hnew & Hlen & Hle).
    split; [by eapply store_extends_trans|]. split; [auto|].
    split; [right; lia|]. split; [|lia].
    intros Hshown. rewrite Hlen; [rewrite Hlen1; simpl; lia|].
    intros j it' Hj. specialize (Hshown (S j) it' Hj).
    by rewrite Nat.add_succ_r in Hshown.
  - rewrite (prepare_edge_hidden w acc i it Eshown). simpl. intros Hrun.
    destruct (IH (S i) acc acc' Hrun) as (Hext & Hall & Hnew & Hlen & Hle).
    split; [exact Hext|]. split; [exact Hall|]. split; [|split; [|exact Hle]].
    + destruct Hnew as [Hhid|Hlt]; [left|by right].
      intros [|j] it' Hj; simpl in Hj.
      * injection Hj as <-. by rewrite Nat.add_0_r.
      * rewrite Nat.add_succ_r. by eapply (Hhid j).
    + intros Hshown. specialize (Hshown 0 it eq_refl).
      rewrite Nat.add_0_r in Hshown. congruence.
Qed.

Lemma prepare_edges_settled w :
  gl_edges_ w <> []
  \/ (forall i it, edges (vd_ w) !! i = Some it -> edge_shown w i it = false) ->
  prepare_edges discretize w = Done w.
Proof.
  intros [Hne|Hhid]; unfold prepare_edges.
  - by rewrite bool_decide_eq_false_2.
  - case_bool_decide as Hnil; [|done]. simpl.
    rewrite edge_fold_hidden by exact Hhid. simpl. f_equal. apply with_buffers_same.
Qed.

Lemma prepare_edges_result w w' :
  prepare_edges discretize w = Done w' ->
  store_extends (gl_ w) (gl_ w')
  /\ (Forall (vbo_ok (gl_ w)) (gl_edges_ w) -> Forall (vbo_ok (gl_ w')) (gl_edges_ w'))
  /\ (gl_edges_ w' <> []
      \/ forall i it, edges (vd_ w) !! i = Some it -> edge_shown w i it = false)
  /\ (gl_edges_ w = [] ->
      (forall i it, edges (vd_ w) !! i = Some it -> edge_shown w i it = true) ->
      length (gl_edges_ w') = length (edges (vd_ w)))
  /\ w' = with_buffers (gl_points_ w) (gl_segments_ w) (gl_vertices_ w)
            (gl_edges_ w') (gl_ w') w.
Proof.
  destruct (decide (gl_edges_ w = [])) as [Hnil|Hne].
  2:{ rewrite prepare_edges_settled by auto. intros [= <-].
      split; [apply store_extends_refl|]. split; [done|]. split; [by left|].
      split; [done|]. symmetry. apply with_buffers_same. }
  unfold prepare_edges. rewrite bool_decide_eq_true_2 by done. simpl.
  destruct (for_each (prepare_edge discretize w) 0 (edges (vd_ w)) (gl_edges_ w, gl_ w))
    as [acc| |] eqn:Erun; simpl; [|done|done].
  intros [= <-]. simpl.
  destruct (edge_fold_ok w _ _ _ _ Erun) as (Hext & Hall & Hnew & Hlen & _).
  simpl in *.
  split; [exact Hext|]. split; [exact Hall|]. split; [|split; [|done]].
  - destruct Hnew as [Hhid|Hlt]; [by right|left].
    intros E. rewrite E, Hnil in Hlt. simpl in Hlt. lia.
  - intros _ Hshown. rewrite Hlen by exact Hshown. by rewrite Hnil.
Qed.


(** *** Painting as a whole *)

Lemma same_scene_refl w : same_scene w w.
Proof. symmetry. apply with_buffers_same. Qed.

Lemma same_scene_trans w1 w2 w3 :
  same_scene w1 w2 -> same_scene w2 w3 -> same_scene w1 w3.
Proof. unfold same_scene. intros E12 E23. rewrite E23, E12. reflexivity. Qed.

Lemma same_scene_fields w w' :
  same_scene w w' ->
  point_data_ w' = point_data_ w /\ segment_data_ w' = segment_data_ w
  /\ vd_ w' = vd_ w /\ vd_colors_ w' = vd_colors_ w
  /\ primary_edges_only_ w' = primary_edges_only_ w
  /\ internal_edges_only_ w' = internal_edges_only_ w.
Proof. intros E. rewrite E. by repeat split. Qed.

Lemma same_scene_vertex_shown w w' i :
  same_scene w w' -> vertex_shown w' i = vertex_shown w i.
Proof.
  intros E. destruct (same_scene_fields w w' E) as (_ & _ & _ & Ec & _ & Ei).
  unfold vertex_shown. by rewrite Ec, Ei.
Qed.

Lemma same_scene_edge_shown w w' i it :
  same_scene w w' -> edge_shown w' i it = edge_shown w i it.
Proof.
  intros E. destruct (same_scene_fields w w' E) as (_ & _ & _ & Ec & Ep & Ei).
  unfold edge_shown. by rewrite Ec, Ep, Ei.
Qed.

Lemma prepare_points_frame w :
  let w' := prepare_points boundary_rim w in
  same_scene w w' /\ gl_segments_ w' = gl_segments_ w
  /\ gl_vertices_ w' = gl_vertices_ w /\ gl_edges_ w' = gl_edges_ w.
Proof.
  simpl. unfold prepare_points.
  destruct (negb _); [by split; [apply same_scene_refl|]|]. by repeat split.
Qed.

Lemma prepare_segments_frame w :
  let w' := prepare_segments w in
  same_scene w w' /\ gl_points_ w' = gl_points_ w
  /\ gl_vertices_ w' = gl_vertices_ w /\ gl_edges_ w' = gl_edges_ w.
Proof.
  simpl. unfold prepare_segments.
  destruct (negb _); [by split; [apply same_scene_refl|]|]. by repeat split.
Qed.

Lemma prepare_vertices_frame w :
  let w' := prepare_vertices boundary_rim w in
  same_scene w w' /\ gl_points_ w' = gl_points_ w
  /\ gl_segments_ w' = gl_segments_ w /\ gl_edges_ w' = gl_edges_ w.
Proof.
  simpl. unfold prepare_vertices.
  destruct (negb _); [by split; [apply same_scene_refl|]|]. by repeat split.
Qed.

Lemma prepare_edges_frame w w' :
  prepare_edges discretize w = Done w' ->
  same_scene w w' /\ gl_points_ w' = gl_points_ w
  /\ gl_segments_ w' = gl_segments_ w /\ gl_vertices_ w' = gl_vertices_ w.
Proof.
  intros Hrun. destruct (prepare_edges_result w w' Hrun) as (_ & _ & _ & _ & E).
  rewrite E. by repeat split.
Qed.


Lemma vbo_all_extends (ctx ctx' : gl_context G) l :
  store_extends ctx ctx' -> Forall (vbo_ok ctx) l -> Forall (vbo_ok ctx') l.
Proof.
  intros Hext Hall. eapply Forall_impl; [exact Hall|].
  intros vbo. by apply vbo_ok_extends.
Qed.

Lemma cached_ok (ctx : gl_context G) w :
  Forall (vbo_ok ctx) (cached w) <->
  Forall (vbo_ok ctx) (gl_points_ w)
  /\ (id_ (gl_segments_ w) <> 0 -> vbo_ok ctx (gl_segments_ w))
  /\ Forall (vbo_ok ctx) (gl_vertices_ w)
  /\ Forall (vbo_ok ctx) (gl_edges_ w).
Proof.
  unfold cached. rewrite !Forall_app.
  destruct (id_ (gl_segments_ w) =? 0) eqn:E.
  - apply Nat.eqb_eq in E. rewrite Forall_nil. intuition.
  - apply Nat.eqb_neq in E. rewrite Forall_singleton. intuition.
Qed.

Lemma paint_stages w w' :
  0 < gl_next_name (gl_ w) ->
  paintGL discretize boundary_rim w = Done w' ->
  same_scene w w'
  /\ store_extends (gl_ w) (gl_ w')
  /\ settled w'
  /\ (Forall (vbo_ok (gl_ w)) (cached w) -> Forall (vbo_ok (gl_ w')) (cached w'))
  /\ (gl_points_ w = [] ->
      length (gl_points_ w') = length (point_data_ w) + 2 * length (segment_data_ w))
  /\ (id_ (gl_segments_ w) = 0 ->
      vertex_count_ (gl_segments_ w') = 2 * length (segment_data_ w))
  /\ (gl_vertices_ w = [] -> internal_edges_only_ w = false ->
      length (gl_vertices_ w') = length (vertices (vd_ w)))
  /\ (gl_edges_ w = [] ->
      primary_edges_only_ w = false -> internal_edges_only_ w = false ->
      length (gl_edges_ w') = length (edges (vd_ w))).
Proof.
  intros Hpos. unfold paintGL. cbv zeta.
  pose proof (prepare_points_result w) as P1.
  pose proof (prepare_points_frame w) as F1. cbv zeta in P1, F1.
  remember (prepare_points boundary_rim w) as w1 eqn:E1. clear E1.
  destruct P1 as (X1 & O1 & S1 & C1). destruct F1 as (Q1 & F1s & F1v & F1e).
  assert (Hpos1 : 0 < gl_next_name (gl_ w1)) by (destruct X1; lia).
  pose proof (prepare_segments_result w1 Hpos1) as P2.
  pose proof (prepare_segments_frame w1) as F2. cbv zeta in P2, F2.
  remember (prepare_segments w1) as w2 eqn:E2. clear E2.
  destruct P2 as (X2 & S2 & O2 & C2). destruct F2 as (Q2 & F2p & F2v & F2e).
  pose proof (prepare_vertices_result w2) as P3.
  pose proof (prepare_vertices_frame w2) as F3. cbv zeta in P3, F3.
  remember (prepare_vertices boundary_rim w2) as w3 eqn:E3. clear E3.
  destruct P3 as (X3 & O3 & S3 & C3). destruct F3 as (Q3 & F3p & F3s & F3e).
  intros Hrun.
  destruct (prepare_edges_result w3 w' Hrun) as (X4 & O4 & S4 & C4 & _).
  destruct (prepare_edges_frame w3 w' Hrun) as (Q4 & F4p & F4s & F4v).
  assert (Q02 : same_scene w w2) by (by eapply same_scene_trans).
  assert (Q03 : same_scene w w3) by (by eapply same_scene_trans).
  assert (Q04 : same_scene w w') by (by eapply same_scene_trans).
  assert (Q24 : same_scene w2 w') by (eapply same_scene_trans; eassumption).
  destruct (same_scene_fields _ _ Q04) as (Dp & Ds & Dv & Dc & Dpr & Din).
  destruct (same_scene_fields _ _ Q1) as (Dp1 & Ds1 & _).
  destruct (same_scene_fields _ _ Q02) as (_ & _ & Dv2 & Dc2 & _ & Din2).
  destruct (same_scene_fields _ _ Q03) as (_ & _ & Dv3 & Dc3 & Dpr3 & Din3).
  destruct (same_scene_fields _ _ Q24) as (_ & _ & Dv24 & _).
  destruct (same_scene_fields _ _ Q4) as (_ & _ & Dv34 & _).
  assert (X24 : store_extends (gl_ w2) (gl_ w')) by (by eapply store_extends_trans).
  assert (X14 : store_extends (gl_ w1) (gl_ w')) by (by eapply store_extends_trans).
  assert (X02 : store_extends (gl_ w) (gl_ w2)) by (by eapply store_extends_trans).
  assert (X03 : store_extends (gl_ w) (gl_ w3)) by (by eapply store_extends_trans).
  split; [exact Q04|]. split; [by eapply store_extends_trans|]. split; [|split].
  - unfold settled. rewrite F4p, F3p, F2p, F4s, F3s, F4v, Dp, Ds.
    split; [exact S1|]. split; [exact S2|]. split.
    + destruct S3 as [?|Hhid]; [by left|right]. intros i v Hv.
      rewrite (same_scene_vertex_shown w2 w' i Q24). apply (Hhid i v).
      by rewrite <- Dv24.
    + destruct S4 as [?|Hhid]; [by left|right]. intros i it Hit.
      rewrite (same_scene_edge_shown w3 w' i it Q4). apply (Hhid i it).
      by rewrite <- Dv34.
  - rewrite !cached_ok. intros (Kp & Ks & Kv & Ke).
    rewrite F4p, F3p, F2p, F4s, F3s, F4v.
    split; [eapply vbo_all_extends; [exact X14|by apply O1]|].
    split; [intros _; eapply vbo_ok_extends; [exact X24|]; apply O2; rewrite F1s;
            intros Hne; eapply vbo_ok_extends; [exact X1|by apply Ks]|].
    split.
    + eapply vbo_all_extends; [exact X4|]. apply O3. rewrite F2v, F1v.
      by eapply vbo_all_extends; [exact X02|].
    + apply O4. rewrite F3e, F2e, F1e. by eapply vbo_all_extends; [exact X03|].
  - split; [|split; [|split]].
    + intros Hnil. rewrite F4p, F3p, F2p. by apply C1.
    + intros Hz. rewrite F4s, F3s, C2, Ds1; [done|]. by rewrite F1s.
    + intros Hnil Hin. rewrite F4v, C3, Dv2; [done|by rewrite F2v, F1v|].
      intros i v _. unfold vertex_shown. by rewrite Din2, Hin.
    + intros Hnil Hpr Hin. rewrite C4, Dv3; [done|by rewrite F3e, F2e, F1e|].
      intros i it _. unfold edge_shown. by rewrite Dpr3, Din3, Hpr, Hin.
Qed.


Lemma settled_paint w :
  settled w -> paintGL discretize boundary_rim w = Done w.
Proof.
  intros (Sp & Ss & Sv & Se). unfold paintGL. cbv zeta.
  rewrite (prepare_points_settled w Sp), (prepare_segments_settled w Ss),
    (prepare_vertices_settled w Sv).
  by apply prepare_edges_settled.
Qed.

(** X13.  Painting keeps the buffer caches valid: if every buffer object the
    widget holds on to exists in the store and holds exactly [vertex_count_]
    positions, the same is true after [paintGL], and no buffer that existed
    before has been changed or deleted. *)
Theorem painting_keeps_buffers_valid w w' :
  buffers_ok w ->
  paintGL discretize boundary_rim w = Done w' ->
  buffers_ok w' /\ store_extends (gl_ w) (gl_ w').
Proof.
  intros [Hpos Hok] Hrun.
  destruct (paint_stages w w' Hpos Hrun) as (_ & Hext & _ & Hkeep & _).
  split; [|exact Hext]. split; [destruct Hext; lia|by apply Hkeep].
Qed.

(** X14.  [paintGL] fills the caches once: painting again, as the timer does
    every 40 ms, uploads nothing and leaves the widget and the buffer store
    exactly as they are. *)
Theorem second_paint_uploads_nothing w w' :
  0 < gl_next_name (gl_ w) ->
  paintGL discretize boundary_rim w = Done w' ->
  paintGL discretize boundary_rim w' = Done w'.
Proof.
  intros Hpos Hrun.
  destruct (paint_stages w w' Hpos Hrun) as (_ & _ & Hset & _).
  by apply settled_paint.
Qed.

(** X15.  The two check boxes only flip a flag.  Once a paint has filled the
    vertex and edge caches, flipping either flag and painting again changes
    no buffer: the filters take effect at the next [build] only. *)
Theorem filters_wait_for_the_next_build w w' :
  0 < gl_next_name (gl_ w) ->
  paintGL discretize boundary_rim w = Done w' ->
  gl_vertices_ w' <> [] -> gl_edges_ w' <> [] ->
  paintGL discretize boundary_rim (show_primary_edges_only w')
  = Done (show_primary_edges_only w')
  /\ paintGL discretize boundary_rim (show_internal_edges_only w')
     = Done (show_internal_edges_only w').
Proof.
  intros Hpos Hrun Hv He.
  destruct (paint_stages w w' Hpos Hrun) as (_ & _ & (Sp & Ss & _ & _) & _).
  split; apply settled_paint; (split; [exact Sp|]); (split; [exact Ss|]);
    (split; [by left|by left]).
Qed.

(** X16.  The first paint after a [build], with both filters off, makes one
    buffer object for every site point (a segment counts for its two ends),
    one for every Voronoi vertex and one for every half-edge, so that every
    Voronoi edge is uploaded twice; the one buffer of the segments holds two
    positions for each segment. *)
Theorem first_paint_buffer_counts w w' :
  0 < gl_next_name (gl_ w) ->
  gl_points_ w = [] -> id_ (gl_segments_ w) = 0 ->
  gl_vertices_ w = [] -> gl_edges_ w = [] ->
  primary_edges_only_ w = false -> internal_edges_only_ w = false ->
  paintGL discretize boundary_rim w = Done w' ->
  length (gl_points_ w') = length (point_data_ w) + 2 * length (segment_data_ w)
  /\ vertex_count_ (gl_segments_ w') = 2 * length (segment_data_ w)
  /\ length (gl_vertices_ w') = length (vertices (vd_ w))
  /\ length (gl_edges_ w') = length (edges (vd_ w)).
Proof.
  intros Hpos Hp Hs Hv He Hpr Hin Hrun.
  destruct (paint_stages w w' Hpos Hrun) as (_ & _ & _ & _ & Cp & Cs & Cv & Ce).
  auto.
Qed.


(** *** Painting does not run into undefined behaviour *)

Lemma at_index_below {A} (l : list A) (i : N) :
  (i < N.of_nat (length l))%N -> exists a, at_index l i = Done a.
Proof.
  intros Hi. destruct (lookup_lt_is_Some_2 l (N.to_nat i)) as [a Ha]; [lia|].
  exists a. rewrite <- (at_index_lookup l (N.to_nat i) a Ha). by rewrite N2Nat.id.
Qed.

Lemma size_t_sub_below (a b n : N) :
  (b <= a)%N -> (a < b + n)%N -> (size_t_sub a b < n)%N.
Proof.
  intros Hle Hlt. unfold size_t_sub.
  assert (Hmod : ((Z.of_N a - Z.of_N b) mod 2 ^ 64 <= Z.of_N a - Z.of_N b)%Z).
  { apply Z.mod_le; lia. }
  assert (Hpos : (0 <= (Z.of_N a - Z.of_N b) mod 2 ^ 64)%Z).
  { apply Z.mod_pos_bound. lia. }
  lia.
Qed.

Lemma retrieve_point_site_ok w cl :
  site_ok w cl = true -> exists p, retrieve_point w cl = Done p.
Proof.
  unfold site_ok, retrieve_point. cbv zeta. case_bool_decide as Hcat.
  - intros Hlt. apply N.ltb_lt in Hlt. by apply at_index_below.
  - intros Hr. apply andb_true_iff in Hr as [Hle Hlt].
    apply N.leb_le in Hle. apply N.ltb_lt in Hlt.
    destruct (at_index_below (segment_data_ w)
                (size_t_sub (source_index cl) (N.of_nat (length (point_data_ w)))))
      as [sg Hsg]; [by apply size_t_sub_below|].
    rewrite Hsg. simpl. case_bool_decide; eauto.
Qed.

Lemma retrieve_segment_site_ok w cl :
  site_ok w cl = true -> cell_category cl <> SOURCE_CATEGORY_SINGLE_POINT ->
  exists sg, retrieve_segment w cl = Done sg.
Proof.
  unfold site_ok, retrieve_segment. cbv zeta. intros Hr Hcat.
  rewrite bool_decide_eq_false_2 in Hr by done.
  apply andb_true_iff in Hr as [Hle Hlt].
  apply N.leb_le in Hle. apply N.ltb_lt in Hlt.
  apply at_index_below. by apply size_t_sub_below.
Qed.

Lemma segment_cell_category cl :
  contains_point cl = false -> cell_category cl <> SOURCE_CATEGORY_SINGLE_POINT.
Proof. unfold contains_point. by destruct (cell_category cl). Qed.

Lemma deref_below {A} (l : list A) (i : nat) :
  i < length l -> exists a, deref l i = Done a.
Proof.
  intros Hi. destruct (lookup_lt_is_Some_2 l i Hi) as [a Ha].
  exists a. by apply deref_Done.
Qed.

Lemma clip_origin_direction_cells w e c1 tw c2 :
  cells (vd_ w) !! cell e = Some c1 ->
  edges (vd_ w) !! twin e = Some tw ->
  cells (vd_ w) !! cell tw = Some c2 ->
  site_ok w c1 = true -> site_ok w c2 = true ->
  exists od, clip_origin_direction w e = Done od.
Proof.
  intros Ec1 Etw Ec2 Hs1 Hs2.
  destruct (retrieve_point_site_ok w c1 Hs1) as [p1 Hp1].
  destruct (retrieve_point_site_ok w c2 Hs2) as [p2 Hp2].
  unfold clip_origin_direction.
  rewrite (proj2 (deref_Done _ _ _) Ec1), (proj2 (deref_Done _ _ _) Etw). simpl.
  rewrite (proj2 (deref_Done _ _ _) Ec2). simpl. unfold contains_segment.
  destruct (contains_point c1) eqn:Hc1, (contains_point c2) eqn:Hc2; simpl.
  - rewrite Hp1, Hp2. simpl. eauto.
  - rewrite Hp1. simpl.
    destruct (retrieve_segment_site_ok w c2 Hs2 (segment_cell_category c2 Hc2))
      as [sg ->]. simpl. case_match; eauto.
  - rewrite Hp2. simpl.
    destruct (retrieve_segment_site_ok w c1 Hs1 (segment_cell_category c1 Hc1))
      as [sg ->]. simpl. case_match; eauto.
  - rewrite Hp2. simpl.
    destruct (retrieve_segment_site_ok w c1 Hs1 (segment_cell_category c1 Hc1))
      as [sg ->]. simpl. case_match; eauto.
Qed.

Lemma clip_infinite_edge_cells w e c1 tw c2 acc :
  cells (vd_ w) !! cell e = Some c1 ->
  edges (vd_ w) !! twin e = Some tw ->
  cells (vd_ w) !! cell tw = Some c2 ->
  site_ok w c1 = true -> site_ok w c2 = true ->
  from_option (fun v => v <? length (vertices (vd_ w))) true (vertex0 e) = true ->
  from_option (fun v => v <? length (vertices (vd_ w))) true (vertex1 e) = true ->
  exists clipped, clip_infinite_edge w e acc = Done clipped.
Proof.
  intros Ec1 Etw Ec2 Hs1 Hs2 Hv0 Hv1.
  destruct (clip_origin_direction_cells w e c1 tw c2 Ec1 Etw Ec2 Hs1 Hs2) as [od Hod].
  unfold clip_infinite_edge. rewrite Hod. simpl.
  destruct (vertex0 e) as [v0|], (vertex1 e) as [v1|]; simpl in Hv0, Hv1 |- *;
    repeat match goal with
           | Hv : (?v <? _) = true |- _ =>
             apply Nat.ltb_lt in Hv; destruct (deref_below _ _ Hv) as [? ->]; simpl
           end; eauto.
Qed.

Lemma edge_samples_paintable w e :
  paintable_edge w e = true -> exists samples, edge_samples discretize w e = Done samples.
Proof.
  unfold paintable_edge.
  destruct (cells (vd_ w) !! cell e) as [c1|] eqn:Ec1; [|done].
  destruct (edges (vd_ w) !! twin e) as [tw|] eqn:Etw; [|done].
  destruct (cells (vd_ w) !! cell tw) as [c2|] eqn:Ec2; [|done].
  rewrite !andb_true_iff. intros ((((Hs1 & Hs2) & Hv0) & Hv1) & Harc).
  unfold edge_samples. destruct (is_finite e) eqn:Hfin; simpl.
  2:{ by eapply clip_infinite_edge_cells. }
  unfold is_finite in Hfin.
  destruct (vertex0 e) as [v0|] eqn:E0; [|done].
  destruct (vertex1 e) as [v1|] eqn:E1; [|done].
  simpl in Hv0, Hv1, Harc |- *. apply Nat.ltb_lt in Hv0, Hv1.
  destruct (deref_below _ _ Hv0) as [a0 Ha0], (deref_below _ _ Hv1) as [a1 Ha1].
  rewrite Ha0. simpl. rewrite Ha1. simpl.
  destruct (is_curved e); [|eauto]. simpl in Harc.
  destruct (retrieve_point_site_ok w c1 Hs1) as [p1 Hp1].
  destruct (retrieve_point_site_ok w c2 Hs2) as [p2 Hp2].
  unfold sample_curved_edge.
  rewrite (proj2 (deref_Done _ _ _) Ec1), (proj2 (deref_Done _ _ _) Etw). simpl.
  rewrite (proj2 (deref_Done _ _ _) Ec2). simpl.
  destruct (contains_point c1) eqn:Hc1; simpl in Harc.
  - rewrite Hp1. simpl.
    destruct (retrieve_segment_site_ok w c2 Hs2) as [sg ->].
    { apply negb_true_iff, bool_decide_eq_false in Harc. exact Harc. }
    simpl. eauto.
  - rewrite Hp2. simpl.
    destruct (retrieve_segment_site_ok w c1 Hs1 (segment_cell_category c1 Hc1))
      as [sg ->]. simpl. eauto.
Qed.

Lemma prepare_edge_paintable w acc i e :
  paintable_edge w e = true -> exists acc', prepare_edge discretize w acc i e = Done acc'.
Proof.
  intros Hok. destruct (edge_samples_paintable w e Hok) as [samples Hs].
  unfold prepare_edge. repeat case_match; eauto; rewrite Hs in *; simplify_eq/=; eauto.
Qed.

Lemma edge_fold_paintable w (l : list edge_type) :
  forallb (paintable_edge w) l = true ->
  forall i acc, exists acc', for_each (prepare_edge discretize w) i l acc = Done acc'.
Proof.
  induction l as [|e l IH]; simpl; [eauto|].
  intros Hall i acc. apply andb_true_iff in Hall as [He Hl].
  destruct (prepare_edge_paintable w acc i e He) as [acc1 ->]. simpl. by apply IH.
Qed.

Lemma paint_returns w :
  forallb (paintable_edge w) (edges (vd_ w)) = true ->
  exists w', paintGL discretize boundary_rim w = Done w'.
Proof.
  intros Hall. unfold paintGL. cbv zeta.
  pose proof (prepare_vertices_frame (prepare_segments (prepare_points boundary_rim w)))
    as (Q3 & _).
  pose proof (prepare_segments_frame (prepare_points boundary_rim w)) as (Q2 & _).
  pose proof (prepare_points_frame w) as (Q1 & _). cbv zeta in *.
  remember (prepare_vertices boundary_rim
              (prepare_segments (prepare_points boundary_rim w))) as w3 eqn:E3.
  clear E3.
  assert (Q : same_scene w w3).
  { eapply same_scene_trans; [|exact Q3]. by eapply same_scene_trans. }
  unfold prepare_edges. destruct (negb _); [eauto|]. simpl.
  assert (Hall3 : forallb (paintable_edge w3) (edges (vd_ w3)) = true).
  { rewrite Q. exact Hall. }
  destruct (edge_fold_paintable w3 _ Hall3 0 (gl_edges_ w3, gl_ w3)) as [acc ->].
  simpl. eauto.
Qed.


(** X17.  [paintGL] stays clear of undefined behaviour, whatever the filters
    and the caches are, when every half-edge of the diagram has its cell, its
    twin and its vertices, the cells name sites that were read, and no arc
    asks a single point for its segment. *)
Theorem painting_does_not_crash w :
  forallb (paintable_edge w) (edges (vd_ w)) = true ->
  exists w', paintGL discretize boundary_rim w = Done w'.
Proof. apply paint_returns. Qed.

End PaintMore.

(** ** The rays of [clip_infinite_edge], in exact arithmetic *)

Section ClipExact.
Local Open Scope Q_scope.

Lemma pushed_end_absent (vs : list (vertex_type Q)) s : pushed_end vs None s = s.
Proof. done. Qed.

(** X18.  The ray between the cells of two points runs along their
    perpendicular bisector: the two points [clip_infinite_edge] puts in for
    the absent ends of such an edge are each at the same distance from the
    one site as from the other. *)
Theorem ray_of_two_points_is_equidistant (w : widget Q Q) e c1 tw c2 p1 p2 out :
  cells (vd_ w) !! cell e = Some c1 ->
  edges (vd_ w) !! twin e = Some tw ->
  cells (vd_ w) !! cell tw = Some c2 ->
  contains_point c1 = true -> contains_point c2 = true ->
  retrieve_point w c1 = Done p1 -> retrieve_point w c2 = Done p2 ->
  vertex0 e = None -> vertex1 e = None ->
  exists p q,
    clip_infinite_edge w e out = Done (out ++ [p; q])
    /\ sq_dist p p1 == sq_dist p p2
    /\ sq_dist q p1 == sq_dist q p2.
Proof.
  intros Ec1 Etw Ec2 Hc1 Hc2 Hp1 Hp2 E0 E1.
  assert (Hod : clip_origin_direction w e
                = Done ({| px := (px p1 + px p2) * (1 # 2);
                           py := (py p1 + py p2) * (1 # 2) |},
                        {| px := py p1 - py p2; py := px p2 - px p1 |})).
  { unfold clip_origin_direction.
    rewrite (proj2 (deref_Done _ _ _) Ec1), (proj2 (deref_Done _ _ _) Etw). simpl.
    rewrite (proj2 (deref_Done _ _ _) Ec2). simpl. rewrite Hc1, Hc2. simpl.
    by rewrite Hp1, Hp2. }
  eexists _, _. split.
  { apply (clip_infinite_edge_pushes w e out _ _ Hod).
    intros v [Hv|Hv]; congruence. }
  rewrite E0, E1, !pushed_end_absent. cbv zeta. simpl.
  generalize ((xh (brect_ w) - xl (brect_ w))
              / cmax (fabs (py p1 - py p2)) (fabs (px p2 - px p1)))%coord.
  intros k. unfold sq_dist. simpl. exact_ops. split; ring.
Qed.


Lemma origin_direction_at_segment (w : widget Q Q) e c1 tw c2 o dir :
  cells (vd_ w) !! cell e = Some c1 ->
  edges (vd_ w) !! twin e = Some tw ->
  cells (vd_ w) !! cell tw = Some c2 ->
  contains_point c1 && contains_point c2 = false ->
  clip_origin_direction w e = Done (o, dir) ->
  exists sg,
    (if contains_segment c1 then retrieve_point w c2 else retrieve_point w c1) = Done o
    /\ (if contains_segment c1 then retrieve_segment w c1 else retrieve_segment w c2)
       = Done sg
    /\ let dx := px (high sg) - px (low sg) in
       let dy := py (high sg) - py (low sg) in
       dir = if xorb (point_eqb (low sg) o) (contains_point c1)
             then {| px := dy; py := - dx |} else {| px := - dy; py := dx |}.
Proof.
  intros Ec1 Etw Ec2 Hc. unfold clip_origin_direction.
  rewrite (proj2 (deref_Done _ _ _) Ec1), (proj2 (deref_Done _ _ _) Etw). simpl.
  rewrite (proj2 (deref_Done _ _ _) Ec2). simpl. rewrite Hc.
  destruct (if contains_segment c1 then retrieve_point w c2 else retrieve_point w c1)
    as [origin| |]; simpl; try done.
  destruct (if contains_segment c1 then retrieve_segment w c1 else retrieve_segment w c2)
    as [sg| |]; simpl; try done.
  intros Hd. exists sg.
  destruct (xorb _ _) eqn:Ex; injection Hd as <- <-; rewrite Ex; done.
Qed.

(** X19.  The ray at a segment site starts at a site point and runs
    perpendicular to a segment that was read: a point [clip_infinite_edge]
    puts in for an absent end of such an edge, seen from the origin of the
    ray, is at right angles to the segment. *)
Theorem ray_at_a_segment_is_perpendicular (w : widget Q Q) e c1 tw c2 out :
  cells (vd_ w) !! cell e = Some c1 ->
  edges (vd_ w) !! twin e = Some tw ->
  cells (vd_ w) !! cell tw = Some c2 ->
  contains_point c1 && contains_point c2 = false ->
  (forall v, vertex0 e = Some v \/ vertex1 e = Some v ->
     (v < length (vertices (vd_ w)))%nat) ->
  forall o dir, clip_origin_direction w e = Done (o, dir) ->
  exists sg p q,
    o ∈ site_points w /\ sg ∈ segment_data_ w
    /\ clip_infinite_edge w e out = Done (out ++ [p; q])
    /\ (vertex0 e = None -> dot_along o p (low sg) (high sg) == 0)
    /\ (vertex1 e = None -> dot_along o q (low sg) (high sg) == 0).
Proof.
  intros Ec1 Etw Ec2 Hc Hv o dir Hod.
  destruct (origin_direction_at_segment w e c1 tw c2 o dir Ec1 Etw Ec2 Hc Hod)
    as (sg & Ho & Hsg & Hdir).
  exists sg. eexists _, _.
  split; [destruct (contains_segment c1); by eapply retrieve_point_elem|].
  split; [destruct (contains_segment c1); by eapply retrieve_segment_elem|].
  split; [exact (clip_infinite_edge_pushes w e out o dir Hod Hv)|].
  cbv zeta in *.
  generalize ((xh (brect_ w) - xl (brect_ w))
              / cmax (fabs (px dir)) (fabs (py dir)))%coord.
  intros k. rewrite Hdir. clear Hdir.
  split; intros ->; rewrite pushed_end_absent; unfold dot_along;
    destruct (xorb _ _); simpl; exact_ops; ring.
Qed.


Lemma cmax_equiv (a a' b b' : Q) : a == a' -> b == b' -> cmax a b == cmax a' b'.
Proof.
  intros Ha Hb. unfold cmax. simpl.
  destruct (Qltb a b) eqn:E, (Qltb a' b') eqn:E'; try done;
    rewrite ?Qltb_lt, ?Qltb_ge in *; lra.
Qed.

Lemma koef_equiv (side dx dy dx' dy' : Q) :
  dx' == - dx -> dy' == - dy ->
  side / cmax (Qabs dx') (Qabs dy') == side / cmax (Qabs dx) (Qabs dy).
Proof.
  intros Hx Hy.
  rewrite (cmax_equiv (Qabs dx') (Qabs dx) (Qabs dy') (Qabs dy)); [reflexivity| |].
  - by rewrite Hx, Qabs_opp.
  - by rewrite Hy, Qabs_opp.
Qed.

Lemma point_equiv_refl p : point_equiv p p.
Proof. split; reflexivity. Qed.

Lemma pushed_end_equiv (vs : list (vertex_type Q)) end_ s s' :
  point_equiv s s' -> point_equiv (pushed_end vs end_ s) (pushed_end vs end_ s').
Proof.
  intros Hs. destruct end_ as [i|]; simpl; [|done].
  destruct (vs !! i); simpl; [apply point_equiv_refl|done].
Qed.

Lemma clip_infinite_edge_done (w : widget Q Q) e out r :
  clip_infinite_edge w e out = Done r ->
  (exists o dir, clip_origin_direction w e = Done (o, dir))
  /\ (forall v, vertex0 e = Some v \/ vertex1 e = Some v ->
        (v < length (vertices (vd_ w)))%nat).
Proof.
  unfold clip_infinite_edge.
  destruct (clip_origin_direction w e) as [[o dir]| |]; simpl; try done.
  intros Hrun. split; [eauto|]. intros v [Hv|Hv]; rewrite Hv in Hrun.
  - unfold deref in Hrun. destruct (vertices (vd_ w) !! v) eqn:E; [|done].
    by eapply lookup_lt_Some.
  - destruct (vertex0 e) as [v0|]; simpl in Hrun.
    + destruct (deref (vertices (vd_ w)) v0); simpl in Hrun; try done.
      unfold deref in Hrun. destruct (vertices (vd_ w) !! v) eqn:E; [|done].
      by eapply lookup_lt_Some.
    + unfold deref in Hrun. destruct (vertices (vd_ w) !! v) eqn:E; [|done].
      by eapply lookup_lt_Some.
Qed.

Lemma origin_direction_twin (w : widget Q Q) i e tw c1 c2 o dir :
  edges (vd_ w) !! i = Some e ->
  edges (vd_ w) !! twin e = Some tw -> twin tw = i ->
  cells (vd_ w) !! cell e = Some c1 ->
  cells (vd_ w) !! cell tw = Some c2 ->
  contains_point c1 || contains_point c2 = true ->
  clip_origin_direction w e = Done (o, dir) ->
  exists o' dir',
    clip_origin_direction w tw = Done (o', dir')
    /\ point_equiv o' o /\ px dir' == - px dir /\ py dir' == - py dir.
Proof.
  intros Ee Etw Hback Ec1 Ec2 Hc. unfold clip_origin_direction.
  rewrite Hback.
  rewrite (proj2 (deref_Done _ _ _) Ec1), (proj2 (deref_Done _ _ _) Etw),
    (proj2 (deref_Done _ _ _) Ec2), (proj2 (deref_Done _ _ _) Ee). simpl.
  rewrite (proj2 (deref_Done _ _ _) Ec1), (proj2 (deref_Done _ _ _) Ec2). simpl.
  unfold contains_segment.
  destruct (contains_point c1) eqn:Hc1, (contains_point c2) eqn:Hc2;
    simpl in Hc |- *; try done.
  - destruct (retrieve_point w c1) as [p1| |]; simpl; try done.
    destruct (retrieve_point w c2) as [p2| |]; simpl; try done.
    intros [= <- <-]. eexists _, _. split; [reflexivity|].
    unfold point_equiv. simpl. exact_ops. repeat split; ring.
  - destruct (retrieve_point w c1) as [p1| |]; simpl; try done.
    destruct (retrieve_segment w c2) as [sg| |]; simpl; try done.
    destruct (point_eqb (low sg) p1); simpl; intros [= <- <-];
      (eexists _, _; split; [reflexivity|]);
      unfold point_equiv; simpl; exact_ops; repeat split; ring.
  - destruct (retrieve_point w c2) as [p2| |]; simpl; try done.
    destruct (retrieve_segment w c1) as [sg| |]; simpl; try done.
    destruct (point_eqb (low sg) p2); simpl; intros [= <- <-];
      (eexists _, _; split; [reflexivity|]);
      unfold point_equiv; simpl; exact_ops; repeat split; ring.
Qed.

(** X20.  The two half-edges of an infinite edge are clipped to the same two
    points, met in the opposite order: [prepare_edges], which walks over every
    half-edge, uploads such an edge twice with the same geometry.  (For an
    edge with a point site on one side at least.) *)
Theorem twin_is_clipped_to_the_same_points (w : widget Q Q) i e tw c1 c2 p q :
  edges (vd_ w) !! i = Some e ->
  edges (vd_ w) !! twin e = Some tw -> twin tw = i ->
  cells (vd_ w) !! cell e = Some c1 ->
  cells (vd_ w) !! cell tw = Some c2 ->
  contains_point c1 || contains_point c2 = true ->
  vertex0 tw = vertex1 e -> vertex1 tw = vertex0 e ->
  clip_infinite_edge w e [] = Done [p; q] ->
  exists p' q',
    clip_infinite_edge w tw [] = Done [q'; p']
    /\ point_equiv p' p /\ point_equiv q' q.
Proof.
  intros Ee Etw Hback Ec1 Ec2 Hc Hv0 Hv1 Hrun.
  destruct (clip_infinite_edge_done w e [] _ Hrun) as [(o & dir & Hod) Hin].
  destruct (origin_direction_twin w i e tw c1 c2 o dir Ee Etw Hback Ec1 Ec2 Hc Hod)
    as (o' & dir' & Hod' & [Hox Hoy] & Hdx & Hdy).
  rewrite (clip_infinite_edge_pushes w e [] o dir Hod Hin) in Hrun.
  injection Hrun as <- <-.
  assert (Hin' : forall v, vertex0 tw = Some v \/ vertex1 tw = Some v ->
                   (v < length (vertices (vd_ w)))%nat).
  { intros v Hv. apply Hin. rewrite <- Hv0, <- Hv1. tauto. }
  eexists _, _. split.
  { rewrite (clip_infinite_edge_pushes w tw [] o' dir' Hod' Hin'). simpl.
    reflexivity. }
  cbv zeta.
  pose proof (koef_equiv (xh (brect_ w) - xl (brect_ w))
                (px dir) (py dir) (px dir') (py dir') Hdx Hdy) as Hk.
  rewrite Hv0, Hv1.
  split; apply pushed_end_equiv; unfold point_equiv; simpl; exact_ops;
    rewrite Hk, Hox, Hoy, Hdx, Hdy; split; ring.
Qed.

End ClipExact.

(** ** A build and the paint after it *)

Section BuildAndPaint.
Context {T G : Type} `{Coordinate T} `{GLFloat T G}.

Variable construct_voronoi :
  list (point_type T) -> list (segment_type T) -> diagram T.
Variable discretize :
  point_type T -> segment_type T -> T -> list (point_type T) -> list (point_type T).
Variable boundary_rim : rect_type T -> point_type T -> Q -> list (GLPoint G).

Lemma deleting_keeps_names (vbos : list VBO) :
  forall ctx : gl_context G,
    gl_next_name (foldl (fun c vbo => snd (clear_vbo vbo c)) ctx vbos) = gl_next_name ctx.
Proof.
  induction vbos as [|vbo vbos IH]; intros ctx; simpl; [done|]. by rewrite IH.
Qed.

Lemma clear_caches (w : widget T G) :
  cached (clear w) = [] /\ gl_next_name (gl_ (clear w)) = gl_next_name (gl_ w).
Proof.
  unfold clear, clear_vbo_array, cached. simpl. split; [done|].
  by rewrite !deleting_keeps_names; simpl; rewrite deleting_keeps_names.
Qed.

Lemma build_caches fuel f (w w' : widget T G) :
  build construct_voronoi fuel f w = Done w' ->
  cached w' = [] /\ gl_next_name (gl_ w') = gl_next_name (gl_ w).
Proof.
  destruct (clear_caches w) as [Hc Hn].
  assert (Hread : cached (read_data f (clear w)) = []
                  /\ gl_next_name (gl_ (read_data f (clear w))) = gl_next_name (gl_ w)).
  { rewrite (read_data_keeps cached), (read_data_keeps (fun w => gl_next_name (gl_ w)))
      by done. by split. }
  unfold build. cbv zeta. destruct (negb _); [by intros [= <-]|].
  destruct (color_unbounded _ _ _) as [c| |]; simpl; try done.
  intros [= <-]. exact Hread.
Qed.

(** X21.  After a [build] that returns, on a diagram whose half-edges are all
    paintable, the first [paintGL] returns, every buffer object the widget
    then holds exists with the number of positions recorded for it, and the
    paints that follow change nothing.  What the widget held before the build
    does not matter. *)
Theorem first_paint_after_build fuel f (w w1 : widget T G) :
  0 < gl_next_name (gl_ w) ->
  build construct_voronoi fuel f w = Done w1 ->
  forallb (paintable_edge w1) (edges (vd_ w1)) = true ->
  exists w2,
    paintGL discretize boundary_rim w1 = Done w2
    /\ buffers_ok w2
    /\ paintGL discretize boundary_rim w2 = Done w2.
Proof.
  intros Hpos Hbuild Hedges.
  destruct (build_caches fuel f w w1 Hbuild) as [Hc Hn].
  assert (Hpos1 : 0 < gl_next_name (gl_ w1)) by lia.
  destruct (paint_returns discretize boundary_rim w1 Hedges) as [w2 Hrun]. exists w2.
  split; [exact Hrun|].
  destruct (paint_stages discretize boundary_rim w1 w2 Hpos1 Hrun)
    as (_ & Hext & Hset & Hkeep & _).
  split; [|by apply settled_paint].
  split; [destruct Hext; lia|]. apply Hkeep. rewrite Hc. constructor.
Qed.

End BuildAndPaint.

(** ** The viewport *)

Section ViewportSquare.
Local Open Scope Z_scope.

(** X22.  [resizeGL] hands [glViewport] a square whose side is the smaller of
    the width and the height of the window; it lies within the window, touches
    it along the longer dimension, and is centred up to the pixel the
    division drops. *)
Theorem viewport_is_a_centred_square (width height : Z) :
  0 <= width < 2 ^ 31 -> 0 <= height < 2 ^ 31 ->
  exists x y side,
    resizeGL width height = (x, y, side, side)
    /\ side = Z.min width height
    /\ 0 <= x /\ 0 <= y /\ x + side <= width /\ y + side <= height
    /\ (x = 0 \/ y = 0)
    /\ 0 <= (width - side) - 2 * x <= 1
    /\ 0 <= (height - side) - 2 * y <= 1.
Proof.
  intros Hw Hh. unfold resizeGL. cbv zeta. eexists _, _, _.
  split; [reflexivity|].
  assert (Hmin : qMin width height = Z.min width height).
  { unfold qMin. destruct (Z.ltb_spec width height); lia. }
  rewrite Hmin.
  assert (Hwrap : forall z, 0 <= z < 2 ^ 31 -> int_wrap z = z).
  { intros z Hz. unfold int_wrap. rewrite Z.mod_small; lia. }
  rewrite !Hwrap by lia.
  pose proof (Z.quot_rem' (width - Z.min width height) 2) as Hqx.
  pose proof (Z.rem_bound_pos (width - Z.min width height) 2 ltac:(lia) ltac:(lia)) as Hrx.
  pose proof (Z.quot_rem' (height - Z.min width height) 2) as Hqy.
  pose proof (Z.rem_bound_pos (height - Z.min width height) 2 ltac:(lia) ltac:(lia)) as Hry.
  assert (Hx0 : width <= height -> (width - Z.min width height) ÷ 2 = 0).
  { intros Hle. replace (width - Z.min width height) with 0 by lia. reflexivity. }
  assert (Hy0 : height <= width -> (height - Z.min width height) ÷ 2 = 0).
  { intros Hle. replace (height - Z.min width height) with 0 by lia. reflexivity. }
  repeat split; lia.
Qed.

End ViewportSquare.


(** ** The further properties on the scenarios *)

Lemma color_unbounded_within_bound_three_sites :
  let d : diagram float := three_sites_diagram in
  exists c', color_unbounded (fuel_bound d) d (fresh_colors d) = Done c'
             /\ colors_fit d c'.
Proof.
  intros d.
  apply (color_unbounded_within_bound d (fresh_colors d));
    [reflexivity | split; reflexivity].
Defined.

Lemma unbounded_edges_and_twins_colored_three_sites :
  let d : diagram float := three_sites_diagram in
  exists c',
    color_unbounded 10 d (fresh_colors d) = Done c'
    /\ forall i e, edges d !! i = Some e -> is_finite e = false ->
         get_edge_color c' i = EXTERNAL_COLOR
         /\ get_edge_color c' (twin e) = EXTERNAL_COLOR.
Proof.
  intros d. eexists. split; [vm_compute; reflexivity|].
  apply (unbounded_edges_and_twins_colored d 10); [reflexivity|].
  vm_compute. reflexivity.
Defined.

Lemma only_the_exterior_is_colored_point_and_segment :
  let d : diagram float := point_and_segment_diagram in
  exists c',
    color_unbounded 10 d (fresh_colors d) = Done c'
    /\ (forall i, get_edge_color c' i = EXTERNAL_COLOR -> exterior_reach d i)
    /\ (forall v, get_vertex_color c' v = EXTERNAL_COLOR ->
          exists i e, exterior_reach d i /\ edges d !! i = Some e
                      /\ is_primary e = true /\ vertex1 e = Some v).
Proof.
  intros d. eexists. split; [vm_compute; reflexivity|].
  apply (only_the_exterior_is_colored d 10).
  vm_compute. reflexivity.
Defined.

Lemma segment_of_a_point_index_is_out_of_range_three_sites :
  let w : widget float spec_float := framed three_sites three_sites_diagram blank in
  let cl := site_cell 0 SOURCE_CATEGORY_SINGLE_POINT in
  retrieve_segment w cl = Crash
  /\ (cell_category cl <> SOURCE_CATEGORY_SINGLE_POINT -> retrieve_point w cl = Crash).
Proof.
  intros w cl.
  apply (segment_of_a_point_index_is_out_of_range w cl); [reflexivity|].
  vm_compute. discriminate.
Defined.

Lemma bounding_box_sides_attained_three_sites :
  let w : widget float spec_float := blank in
  sides_attained (brect_ (read_data three_sites (clear w)))
    (site_points (read_data three_sites (clear w))).
Proof.
  intros w. apply (bounding_box_sides_attained three_sites w). reflexivity.
Defined.

(** The three sites, built on a blank widget and on one that holds the two
    sites. *)
Lemma build_forgets_history_three_sites :
  let w1 : widget float spec_float := blank in
  let w2 : widget float spec_float := framed two_sites two_sites_diagram blank in
  let run := build (builder_of three_sites_diagram) 10 three_sites in
  exists r1,
    run w1 = Done r1
    /\ exists r2,
         run w2 = Done r2
         /\ point_data_ r2 = point_data_ r1 /\ segment_data_ r2 = segment_data_ r1
         /\ brect_ r2 = brect_ r1 /\ shift_ r2 = shift_ r1
         /\ brect_initialized_ r2 = true /\ brect_initialized_ r1 = true
         /\ vd_ r2 = vd_ r1 /\ vd_colors_ r2 = vd_colors_ r1
         /\ gl_points_ r1 = [] /\ gl_vertices_ r1 = [] /\ gl_edges_ r1 = []
         /\ gl_points_ r2 = [] /\ gl_vertices_ r2 = [] /\ gl_edges_ r2 = [].
Proof.
  intros w1 w2 run. eexists. split; [vm_compute; reflexivity|].
  apply (build_forgets_history (builder_of three_sites_diagram) 10 three_sites w1 w2);
    vm_compute; reflexivity.
Defined.

Lemma build_returns_within_bound_three_sites :
  let w : widget float spec_float := blank in
  let d : diagram float := three_sites_diagram in
  exists w',
    build (builder_of d) (fuel_bound d) three_sites w = Done w'
    /\ brect_initialized_ w' = true
    /\ point_data_ w' = map site_point (file_points three_sites)
    /\ segment_data_ w' = map site_segment (file_segments three_sites)
    /\ vd_ w' = d /\ colors_fit d (vd_colors_ w')
    /\ shift_ w' = center (brect_ (read_data three_sites (clear w)))
    /\ primary_edges_only_ w' = primary_edges_only_ w
    /\ internal_edges_only_ w' = internal_edges_only_ w.
Proof.
  intros w d.
  apply (build_returns_within_bound (builder_of d) three_sites w);
    [by left | reflexivity].
Defined.

Lemma build_keeps_untouched_entries_two_sites :
  let w : widget float spec_float := blank in
  exists w',
    build (builder_of two_sites_diagram) 10 two_sites w = Done w'
    /\ length (projection_matrix_ w') = length (projection_matrix_ w)
    /\ forall i, i ∉ written_entries ->
         projection_matrix_ w' !! i = projection_matrix_ w !! i.
Proof.
  intros w. eexists. split; [vm_compute; reflexivity|].
  apply (build_keeps_untouched_entries (builder_of two_sites_diagram) 10 two_sites w).
  vm_compute. reflexivity.
Defined.

Lemma projection_maps_region_two_sites :
  let w : widget Q Q := framed two_sites two_sites_diagram blank in
  let shade (p : point_type Q) :=
    gl_Position (projection_matrix_ (update_view_port w))
      (gl_point (deconvolve p (shift_ w))) in
  (exists x y z t, shade {| px := xl (brect_ w); py := yl (brect_ w) |} = (x, y, z, t)
     /\ x == -1 /\ y == -1 /\ z == 0 /\ t == 1)%Q
  /\ (exists x y z t, shade {| px := xh (brect_ w); py := yh (brect_ w) |} = (x, y, z, t)
     /\ x == 1 /\ y == 1 /\ z == 0 /\ t == 1)%Q
  /\ (forall p, strictly_inside (brect_ w) p = true ->
        exists x y z t, shade p = (x, y, z, t)
          /\ -1 < x /\ x < 1 /\ -1 < y /\ y < 1 /\ z == 0 /\ t == 1)%Q.
Proof.
  intros w.
  apply (projection_maps_region w).
  - split; [reflexivity|]. repeat constructor.
  - reflexivity.
  - reflexivity.
Defined.

Lemma sites_are_drawn_inside_the_view_two_sites :
  let w : widget Q Q := blank in
  exists w',
    build (builder_of two_sites_diagram) 10 two_sites w = Done w'
    /\ forall p, p ∈ site_points w' ->
         exists x y z t,
           gl_Position (projection_matrix_ w') (gl_point (deconvolve p (shift_ w')))
           = (x, y, z, t)
           /\ (- (5 # 12) <= x /\ x <= 5 # 12 /\ - (5 # 12) <= y /\ y <= 5 # 12
               /\ z == 0 /\ t == 1)%Q.
Proof.
  intros w. eexists. split; [vm_compute; reflexivity|].
  apply (sites_are_drawn_inside_the_view (builder_of two_sites_diagram) 10 two_sites w).
  - vm_compute. reflexivity.
  - split; [reflexivity|]. repeat constructor.
  - reflexivity.
Defined.

Lemma painting_keeps_buffers_valid_three_sites :
  let w : widget float spec_float := framed three_sites three_sites_diagram blank in
  exists w',
    paintGL no_samples no_rim w = Done w'
    /\ buffers_ok w' /\ store_extends (gl_ w) (gl_ w').
Proof.
  intros w. eexists. split; [vm_compute; reflexivity|].
  apply (painting_keeps_buffers_valid no_samples no_rim w).
  - split; [simpl; lia|]. vm_compute. constructor.
  - vm_compute. reflexivity.
Defined.

Lemma second_paint_uploads_nothing_three_sites :
  let w : widget float spec_float := framed three_sites three_sites_diagram blank in
  exists w',
    paintGL no_samples no_rim w = Done w'
    /\ paintGL no_samples no_rim w' = Done w'.
Proof.
  intros w. eexists. split; [vm_compute; reflexivity|].
  apply (second_paint_uploads_nothing no_samples no_rim w); [simpl; lia|].
  vm_compute. reflexivity.
Defined.

Lemma filters_wait_for_the_next_build_three_sites :
  let w : widget float spec_float := framed three_sites three_sites_diagram blank in
  exists w',
    paintGL no_samples no_rim w = Done w'
    /\ paintGL no_samples no_rim (show_primary_edges_only w')
       = Done (show_primary_edges_only w')
    /\ paintGL no_samples no_rim (show_internal_edges_only w')
       = Done (show_internal_edges_only w').
Proof.
  intros w. eexists. split; [vm_compute; reflexivity|].
  apply (filters_wait_for_the_next_build no_samples no_rim w);
    [simpl; lia | vm_compute; reflexivity | simpl; discriminate | simpl; discriminate].
Defined.

Lemma first_paint_buffer_counts_three_sites :
  let w : widget float spec_float := framed three_sites three_sites_diagram blank in
  exists w',
    paintGL no_samples no_rim w = Done w'
    /\ length (gl_points_ w') = length (point_data_ w) + 2 * length (segment_data_ w)
    /\ vertex_count_ (gl_segments_ w') = 2 * length (segment_data_ w)
    /\ length (gl_vertices_ w') = length (vertices (vd_ w))
    /\ length (gl_edges_ w') = length (edges (vd_ w)).
Proof.
  intros w. eexists. split; [vm_compute; reflexivity|].
  apply (first_paint_buffer_counts no_samples no_rim w);
    [simpl; lia | reflexivity | reflexivity | reflexivity | reflexivity
     | reflexivity | reflexivity | vm_compute; reflexivity].
Defined.

Lemma painting_does_not_crash_point_and_segment :
  let w : widget float spec_float :=
    framed point_and_segment point_and_segment_diagram blank in
  exists w', paintGL no_samples no_rim w = Done w'.
Proof.
  intros w. apply (painting_does_not_crash no_samples no_rim w).
  vm_compute. reflexivity.
Defined.

Lemma ray_of_two_points_is_equidistant_two_sites :
  let w : widget Q Q := framed two_sites two_sites_diagram blank in
  let e := half_edge 0 1 None None 1 true false in
  exists p q,
    clip_infinite_edge w e [] = Done ([] ++ [p; q])
    /\ (sq_dist p (pt 0 0) == sq_dist p (pt 10 0))%Q
    /\ (sq_dist q (pt 0 0) == sq_dist q (pt 10 0))%Q.
Proof.
  intros w e.
  apply (ray_of_two_points_is_equidistant w e
           (site_cell 0 SOURCE_CATEGORY_SINGLE_POINT)
           (half_edge 1 0 None None 0 true false)
           (site_cell 1 SOURCE_CATEGORY_SINGLE_POINT) (pt 0 0) (pt 10 0) []);
    reflexivity.
Defined.

Lemma ray_at_a_segment_is_perpendicular_point_and_segment :
  let w : widget Q Q := framed point_and_segment point_and_segment_diagram blank in
  let e := half_edge 1 3 (Some 0) None 0 false false in
  exists o sg p q,
    o ∈ site_points w /\ sg ∈ segment_data_ w
    /\ clip_infinite_edge w e [] = Done ([] ++ [p; q])
    /\ (vertex0 e = None -> dot_along o p (low sg) (high sg) == 0)%Q
    /\ (vertex1 e = None -> dot_along o q (low sg) (high sg) == 0)%Q.
Proof.
  intros w e. eexists.
  eapply (ray_at_a_segment_is_perpendicular w e
            (site_cell 1 SOURCE_CATEGORY_INITIAL_SEGMENT)
            (half_edge 0 2 None (Some 0) 5 false false)
            (site_cell 1 SOURCE_CATEGORY_SEGMENT_START_POINT) []);
    [reflexivity | reflexivity | reflexivity | reflexivity | | vm_compute; reflexivity].
  intros v [E|E]; [injection E as <-; simpl; lia | discriminate E].
Defined.

(** The two half-edges of the bisector of the two sites. *)
Lemma twin_is_clipped_to_the_same_points_two_sites :
  let w : widget Q Q := framed two_sites two_sites_diagram blank in
  let e := half_edge 0 1 None None 1 true false in
  let tw := half_edge 1 0 None None 0 true false in
  exists p q,
    clip_infinite_edge w e [] = Done [p; q]
    /\ exists p' q',
         clip_infinite_edge w tw [] = Done [q'; p']
         /\ point_equiv p' p /\ point_equiv q' q.
Proof.
  intros w e tw. eexists _, _. split; [vm_compute; reflexivity|].
  apply (twin_is_clipped_to_the_same_points w 0 e tw
           (site_cell 0 SOURCE_CATEGORY_SINGLE_POINT)
           (site_cell 1 SOURCE_CATEGORY_SINGLE_POINT));
    reflexivity.
Defined.

Lemma first_paint_after_build_three_sites :
  let w : widget float spec_float := blank in
  exists w1,
    build (builder_of three_sites_diagram) 10 three_sites w = Done w1
    /\ exists w2,
         paintGL no_samples no_rim w1 = Done w2
         /\ buffers_ok w2
         /\ paintGL no_samples no_rim w2 = Done w2.
Proof.
  intros w. eexists. split; [vm_compute; reflexivity|].
  apply (first_paint_after_build (builder_of three_sites_diagram) no_samples no_rim
           10 three_sites w);
    [simpl; lia | vm_compute; reflexivity | vm_compute; reflexivity].
Defined.

Lemma viewport_is_a_centred_square_800_600 :
  exists x y side,
    resizeGL 800 600 = (x, y, side, side)
    /\ side = Z.min 800 600
    /\ (0 <= x /\ 0 <= y /\ x + side <= 800 /\ y + side <= 600
        /\ (x = 0 \/ y = 0)
        /\ 0 <= (800 - side) - 2 * x <= 1
        /\ 0 <= (600 - side) - 2 * y <= 1)%Z.
Proof.
  apply (viewport_is_a_centred_square 800 600); lia.
Defined.
